(** * pyslam: cost functions and the dense stereo pipeline

    A shallow embedding of [pyslam/costs.py] and
    [pyslam/pipelines/dense_stereo.py].

    Conventions of the embedding.
    - Python exceptions are values of [PyExc]; a function that may raise
      returns a [result].
    - numpy arrays are lists: a 1-d array is a [list F], a 2-d array is the
      list of its rows, [flatten] is row-major concatenation.
    - Floating point numbers are idealised by an exact scalar type [F]
      carrying the arithmetic operations of the class [Scalar].
    - The collaborators that live outside the two source files (the
      Lie group of poses, the camera model, the bilinear sampler, OpenCV and
      the solver) are interfaces, given as type classes.
    - Array operations return the value numpy computes on operands whose
      shapes conform and raise [ValueError] or [IndexError] where numpy
      does. *)

From Stdlib Require Import ZArith List Lia Ring.
From stdpp Require Import base option list gmap strings.

Open Scope Z_scope.

(** ** Python exceptions and results *)

Inductive PyExc : Set :=
| IndexError
| KeyError
| ValueError
| UnboundLocalError
| AttributeError
| TypeError.

Inductive result (A : Type) : Type :=
| Ok (a : A)
| Raise (e : PyExc).

Arguments Ok {A} a.
Arguments Raise {A} e.

#[global] Instance result_ret : MRet result := fun A a => Ok a.
#[global] Instance result_bind : MBind result := fun A B f m =>
  match m with
  | Ok a => f a
  | Raise e => Raise e
  end.
#[global] Instance result_fmap : FMap result := fun A B f m =>
  match m with
  | Ok a => Ok (f a)
  | Raise e => Raise e
  end.

Definition is_Ok {A} (m : result A) : Prop := ∃ a, m = Ok a.

(** [xs[i]] on a Python list or along the first axis of an array. *)
Definition py_getitem {A} (xs : list A) (i : nat) : result A :=
  match xs !! i with
  | Some x => Ok x
  | None => Raise IndexError
  end.

(** [xs[i] = x] on a Python list. *)
Definition py_setitem {A} (xs : list A) (i : nat) (x : A) : result (list A) :=
  if decide (i < length xs)%nat then Ok (<[i := x]> xs) else Raise IndexError.

(** [xs[-1]]. *)
Definition py_last {A} (xs : list A) : result A :=
  match last xs with
  | Some x => Ok x
  | None => Raise IndexError
  end.

(** [list(range(n))] for a Python integer [n]. *)
Definition py_range (n : Z) : list nat := seq 0 (Z.to_nat n).

(** [xs[:-1]]: every element but the last; empty stays empty. *)
Definition py_drop_last {A} (xs : list A) : list A :=
  take (length xs - 1)%nat xs.

(** Reading a local variable that may not have been assigned yet. *)
Definition read_local {A} (x : option A) : result A :=
  match x with
  | Some a => Ok a
  | None => Raise UnboundLocalError
  end.

(** Reading an attribute that the constructor may not have set. *)
Definition getattr {A} (x : option A) : result A :=
  match x with
  | Some a => Ok a
  | None => Raise AttributeError
  end.

(** A [for] loop over a list whose body may raise. *)
Fixpoint for_each {S A} (body : S → A → result S) (xs : list A) (s : S)
    : result S :=
  match xs with
  | [] => Ok s
  | x :: xs' => s' ← body s x; for_each body xs' s'
  end.

(** ** Scalars *)

Class Scalar (F : Type) := {
  Fzero : F;
  Fone : F;
  Fadd : F → F → F;
  Fsub : F → F → F;
  Fmul : F → F → F;
  Fdiv : F → F → F;
  Fopp : F → F;
  Fof_Z : Z → F;
  Fltb : F → F → bool;
  Fnan : F
}.

(** The two ring laws the zero-residual property needs. *)
Class ScalarLaws (F : Type) `{Scalar F} := {
  Fmul_zero_r : ∀ x : F, Fmul x Fzero = Fzero;
  Fadd_zero_l : ∀ x : F, Fadd Fzero x = x
}.

#[global] Instance Z_Scalar : Scalar Z := {|
  Fzero := 0; Fone := 1;
  Fadd := Z.add; Fsub := Z.sub; Fmul := Z.mul; Fdiv := Z.div;
  Fopp := Z.opp; Fof_Z := fun z => z;
  Fltb := Z.ltb; Fnan := -1
|}.

#[global] Instance Z_ScalarLaws : ScalarLaws Z.
Proof. split; intros x; simpl; lia. Qed.

(** ** numpy on lists *)

Module Np.
Section Arrays.
Context {F : Type} `{Scalar F}.

Definition flatten {A} (a : list (list A)) : list A := concat a.

Definition zeros (n : nat) : list F := replicate n Fzero.

(** [a[mask]] (and [a[mask, :]]) for a boolean array [mask]: numpy demands
    that the mask is as long as the indexed axis. *)
Fixpoint select {A} (mask : list bool) (xs : list A) : list A :=
  match mask, xs with
  | b :: mask', x :: xs' =>
      if b then x :: select mask' xs' else select mask' xs'
  | _, _ => []
  end.

Definition mask_index {A} (xs : list A) (mask : list bool) : result (list A) :=
  if decide (length mask = length xs) then Ok (select mask xs)
  else Raise IndexError.

(** [np.array([a, b]).T] and [np.array([a, b, c]).T]: the columns must have
    one common length. *)
Definition columns2 {A} (a b : list A) : result (list (A * A)) :=
  if decide (length a = length b) then Ok (zip a b) else Raise ValueError.

Definition columns3 {A} (a b c : list A) : result (list (A * A * A)) :=
  if decide (length a = length b ∧ length b = length c)
  then Ok (zip (zip a b) c) else Raise ValueError.

(** Elementwise arithmetic on 1-d arrays of one common length. *)
Definition sub (a b : list F) : result (list F) :=
  if decide (length a = length b) then Ok (zip_with Fsub a b)
  else Raise ValueError.

Definition scale (s : F) (a : list F) : list F := Fmul s <$> a.
Definition scale_mat (s : F) (m : list (list F)) : list (list F) :=
  (λ row : list F, scale s row) <$> m.
Definition neg_mat (m : list (list F)) : list (list F) :=
  (λ row : list F, Fopp <$> row) <$> m.

(** Inner product of two 1-d arrays. *)
Definition inner (a b : list F) : F :=
  foldr Fadd Fzero (zip_with Fmul a b).

(** Shape of a 2-d array given as its rows. *)
Definition has_shape (m : list (list F)) (r c : nat) : Prop :=
  length m = r ∧ Forall (λ row, length row = c) m.

#[global] Instance has_shape_dec m r c : Decision (has_shape m r c).
Proof. unfold has_shape. apply _. Defined.

(** [a.shape[1]] of a 2-d array given as its rows. *)
Definition ncols {A} (m : list (list A)) : nat :=
  match m with
  | [] => 0%nat
  | row :: _ => length row
  end.

Definition rectangular (m : list (list F)) : Prop := has_shape m (length m) (ncols m).

Definition column (m : list (list F)) (j : nat) : list F :=
  (λ row, default Fzero (row !! j)) <$> m.

Definition transpose (m : list (list F)) : list (list F) :=
  (column m) <$> seq 0 (ncols m).

(** [np.dot(m, v)] for a 2-d [m] and a 1-d [v]. *)
Definition dot_mv (m : list (list F)) (v : list F) : result (list F) :=
  if decide (has_shape m (length m) (length v))
  then Ok ((λ row, inner row v) <$> m)
  else Raise ValueError.

(** [v.dot(m)] for a 1-d [v] and a 2-d [m]. *)
Definition dot_vm (v : list F) (m : list (list F)) : result (list F) :=
  if decide (length v = length m ∧ rectangular m)
  then Ok ((λ col, inner v col) <$> transpose m)
  else Raise ValueError.

(** [np.dot(a, b)] for two 2-d arrays. *)
Definition dot_mm (a b : list (list F)) : result (list (list F)) :=
  if decide (has_shape a (length a) (length b) ∧ rectangular b)
  then Ok ((λ row, (λ col, inner row col) <$> transpose b) <$> a)
  else Raise ValueError.

(** [np.identity(n)]. *)
Definition identity (n : nat) : list (list F) :=
  (λ i, (λ j, if decide (i = j) then Fone else Fzero) <$> seq 0 n) <$> seq 0 n.

(** [np.bmat(blocks).A] for a list of block rows holding one 1 x n block
    each, as [PhotometricCost.evaluate] builds it. numpy stacks the block
    rows with [concatenate], which rejects an empty sequence with
    [ValueError: need at least one array to concatenate]. *)
Definition bmat_rows (blocks : list (list F)) : result (list (list F)) :=
  match blocks with
  | [] => Raise ValueError
  | first :: _ =>
      if decide (Forall (λ row, length row = length first) blocks)
      then Ok blocks else Raise ValueError
  end.

(** [np.meshgrid(list(range(0, w)), list(range(0, h)), indexing='xy')]:
    two h x w grids, the first holding the column index, the second the
    row index. *)
Definition meshgrid (w h : nat) : list (list F) * list (list F) :=
  ((λ _ : nat, (λ j, Fof_Z (Z.of_nat j)) <$> seq 0 w) <$> seq 0 h,
   (λ i : nat, (λ _ : nat, Fof_Z (Z.of_nat i)) <$> seq 0 w) <$> seq 0 h).

End Arrays.
End Np.

(** ** External collaborators *)

(** A point of the camera frame, and a pixel measurement (u, v, disparity):
    the rows of the n x 3 arrays the camera works on. *)
Abbreviation point F := (F * F * F)%type.
Abbreviation pixel F := (F * F * F)%type.

Definition row3 {F} (p : F * F * F) : list F :=
  let '(a, b, c) := p in [a; b; c].

(** The part of [liegroups.SE3] (or [SE2]) the two files call. *)
Class LieGroup (F G : Type) := {
  dof : nat;
  identity : G;
  dot : G → G → G;
  inv : G → G;
  log : G → list F;
  adjoint : G → list (list F);
  act : G → point F → point F;
  odot : point F → list (list F);
  rot_as_matrix : G → list (list F)
}.

Class LieGroupLaws (F G : Type) `{Scalar F} `{LieGroup F G} := {
  dot_identity_l : ∀ T : G, dot identity T = T;
  dot_inv_r : ∀ T : G, dot T (inv T) = identity;
  inv_identity : inv (identity : G) = identity;
  log_identity : log (identity : G) = Np.zeros dof;
  log_length : ∀ T : G, length (log T) = dof;
  adjoint_shape : ∀ T : G, Np.has_shape (adjoint T) dof dof
}.

(** The camera object: the attributes the source reads and writes. *)
Record Camera (F : Type) := mkCamera {
  fu : F; fv : F; cu : F; cv : F; w : nat; h : nat
}.
Arguments mkCamera {F}.
Arguments fu {F}. Arguments fv {F}. Arguments cu {F}. Arguments cv {F}.
Arguments w {F}. Arguments h {F}.

(** Modelled from the spec: the camera's methods ([pyslam.sensors] is not
    part of the sources). Each works measurement by measurement on the rows
    of its argument; [project] yields the same pixel whether or not its
    Jacobian is asked for. *)
Class CameraModel (F : Type) := {
  is_valid_measurement : Camera F → pixel F → bool;
  triangulate : Camera F → pixel F → point F;
  project : Camera F → point F → pixel F;
  project_jacobian : Camera F → point F → list (list F)
}.

(** Modelled from the spec: [pyslam.utils.bilinear_interpolate], sampling an
    intensity grid at one continuous coordinate (u, v). *)
Class BilinearSampler (F : Type) := {
  bilinear_interpolate1 : list (list F) → F → F → F
}.

Definition bilinear_interpolate {F} `{BilinearSampler F}
    (im : list (list F)) (us vs : list F) : list F :=
  zip_with (bilinear_interpolate1 im) us vs.

(** ** costs.py *)

(** What [evaluate] returns: the residual alone, or the pair of the residual
    and the list of Jacobians. *)
Inductive EvalResult (R J : Type) : Type :=
| ResidualOnly (residual : R)
| WithJacobians (residual : R) (jacobians : list (option J)).
Arguments ResidualOnly {R J} residual.
Arguments WithJacobians {R J} residual jacobians.

(** [if compute_jacobians:] on [None] or a list of flags. *)
Definition truthy (compute_jacobians : option (list bool)) : bool :=
  match compute_jacobians with
  | Some (_ :: _) => true
  | _ => false
  end.

(** [compute_jacobians[i]], reached only when [compute_jacobians] is truthy. *)
Definition flag (compute_jacobians : option (list bool)) (i : nat) : result bool :=
  match compute_jacobians with
  | Some flags => py_getitem flags i
  | None => Raise TypeError
  end.

(** [if compute_jacobians[i]: jacobians[i] = value]. *)
Definition set_if_requested {J} (compute_jacobians : option (list bool))
    (i : nat) (value : result J) (jacobians : list (option J))
    : result (list (option J)) :=
  f ← flag compute_jacobians i;
  if f : bool then (j ← value; py_setitem jacobians i (Some j)) else Ok jacobians.

Module QuadraticCost.
Section Defs.
Context {F : Type} `{Scalar F}.

Record t := mk { x : F; y : F; stiffness : F }.

Definition evaluate (self : t) (params : list F)
    (compute_jacobians : option (list bool)) : result (EvalResult (list F) F) :=
  p0 ← py_getitem params 0;
  p1 ← py_getitem params 1;
  p2 ← py_getitem params 2;
  let residual :=
    Np.scale (stiffness self)
      [Fsub (Fadd (Fadd (Fmul (Fmul p0 (x self)) (x self))
                        (Fmul p1 (x self))) p2) (y self)] in
  if truthy compute_jacobians then
    let jacobians := replicate (length params) None in
    jacobians ← set_if_requested compute_jacobians 0
      (Ok (Fmul (Fmul (stiffness self) (x self)) (x self))) jacobians;
    jacobians ← set_if_requested compute_jacobians 1
      (Ok (Fmul (stiffness self) (x self))) jacobians;
    jacobians ← set_if_requested compute_jacobians 2
      (Ok (Fmul (stiffness self) Fone)) jacobians;
    Ok (WithJacobians residual jacobians)
  else Ok (ResidualOnly residual).
End Defs.
Arguments t F : clear implicits.
End QuadraticCost.

Module PoseCost.
Section Defs.
Context {F G : Type} `{Scalar F} `{LieGroup F G}.

Record t := mk { T_obs : G; stiffness : list (list F) }.

Definition evaluate (self : t) (params : list G)
    (compute_jacobians : option (list bool))
    : result (EvalResult (list F) (list (list F))) :=
  T_est ← py_getitem params 0;
  residual ← Np.dot_mv (stiffness self) (log (dot T_est (inv (T_obs self))));
  if truthy compute_jacobians then
    let jacobians := replicate (length params) None in
    jacobians ← set_if_requested compute_jacobians 0
      (Np.dot_mm (stiffness self) (Np.identity dof)) jacobians;
    Ok (WithJacobians residual jacobians)
  else Ok (ResidualOnly residual).
End Defs.
Arguments t F G : clear implicits.
End PoseCost.

Module PoseToPoseCost.
Section Defs.
Context {F G : Type} `{Scalar F} `{LieGroup F G}.

Record t := mk { T_2_1_obs : G; stiffness : list (list F) }.

Definition evaluate (self : t) (params : list G)
    (compute_jacobians : option (list bool))
    : result (EvalResult (list F) (list (list F))) :=
  T_1_0_est ← py_getitem params 0;
  T_2_0_est ← py_getitem params 1;
  residual ← Np.dot_mv (stiffness self)
    (log (dot (dot T_2_0_est (inv T_1_0_est)) (inv (T_2_1_obs self))));
  if truthy compute_jacobians then
    let jacobians := replicate (length params) None in
    jacobians ← set_if_requested compute_jacobians 0
      (Np.dot_mm (stiffness self) (Np.neg_mat (adjoint T_2_0_est))) jacobians;
    jacobians ← set_if_requested compute_jacobians 1
      (Np.dot_mm (stiffness self) (Np.identity dof)) jacobians;
    Ok (WithJacobians residual jacobians)
  else Ok (ResidualOnly residual).
End Defs.
Arguments t F G : clear implicits.
End PoseToPoseCost.

Module ReprojectionCost.
Section Defs.
Context {F G : Type} `{Scalar F} `{LieGroup F G} `{CameraModel F}.

Record t := mk { camera : Camera F; obs : list F; stiffness : list (list F) }.

(** [params] holds a pose and then a point. *)
Inductive param :=
| Pose (T : G)
| Point (p : point F).

Definition as_pose (p : param) : result G :=
  match p with Pose T => Ok T | Point _ => Raise TypeError end.
Definition as_point (p : param) : result (point F) :=
  match p with Point q => Ok q | Pose _ => Raise TypeError end.

Definition evaluate (self : t) (params : list param)
    (compute_jacobians : option (list bool))
    : result (EvalResult (list F) (list (list F))) :=
  T_cam_w ← py_getitem params 0 ≫= as_pose;
  pt_w ← py_getitem params 1 ≫= as_point;
  let pt_cam := act T_cam_w pt_w in
  if truthy compute_jacobians then
    let jacobians := replicate (length params) None in
    let predicted_obs := row3 (project (camera self) pt_cam) in
    let cam_jacobian := project_jacobian (camera self) pt_cam in
    residual ← Np.sub predicted_obs (obs self) ≫= Np.dot_mv (stiffness self);
    jacobians ← set_if_requested compute_jacobians 0
      (Np.dot_mm cam_jacobian (odot pt_cam) ≫= Np.dot_mm (stiffness self))
      jacobians;
    jacobians ← set_if_requested compute_jacobians 1
      (Np.dot_mm cam_jacobian (rot_as_matrix T_cam_w)
         ≫= Np.dot_mm (stiffness self))
      jacobians;
    Ok (WithJacobians residual jacobians)
  else
    residual ← Np.sub (row3 (project (camera self) pt_cam)) (obs self)
                 ≫= Np.dot_mv (stiffness self);
    Ok (ResidualOnly residual).
End Defs.
Arguments t F : clear implicits.
Arguments param F G : clear implicits.
End ReprojectionCost.

Module PhotometricCost.
Section Defs.
Context {F G : Type} `{Scalar F} `{LieGroup F G} `{CameraModel F}
        `{BilinearSampler F}.

Record t := mk {
  camera : Camera F;
  im_ref : list (list F);
  disp_ref : list (list F);
  im_track : list (list F);
  jac_ref : list (list (list F));
  stiffness : F;
  u : list (list F);
  v : list (list F)
}.

(** [__init__]. *)
Definition init (camera : Camera F) (im_ref disp_ref : list (list F))
    (jac_ref : list (list (list F))) (im_track : list (list F))
    (stiffness : F) : t :=
  let '(u, v) := Np.meshgrid (w camera) (h camera) in
  mk camera im_ref disp_ref im_track jac_ref stiffness u v.

(** [a = a[mask]] for an array that exists only [if compute_jacobians:]. *)
Definition mask_index_opt {A} (a : option (list A)) (mask : list bool)
    : result (option (list A)) :=
  match a with
  | Some xs => Some <$> Np.mask_index xs mask
  | None => Ok None
  end.

(** Row [i] of the Jacobian:
    [im_jac[i, :].dot(project_jac[i, 0:2, :].dot(SE3.odot(pt_track[i, :])))]. *)
Definition jac_row (im_jac : list (F * F)) (project_jac : list (list (list F)))
    (pt_track : list (point F)) (i : nat) : result (list F) :=
  g ← py_getitem im_jac i;
  pj ← py_getitem project_jac i;
  p ← py_getitem pt_track i;
  m ← Np.dot_mm (take 2 pj) (odot p);
  Np.dot_vm [g.1; g.2] m.

Definition evaluate (self : t) (params : list G)
    (compute_jacobians : option (list bool))
    : result (EvalResult (list F) (list (list F))) :=
  T_track_ref ← py_getitem params 0;
  uvd_ref ← Np.columns3 (Np.flatten (u self)) (Np.flatten (v self))
                        (Np.flatten (disp_ref self));
  let im_ref_true := Np.flatten (im_ref self) in
  im_jac ← (if truthy compute_jacobians then
              gx ← py_getitem (jac_ref self) 0;
              gy ← py_getitem (jac_ref self) 1;
              Some <$> Np.columns2 (Np.flatten gx) (Np.flatten gy)
            else Ok None);
  (* Filter out bad measurements (NaN disparity) *)
  let valid_ref := is_valid_measurement (camera self) <$> uvd_ref in
  uvd_ref ← Np.mask_index uvd_ref valid_ref;
  im_ref_true ← Np.mask_index im_ref_true valid_ref;
  im_jac ← mask_index_opt im_jac valid_ref;
  (* Reproject reference image pixels into the tracking image *)
  let pt_ref := triangulate (camera self) <$> uvd_ref in
  let pt_track := act T_track_ref <$> pt_ref in
  let uvd_track := project (camera self) <$> pt_track in
  let project_jac :=
    if truthy compute_jacobians
    then Some (project_jacobian (camera self) <$> pt_track) else None in
  (* Filter out bad measurements (out of bounds, nonpositive disparity) *)
  let valid_track := is_valid_measurement (camera self) <$> uvd_track in
  uvd_track ← Np.mask_index uvd_track valid_track;
  pt_track ← Np.mask_index pt_track valid_track;
  im_ref_true ← Np.mask_index im_ref_true valid_track;
  im_jac ← mask_index_opt im_jac valid_track;
  project_jac ← mask_index_opt project_jac valid_track;
  (* The residual is the intensity difference *)
  let im_ref_est :=
    bilinear_interpolate (im_track self)
      ((λ m : pixel F, m.1.1) <$> uvd_track)
      ((λ m : pixel F, m.1.2) <$> uvd_track) in
  residual ← Np.scale (stiffness self) <$> Np.sub im_ref_est im_ref_true;
  if truthy compute_jacobians then
    let jacobians := replicate (length params) None in
    jacobians ← set_if_requested compute_jacobians 0
      (im_jac ← read_local im_jac;
       project_jac ← read_local project_jac;
       jac_blocks ← mapM (jac_row im_jac project_jac pt_track)
                         (seq 0 (length residual));
       Np.scale_mat (stiffness self) <$> Np.bmat_rows jac_blocks)
      jacobians;
    Ok (WithJacobians residual jacobians)
  else Ok (ResidualOnly residual).
End Defs.
Arguments t F : clear implicits.
End PhotometricCost.

(** ** pipelines/dense_stereo.py *)

(** [cv2]: the three OpenCV entry points the pipeline calls, on 8-bit images
    given as rows of integers. [StereoSGBM_compute minDisparity
    numDisparities blockSize] stands for [cv2.StereoSGBM_create(...).compute]. *)
Class OpenCV := {
  pyrDown : list (list Z) → list (list Z);
  StereoSGBM_compute : Z → Z → Z → list (list Z) → list (list Z) → list (list Z);
  Sobel : list (list Z) → Z → Z → Z → list (list Z)
}.

Module DenseKeyframe.
Section Defs.
Context {F G : Type} `{Scalar F} `{LieGroup F G} `{OpenCV}.

Record t := mk {
  pyrlevels : Z;
  T_c_w : G;
  T_c_w_covar : list (list F);
  image : list (list (list F));
  disparity : option (list (list (list F)));
  jacobian : option (list (list (list (list F))))
}.

(** [im.astype(float) / d]. *)
Definition astype_float_div (d : Z) (im : list (list Z)) : list (list F) :=
  (λ row : list Z, (λ px, Fdiv (Fof_Z px) (Fof_Z d)) <$> row) <$> im.

(** One round of the loop that builds the two pyramids. *)
Definition pyr_step (im_left im_right : list (list Z))
    (locals : option (list (list (list Z))) * option (list (list (list Z))))
    (level : nat)
    : result (option (list (list (list Z))) * option (list (list (list Z)))) :=
  if decide (level = 0%nat) then Ok (Some [im_left], Some [im_right])
  else
    pyr_left ← read_local locals.1;
    top_left ← py_last pyr_left;
    let pyr_left := pyr_left ++ [pyrDown top_left] in
    pyr_right ← read_local locals.2;
    top_right ← py_last pyr_right;
    let pyr_right := pyr_right ++ [pyrDown top_right] in
    Ok (Some pyr_left, Some pyr_right).

(** The disparity map of one level. *)
Definition level_disparity (level : nat) (imL imR : list (list Z))
    : list (list F) :=
  let window_size := 5 in
  let min_disp := 1 in
  let max_disp := Z.max 16 (64 / 2 ^ Z.of_nat level) + min_disp in
  let disp :=
    astype_float_div 16
      (StereoSGBM_compute min_disp (max_disp - min_disp) window_size imL imR) in
  let disp :=
    (λ row : list F,
       (λ d, if Fltb d (Fof_Z (min_disp + 1)) then Fnan else d) <$> row)
      <$> disp in
  (λ row : list F,
     (λ d, if Fltb (Fof_Z max_disp) d then Fnan else d) <$> row) <$> disp.

(** The image gradient of one level: [np.array([gradx / 255., grady / 255.])]. *)
Definition level_jacobian (imL : list (list Z)) : list (list (list F)) :=
  let gradx := Sobel imL (-1) 1 0 in
  let grady := Sobel imL (-1) 0 1 in
  [astype_float_div 255 gradx; astype_float_div 255 grady].

(** [__init__]. *)
Definition init (im_left im_right : list (list Z)) (pyrlevels : Z)
    (T_c_w : G) (T_c_w_covar : list (list F))
    (compute_disp compute_jac : bool) : result t :=
  locals ← for_each (pyr_step im_left im_right) (py_range pyrlevels)
                    (None, None);
  pyr_left ← read_local locals.1;
  let image := astype_float_div 255 <$> pyr_left in
  disparity ←
    (if compute_disp then
       pyr_right ← read_local locals.2;
       Ok (Some ((λ '(level, imL, imR), level_disparity level imL imR)
                   <$> zip (zip (py_range pyrlevels) pyr_left) pyr_right))
     else Ok None);
  let jacobian :=
    if compute_jac then Some (level_jacobian <$> pyr_left) else None in
  Ok (mk pyrlevels T_c_w T_c_w_covar image disparity jacobian).

(** The constructor called with the defaults of its keyword arguments. *)
Definition init_default (im_left im_right : list (list Z)) : result t :=
  init im_left im_right 0 identity (Np.identity 6) false false.

Definition set_T_c_w (T : G) (kf : t) : t :=
  mk (pyrlevels kf) T (T_c_w_covar kf) (image kf) (disparity kf) (jacobian kf).
End Defs.
Arguments t F G : clear implicits.
End DenseKeyframe.

(** Modelled from the spec: [pyslam.problem.Options], the solver's
    configuration object, with the fields the spec lists ([pyslam/problem.py]
    is not part of the sources). *)
Record Options (F : Type) := mkOptions {
  max_iterations : Z;
  tolerance : F;
  allow_nondecreasing_steps : bool;
  max_nondecreasing_steps : Z;
  min_cost_decrease : F
}.
Arguments mkOptions {F}.
Arguments max_iterations {F}. Arguments tolerance {F}.
Arguments allow_nondecreasing_steps {F}.
Arguments max_nondecreasing_steps {F}.
Arguments min_cost_decrease {F}.

(** An attribute assignment [options.field = value]. *)
Inductive OptionsAssign (F : Type) :=
| Set_max_iterations (n : Z)
| Set_tolerance (x : F)
| Set_allow_nondecreasing_steps (b : bool)
| Set_max_nondecreasing_steps (n : Z)
| Set_min_cost_decrease (x : F).
Arguments Set_max_iterations {F}. Arguments Set_tolerance {F}.
Arguments Set_allow_nondecreasing_steps {F}.
Arguments Set_max_nondecreasing_steps {F}.
Arguments Set_min_cost_decrease {F}.

Definition assign {F} (o : Options F) (a : OptionsAssign F) : Options F :=
  match a with
  | Set_max_iterations n =>
      mkOptions n (tolerance o) (allow_nondecreasing_steps o)
                (max_nondecreasing_steps o) (min_cost_decrease o)
  | Set_tolerance x =>
      mkOptions (max_iterations o) x (allow_nondecreasing_steps o)
                (max_nondecreasing_steps o) (min_cost_decrease o)
  | Set_allow_nondecreasing_steps b =>
      mkOptions (max_iterations o) (tolerance o) b
                (max_nondecreasing_steps o) (min_cost_decrease o)
  | Set_max_nondecreasing_steps n =>
      mkOptions (max_iterations o) (tolerance o) (allow_nondecreasing_steps o)
                n (min_cost_decrease o)
  | Set_min_cost_decrease x =>
      mkOptions (max_iterations o) (tolerance o) (allow_nondecreasing_steps o)
                (max_nondecreasing_steps o) x
  end.

(** [pyslam.losses]: the two loss objects the pipeline imports. *)
Inductive Loss (F : Type) :=
| L2Loss
| HuberLoss (k : F).
Arguments L2Loss {F}.
Arguments HuberLoss {F}.

(** Modelled from the spec: [pyslam.residuals.PhotometricResidual], held as
    the arguments of its constructor. *)
Record PhotometricResidual (F : Type) := mkPhotometricResidual {
  res_camera : Camera F;
  res_im_ref : list (list F);
  res_disp_ref : list (list F);
  res_jac_ref : list (list (list F));
  res_im_track : list (list F);
  res_stiffness : F;
  res_loss : Loss F
}.
Arguments mkPhotometricResidual {F}.
Arguments res_camera {F}. Arguments res_im_ref {F}. Arguments res_disp_ref {F}.
Arguments res_jac_ref {F}. Arguments res_im_track {F}.
Arguments res_stiffness {F}. Arguments res_loss {F}.

(** Modelled from the spec: [pyslam.problem.Problem], a mapping from
    identifiers to parameter values and a list of residual blocks, each a
    residual with the ordered identifiers of its parameters. *)
Module Problem.
Section Defs.
Context {F G : Type}.

Record t := mk {
  options : Options F;
  residual_blocks : list (PhotometricResidual F * list string);
  param_dict : gmap string G
}.

(** [Problem(options)]. *)
Definition new (options : Options F) : t := mk options [] ∅.

(** [problem.add_residual_block(residual, params)]. *)
Definition add_residual_block (residual : PhotometricResidual F)
    (params : list string) (self : t) : t :=
  mk (options self) (residual_blocks self ++ [(residual, params)])
     (param_dict self).

(** [problem.initialize_params(param_dict)]. *)
Definition initialize_params (params : gmap string G) (self : t) : t :=
  mk (options self) (residual_blocks self) (params ∪ param_dict self).
End Defs.
Arguments t F G : clear implicits.
End Problem.

(** The solver: [Options()] and [problem.solve()], which returns the
    dictionary of solved parameter values or raises. *)
Class Solver (F G : Type) := {
  Options_new : Options F;
  solve : Problem.t F G → result (gmap string G)
}.

(** [d[k]] on a dictionary. *)
Definition dict_getitem {V} (d : gmap string V) (k : string) : result V :=
  match d !! k with
  | Some x => Ok x
  | None => Raise KeyError
  end.

Module DenseStereoPipeline.
Section Defs.
Context {F G : Type} `{Scalar F} `{LieGroup F G} `{OpenCV} `{Solver F G}.

Record t := mk {
  camera : Camera F;
  first_pose : G;
  first_pose_covar : list (list F);
  keyframes : list (DenseKeyframe.t F G);
  problem_options : Options F;
  pyrlevels : Z
}.

(** The assignments [__init__] makes to the fields of the options object
    after it has constructed it ("Default optimizer parameters"). *)
Definition init_assignments : list (OptionsAssign F) :=
  [ Set_allow_nondecreasing_steps true;
    Set_max_nondecreasing_steps 3;
    Set_min_cost_decrease (Fdiv (Fof_Z 99) (Fof_Z 100)) ].

(** [__init__]. *)
Definition init (camera : Camera F) (first_pose : G)
    (first_pose_covar : list (list F)) : t :=
  let problem_options := Options_new in
  let problem_options := foldl assign problem_options init_assignments in
  mk camera first_pose first_pose_covar [] problem_options 4.

(** One call of the solver, as an observer of the pipeline sees it: the
    pyramid level, the problem handed to [solve] and what [solve]
    returned. *)
Record SolveCall := mkCall {
  call_level : nat;
  call_problem : Problem.t F G;
  call_result : gmap string G
}.

(** The body of the loop over the pyramid levels. *)
Definition level_step (self : t) (ref_frame track_frame : DenseKeyframe.t F G)
    (state : gmap string G * list SolveCall) (pyrlevel : nat)
    : result (gmap string G * list SolveCall) :=
  let '(params, calls) := state in
  let pyrfactor := Fdiv Fone (Fof_Z (2 ^ Z.of_nat pyrlevel)) in
  im_ref ← py_getitem (DenseKeyframe.image ref_frame) pyrlevel;
  disp_ref ← getattr (DenseKeyframe.disparity ref_frame)
               ≫= (λ d, py_getitem d pyrlevel);
  jac_ref ← getattr (DenseKeyframe.jacobian ref_frame)
              ≫= (λ j, py_getitem j pyrlevel);
  im_track ← py_getitem (DenseKeyframe.image track_frame) pyrlevel;
  let pyr_camera := camera self in
  let pyr_camera :=
    mkCamera (Fmul (fu pyr_camera) pyrfactor) (Fmul (fv pyr_camera) pyrfactor)
             (Fmul (cu pyr_camera) pyrfactor) (Fmul (cv pyr_camera) pyrfactor)
             (Np.ncols im_ref) (length im_ref) in
  let residual :=
    mkPhotometricResidual pyr_camera im_ref disp_ref jac_ref im_track
                          Fone L2Loss in
  let problem := Problem.new (problem_options self) in
  let problem := Problem.add_residual_block residual ["T_1_0"%string] problem in
  let problem := Problem.initialize_params params problem in
  params ← solve problem;
  Ok (params, calls ++ [mkCall pyrlevel problem params]).

(** [_compute_frame_to_frame_motion], returning next to the pose the calls
    it made to the solver, in order. *)
Definition compute_frame_to_frame_motion (self : t)
    (ref_frame track_frame : DenseKeyframe.t F G)
    : result (G * list SolveCall) :=
  let params : gmap string G := {[ "T_1_0"%string := identity ]} in
  let pyrlevel_sequence := py_range (pyrlevels self) in
  let pyrlevel_sequence := reverse pyrlevel_sequence in
  '(params, calls) ← for_each (level_step self ref_frame track_frame)
                        (py_drop_last pyrlevel_sequence) (params, []);
  T_1_0 ← dict_getitem params "T_1_0"%string;
  Ok (T_1_0, calls).

(** [track], returning the pipeline after the call and the calls made to
    the solver. *)
Definition track (self : t) (im_left im_right : list (list Z))
    : result (t * list SolveCall) :=
  if decide (length (keyframes self) = 0%nat) then
    (* First frame, so don't track anything yet *)
    trackframe ← DenseKeyframe.init im_left im_right (pyrlevels self)
                   (first_pose self) (first_pose_covar self) true true;
    Ok (mk (camera self) (first_pose self) (first_pose_covar self)
           (keyframes self ++ [trackframe]) (problem_options self)
           (pyrlevels self), [])
  else
    (* Default behaviour for second frame and beyond *)
    trackframe ← DenseKeyframe.init im_left im_right (pyrlevels self)
                   identity (Np.identity 6) true true;
    ref_frame ← py_last (keyframes self);
    '(T_1_0, calls) ← compute_frame_to_frame_motion self ref_frame trackframe;
    let trackframe :=
      DenseKeyframe.set_T_c_w (dot T_1_0 (DenseKeyframe.T_c_w ref_frame))
                              trackframe in
    Ok (mk (camera self) (first_pose self) (first_pose_covar self)
           (keyframes self ++ [trackframe]) (problem_options self)
           (pyrlevels self), calls).
End Defs.
Arguments t F G : clear implicits.
Arguments SolveCall F G : clear implicits.
End DenseStereoPipeline.

(** ** A small concrete model of the collaborators

    Scalars are integers, poses are the translations along the first axis
    (a one-parameter group, so [dof = 1]), the camera is the identity map that
    accepts the measurements with a positive disparity inside the frame.
    It is used to run the definitions on concrete inputs. *)

Module Toy.

#[global] Instance group : LieGroup Z Z := {|
  dof := 1;
  identity := 0;
  dot := Z.add;
  inv := Z.opp;
  log := λ T, [T];
  adjoint := λ _, [[1]];
  act := λ T '(px, py, pz), (px + T, py, pz);
  odot := λ _, [[1]; [0]; [0]];
  rot_as_matrix := λ _, [[1; 0; 0]; [0; 1; 0]; [0; 0; 1]]
|}.

#[global] Instance group_laws : LieGroupLaws Z Z.
Proof.
  split; simpl; intros; try lia; try reflexivity.
  unfold Np.has_shape. simpl. split; [reflexivity|]. repeat constructor.
Qed.

#[global] Instance cam : CameraModel Z := {|
  is_valid_measurement := λ c '(mu, mv, md),
    (0 <=? mu) && (mu <? Z.of_nat (w c)) &&
    (0 <=? mv) && (mv <? Z.of_nat (h c)) && (0 <? md);
  triangulate := λ _ m, m;
  project := λ _ p, p;
  project_jacobian := λ _ _, [[1; 0; 0]; [0; 1; 0]; [0; 0; 1]]
|}.

(** Nearest-pixel lookup, [Fnan] outside the image. *)
#[global] Instance sampler : BilinearSampler Z := {|
  bilinear_interpolate1 := λ im su sv,
    default Fnan (im !! Z.to_nat sv ≫= λ row, row !! Z.to_nat su)
|}.

#[global] Instance cv2 : OpenCV := {|
  pyrDown := λ im, im;
  StereoSGBM_compute := λ _ _ _ imL _,
    (λ row : list Z, (λ _, 48) <$> row) <$> imL;
  Sobel := λ im _ _ _, (λ row : list Z, (λ _, 0) <$> row) <$> im
|}.

(** A solver that moves the pose one unit further on every call. *)
#[global] Instance solver : Solver Z Z := {|
  Options_new := mkOptions 100 0 false 0 0;
  solve := λ pb, Ok ((λ T, T + 1) <$> Problem.param_dict pb)
|}.

Definition camera : Camera Z := mkCamera 2 2 1 1 2 2.
Definition image8 : list (list Z) := [[10; 20]; [30; 40]].
Definition grid : list (list Z) := [[1; 2]; [3; 4]].
Definition bad_disparity : list (list Z) := [[-1; -1]; [-1; -1]].
Definition good_disparity : list (list Z) := [[1; 1]; [1; 1]].

(** The pipeline as constructed, and a keyframe with its four levels. *)
Definition pipeline : DenseStereoPipeline.t Z Z :=
DenseStereoPipeline.init camera 0 [].

Definition keyframe : DenseKeyframe.t Z Z :=
Eval vm_compute in
  match DenseKeyframe.init image8 image8 4 0 [] true true with
  | Ok kf => kf
  | Raise _ => DenseKeyframe.mk 0 0 [] [] None None
  end.

(** The pipeline after its first frame. *)
Definition pipeline1 : DenseStereoPipeline.t Z Z :=
Eval vm_compute in
  match DenseStereoPipeline.track pipeline image8 image8 with
  | Ok (p, _) => p
  | Raise _ => pipeline
  end.

Definition tracked : Z * list (DenseStereoPipeline.SolveCall Z Z) :=
Eval vm_compute in
  match DenseStereoPipeline.compute_frame_to_frame_motion
          pipeline keyframe keyframe with
  | Ok r => r
  | Raise _ => (0, [])
  end.

End Toy.

(** The residual of whatever [evaluate] returned. *)
Definition residual_of {R J} (out : EvalResult R J) : R :=
  match out with
  | ResidualOnly r => r
  | WithJacobians r _ => r
  end.

(** The list of Jacobians is as long as [n] and holds [None] wherever the
    flag is false. *)
Definition unrequested_are_None {J} (flags : list bool) (n : nat)
    (jacobians : list (option J)) : Prop :=
  length jacobians = n
  ∧ ∀ i, flags !! i = Some false → jacobians !! i = Some None.

(** [run] stands for [evaluate] of some cost at some parameters, as a
    function of [compute_jacobians]; [n] is the number of parameters.

    Whatever [run] returns has the shape the flags ask for: the residual
    alone without flags, the pair with flags, and in the pair [None]
    wherever the flag is false. *)
Definition keeps_protocol {R J} (run : option (list bool) → result (EvalResult R J))
    (n : nat) : Prop :=
  (∀ out, run None = Ok out → ∃ residual, out = ResidualOnly residual)
  ∧ (∀ flags out, length flags = n → run (Some flags) = Ok out →
       ∃ residual jacobians,
         out = WithJacobians residual jacobians
         ∧ unrequested_are_None flags n jacobians).

(** [run] does return, the residual alone without flags and the pair with
    the flags [flags]. *)
Definition answers_flags {R J} (run : option (list bool) → result (EvalResult R J))
    (n : nat) (flags : list bool) : Prop :=
  ∃ residual jacobians,
    run None = Ok (ResidualOnly residual)
    ∧ run (Some flags) = Ok (WithJacobians residual jacobians)
    ∧ unrequested_are_None flags n jacobians.

(** ** The photometric residual, pixel by pixel

    The residual of the dense photometric cost as the specification words
    it: for every reference pixel with a valid disparity, triangulate it,
    move it by the candidate pose, project it into the tracking image, and,
    when that projection is a valid measurement, sample the tracking image
    there and take the stiffness-scaled difference to the reference
    intensity. [PhotometricCost.evaluate] is compared with it below. *)

Section PhotometricSpec.
Context {F G : Type} `{Scalar F} `{LieGroup F G} `{CameraModel F}
        `{BilinearSampler F}.

(** The pixels (row, column) of a w x h image, row by row. *)
Definition pixels (w h : nat) : list (nat * nat) :=
  concat ((λ i : nat, (λ j : nat, (i, j)) <$> seq 0 w) <$> seq 0 h).

(** The value of a grid at row [i], column [j]. *)
Definition at_pixel {A} (a : list (list A)) (i j : nat) : option A :=
  a !! i ≫= λ row : list A, row !! j.

(** Where the reference measurement [m] lands in the tracking image. *)
Definition warp (c : Camera F) (T : G) (m : pixel F) : pixel F :=
  project c (act T (triangulate c m)).

(** Both validity filters on a reference measurement. *)
Definition passes_filters (c : Camera F) (T : G) (m : pixel F) : bool :=
  is_valid_measurement c m && is_valid_measurement c (warp c T m).

(** The residual entry of one reference measurement with true intensity
    [intensity], if it passes both filters. *)
Definition measurement_residual (self : PhotometricCost.t F) (T : G)
    (m : pixel F) (intensity : F) : option F :=
  if passes_filters (PhotometricCost.camera self) T m then
    let m' := warp (PhotometricCost.camera self) T m in
    Some (Fmul (PhotometricCost.stiffness self)
               (Fsub (bilinear_interpolate1 (PhotometricCost.im_track self)
                                            m'.1.1 m'.1.2)
                     intensity))
  else None.

Definition pixel_residual (self : PhotometricCost.t F) (T : G)
    (ij : nat * nat) : option F :=
  d ← at_pixel (PhotometricCost.disp_ref self) ij.1 ij.2;
  intensity ← at_pixel (PhotometricCost.im_ref self) ij.1 ij.2;
  measurement_residual self T
    (Fof_Z (Z.of_nat ij.2), Fof_Z (Z.of_nat ij.1), d) intensity.

Definition photometric_residual (self : PhotometricCost.t F) (T : G) : list F :=
  omap (pixel_residual self T)
       (pixels (w (PhotometricCost.camera self)) (h (PhotometricCost.camera self))).

(** The images of a cost have the dimensions of its camera. *)
Definition images_fit (self : PhotometricCost.t F) : Prop :=
  Np.has_shape (PhotometricCost.im_ref self)
    (h (PhotometricCost.camera self)) (w (PhotometricCost.camera self))
  ∧ Np.has_shape (PhotometricCost.disp_ref self)
      (h (PhotometricCost.camera self)) (w (PhotometricCost.camera self)).

(** The gradient holds two grids of the dimensions of the camera. *)
Definition gradient_fits (self : PhotometricCost.t F) : Prop :=
  ∃ gx gy, PhotometricCost.jac_ref self = [gx; gy]
    ∧ Np.has_shape gx (h (PhotometricCost.camera self))
                      (w (PhotometricCost.camera self))
    ∧ Np.has_shape gy (h (PhotometricCost.camera self))
                      (w (PhotometricCost.camera self)).

(** *** The same residual as [evaluate] arrives at it

    The intermediate values of [PhotometricCost.evaluate], named so that the
    lemmas below can speak about them. *)

(** The grids [u] and [v] of a cost are those its constructor computes. *)
Definition constructed (self : PhotometricCost.t F) : Prop :=
  (PhotometricCost.u self, PhotometricCost.v self)
    = Np.meshgrid (w (PhotometricCost.camera self))
                  (h (PhotometricCost.camera self)).

(** The stacked reference measurements of a cost, when its three grids
    flatten to one common length. *)
Definition stacked (self : PhotometricCost.t F) : result (list (pixel F)) :=
  Np.columns3 (Np.flatten (PhotometricCost.u self))
              (Np.flatten (PhotometricCost.v self))
              (Np.flatten (PhotometricCost.disp_ref self)).

(** The stacked gradient of a cost: [im_jac] before any filtering. *)
Definition stacked_gradient (self : PhotometricCost.t F) : result (list (F * F)) :=
  gx ← py_getitem (PhotometricCost.jac_ref self) 0;
  gy ← py_getitem (PhotometricCost.jac_ref self) 1;
  Np.columns2 (Np.flatten gx) (Np.flatten gy).

(** The residual that [evaluate] computes from the stacked measurements
    [ms] and their true intensities [ts]. *)
Definition masked_residual (self : PhotometricCost.t F) (T : G)
    (ms : list (pixel F)) (ts : list F) : list F :=
  let c := PhotometricCost.camera self in
  let valid_ref := is_valid_measurement c <$> ms in
  let uvd_ref := Np.select valid_ref ms in
  let im_ref_true := Np.select valid_ref ts in
  let pt_track := act T <$> (triangulate c <$> uvd_ref) in
  let uvd_track := project c <$> pt_track in
  let valid_track := is_valid_measurement c <$> uvd_track in
  let uvd_track := Np.select valid_track uvd_track in
  let im_ref_true := Np.select valid_track im_ref_true in
  let im_ref_est :=
    bilinear_interpolate (PhotometricCost.im_track self)
      ((λ m : pixel F, m.1.1) <$> uvd_track)
      ((λ m : pixel F, m.1.2) <$> uvd_track) in
  Np.scale (PhotometricCost.stiffness self) (zip_with Fsub im_ref_est im_ref_true).

End PhotometricSpec.

(** ** Observations on the tracker's calls to the solver *)

Section Trace.
Context {F G : Type} `{Scalar F} `{LieGroup F G} `{OpenCV} `{Solver F G}.

(** The solver call [c] was made on a problem freshly built for one level:
    a new [Problem] over the pipeline's options, one photometric residual
    block over the single parameter 'T_1_0', initialised with [params]. *)
Definition fresh_level_problem (self : DenseStereoPipeline.t F G)
    (params : gmap string G) (c : DenseStereoPipeline.SolveCall F G) : Prop :=
  (∃ residual,
      DenseStereoPipeline.call_problem c
        = Problem.initialize_params params
            (Problem.add_residual_block residual ["T_1_0"%string]
               (Problem.new (DenseStereoPipeline.problem_options self)))
      ∧ res_stiffness residual = Fone ∧ res_loss residual = L2Loss)
  ∧ solve (DenseStereoPipeline.call_problem c)
      = Ok (DenseStereoPipeline.call_result c).

(** A run of solver calls in which every call starts from what the call
    before it returned: from [params], through [calls], to [final]. *)
Inductive warm_started (self : DenseStereoPipeline.t F G)
    : gmap string G → list (DenseStereoPipeline.SolveCall F G)
      → gmap string G → Prop :=
| warm_done params : warm_started self params [] params
| warm_level params c calls final :
    fresh_level_problem self params c →
    warm_started self (DenseStereoPipeline.call_result c) calls final →
    warm_started self params (c :: calls) final.

(** A keyframe that carries image, disparity and gradient for [n] levels. *)
Definition has_levels (kf : DenseKeyframe.t F G) (n : nat) : Prop :=
  (n ≤ length (DenseKeyframe.image kf))%nat
  ∧ (∃ d, DenseKeyframe.disparity kf = Some d ∧ (n ≤ length d)%nat)
  ∧ (∃ j, DenseKeyframe.jacobian kf = Some j ∧ (n ≤ length j)%nat).

(** A solver that returns a value for 'T_1_0' whenever it is given one. *)
Definition solver_returns_pose : Prop :=
  ∀ pb : Problem.t F G,
    is_Some (Problem.param_dict pb !! "T_1_0"%string) →
    ∃ m, solve pb = Ok m ∧ is_Some (m !! "T_1_0"%string).

(** The reading of the tracker under which every level of the pyramid, the
    finest one included, gets a solve and the pose returned is the one solved
    at level 0. *)
Definition solves_every_level (self : DenseStereoPipeline.t F G)
    (ref_frame track_frame : DenseKeyframe.t F G) : Prop :=
  ∀ T calls,
    DenseStereoPipeline.compute_frame_to_frame_motion self ref_frame track_frame
      = Ok (T, calls) →
    DenseStereoPipeline.call_level <$> calls
      = reverse (py_range (DenseStereoPipeline.pyrlevels self))
    ∧ ∃ c, last calls = Some c
           ∧ DenseStereoPipeline.call_level c = 0%nat
           ∧ DenseStereoPipeline.call_result c !! "T_1_0"%string = Some T.

(** The reading of [Options] as an immutable value: the constructor of the
    pipeline makes no assignment to the options object it has constructed,
    so the pipeline holds [Options()] as constructed. *)
Definition options_never_assigned (camera : Camera F) (first_pose : G)
    (first_pose_covar : list (list F)) : Prop :=
  DenseStereoPipeline.init_assignments (F:=F) = []
  ∧ DenseStereoPipeline.problem_options
      (DenseStereoPipeline.init camera first_pose first_pose_covar)
    = Options_new.
End Trace.

(** ** Further laws of the collaborators

    Laws that some of the properties below assume of the scalars, of the
    group of poses, of the camera and of the sampler. The integer model
    satisfies all of them. *)

(** The scalars form a commutative ring. *)
Class ScalarRing (F : Type) `{Scalar F} := {
  Fring : ring_theory Fzero Fone Fadd Fmul Fsub Fopp (@eq F)
}.

#[global] Instance Z_ScalarRing : ScalarRing Z := {| Fring := InitialRing.Zth |}.

(** Composition of poses is associative with a right identity, and the
    identity pose leaves every point where it is. *)
Class LieGroupAction (F G : Type) `{LieGroup F G} := {
  dot_assoc : ∀ T1 T2 T3 : G, dot T1 (dot T2 T3) = dot (dot T1 T2) T3;
  dot_identity_r : ∀ T : G, dot T identity = T;
  act_identity : ∀ p : point F, act (identity : G) p = p
}.

#[global] Instance Toy_group_action : LieGroupAction Z Z.
Proof.
  split; simpl; intros; try lia. destruct p as [[px py] pz]. f_equal. f_equal. lia.
Qed.

(** Projecting a triangulated measurement gives the measurement back. *)
Class CameraRoundTrip (F : Type) `{CameraModel F} := {
  project_triangulate :
    ∀ (c : Camera F) (m : pixel F), project c (triangulate c m) = m
}.

#[global] Instance Toy_round_trip : CameraRoundTrip Z.
Proof. split. reflexivity. Qed.

(** At the centre of a pixel the sampler returns the value of the grid. *)
Class SamplerOnGrid (F : Type) `{Scalar F} `{BilinearSampler F} := {
  sample_at_pixel :
    ∀ (im : list (list F)) (i j : nat) (x : F),
      at_pixel im i j = Some x →
      bilinear_interpolate1 im (Fof_Z (Z.of_nat j)) (Fof_Z (Z.of_nat i)) = x
}.

#[global] Instance Toy_sampler_on_grid : SamplerOnGrid Z.
Proof.
  split. intros im i j x Hx. simpl. rewrite !Nat2Z.id.
  unfold at_pixel in Hx. now rewrite Hx.
Qed.

(** The reference pixel (row, column) has a disparity and passes both
    validity filters. *)
Definition pixel_passes {F G : Type} `{Scalar F} `{LieGroup F G}
    `{CameraModel F} (self : PhotometricCost.t F) (T : G) (ij : nat * nat)
    : bool :=
  match at_pixel (PhotometricCost.disp_ref self) ij.1 ij.2 with
  | Some d =>
      passes_filters (PhotometricCost.camera self) T
        (Fof_Z (Z.of_nat ij.2), Fof_Z (Z.of_nat ij.1), d)
  | None => false
  end.

(** The solver call [c] works on the data of its own pyramid level: the
    residual of its problem holds the reference image, disparity and gradient
    and the tracking image of level [call_level c], and a camera whose
    intrinsics are those of the pipeline's camera scaled by [1 / 2^level] and
    whose width and height are those of the reference image of that level. *)
Definition uses_level_data {F G : Type} `{Scalar F}
    (self : DenseStereoPipeline.t F G)
    (ref_frame track_frame : DenseKeyframe.t F G)
    (c : DenseStereoPipeline.SolveCall F G) : Prop :=
  let level := DenseStereoPipeline.call_level c in
  let pyrfactor := Fdiv Fone (Fof_Z (2 ^ Z.of_nat level)) in
  ∃ residual,
    Problem.residual_blocks (DenseStereoPipeline.call_problem c)
      = [(residual, ["T_1_0"%string])]
    ∧ DenseKeyframe.image ref_frame !! level = Some (res_im_ref residual)
    ∧ (∃ d, DenseKeyframe.disparity ref_frame = Some d
            ∧ d !! level = Some (res_disp_ref residual))
    ∧ (∃ j, DenseKeyframe.jacobian ref_frame = Some j
            ∧ j !! level = Some (res_jac_ref residual))
    ∧ DenseKeyframe.image track_frame !! level = Some (res_im_track residual)
    ∧ res_camera residual
      = mkCamera (Fmul (fu (DenseStereoPipeline.camera self)) pyrfactor)
                 (Fmul (fv (DenseStereoPipeline.camera self)) pyrfactor)
                 (Fmul (cu (DenseStereoPipeline.camera self)) pyrfactor)
                 (Fmul (cv (DenseStereoPipeline.camera self)) pyrfactor)
                 (Np.ncols (res_im_ref residual))
                 (length (res_im_ref residual)).

(** A pipeline that can take a frame: it has at least one pyramid level and
    every keyframe it holds carries image, disparity and gradient for each of
    the pipeline's levels. *)
Definition ready {F G : Type} (self : DenseStereoPipeline.t F G) : Prop :=
  1 <= DenseStereoPipeline.pyrlevels self
  ∧ Forall (λ kf, has_levels kf (Z.to_nat (DenseStereoPipeline.pyrlevels self)))
           (DenseStereoPipeline.keyframes self).

(** A solver that refuses every problem with the exception [e], and a
    keyframe built without disparity maps; they run the error paths of the
    tracker on concrete inputs. *)
Definition refusing_solver (e : PyExc) : Solver Z Z := {|
  Options_new := mkOptions 100 0 false 0 0;
  solve := λ _, Raise e
|}.

Definition keyframe_without_disparity : DenseKeyframe.t Z Z :=
Eval vm_compute in
  match DenseKeyframe.init Toy.image8 Toy.image8 4 0 [] false true with
  | Ok kf => kf
  | Raise _ => DenseKeyframe.mk 0 0 [] [] None None
  end.

(** * Properties *)

(** ** The result monad and loops *)

Lemma for_each_app {S A} (body : S → A → result S) (xs ys : list A) (s : S) :
  for_each body (xs ++ ys) s = for_each body xs s ≫= for_each body ys.
Proof.
  revert s. induction xs as [|x xs IH]; intros s; simpl; [reflexivity|].
  destruct (body s x) as [s'|e]; simpl; [apply IH | reflexivity].
Qed.

Lemma py_last_snoc {A} (xs : list A) (x : A) : py_last (xs ++ [x]) = Ok x.
Proof. unfold py_last. now rewrite last_snoc. Qed.

Lemma py_last_Ok {A} (xs : list A) (x : A) :
  last xs = Some x → py_last xs = Ok x.
Proof. unfold py_last. now intros ->. Qed.

(** ** DenseKeyframe *)

Section KeyframeFacts.
Context {F G : Type} `{Scalar F} `{LieGroup F G} `{OpenCV}.

(** After [n + 1] rounds both pyramids are bound and hold [n + 1] images. *)
Lemma pyramid_loop (im_left im_right : list (list Z)) (n : nat) :
  ∃ pyr_left pyr_right,
    for_each (DenseKeyframe.pyr_step im_left im_right) (seq 0 (S n))
             (None, None)
      = Ok (Some pyr_left, Some pyr_right)
    ∧ length pyr_left = S n ∧ length pyr_right = S n.
Proof.
  induction n as [|n (l & r & Hrun & Hl & Hr)].
  - exists [im_left], [im_right]. now simpl.
  - rewrite seq_S, for_each_app, Hrun. simpl.
    unfold DenseKeyframe.pyr_step. simpl.
    destruct l as [|a l] using rev_ind; [discriminate|].
    destruct r as [|b r] using rev_ind; [discriminate|].
    rewrite !py_last_snoc. simpl.
    eexists _, _. split; [reflexivity|].
    rewrite !length_app in *. simpl in *. lia.
Qed.

Lemma init_nonpositive im_left im_right pyrlevels (T : G) covar cd cj :
  pyrlevels <= 0 →
  DenseKeyframe.init (F:=F) im_left im_right pyrlevels T covar cd cj
    = Raise UnboundLocalError.
Proof.
  intros Hp. unfold DenseKeyframe.init, py_range.
  replace (Z.to_nat pyrlevels) with 0%nat by lia. reflexivity.
Qed.

Lemma init_positive im_left im_right pyrlevels (T : G) covar cd cj :
  1 <= pyrlevels →
  ∃ kf, DenseKeyframe.init (F:=F) im_left im_right pyrlevels T covar cd cj
          = Ok kf
        ∧ Z.of_nat (length (DenseKeyframe.image kf)) = pyrlevels
        ∧ DenseKeyframe.pyrlevels kf = pyrlevels
        ∧ DenseKeyframe.T_c_w kf = T
        ∧ (cd = true → ∃ d, DenseKeyframe.disparity kf = Some d
                           ∧ Z.of_nat (length d) = pyrlevels)
        ∧ (cj = true → ∃ j, DenseKeyframe.jacobian kf = Some j
                           ∧ Z.of_nat (length j) = pyrlevels).
Proof.
  intros Hp. unfold DenseKeyframe.init, py_range.
  destruct (Z.to_nat pyrlevels) as [|n] eqn:Hn; [lia|].
  destruct (pyramid_loop im_left im_right n) as (l & r & -> & Hl & Hr).
  assert (Hlevels : length (seq 0 (S n)) = S n) by apply length_seq.
  revert Hlevels. generalize (seq 0 (S n)). intros levels Hlevels.
  simpl. destruct cd; simpl.
  - eexists. split; [reflexivity|]. simpl.
    rewrite length_fmap. repeat split; try lia.
    + intros _. eexists. split; [reflexivity|].
      rewrite length_fmap, !length_zip. lia.
    + intros ->. eexists. split; [reflexivity|]. rewrite length_fmap. lia.
  - eexists. split; [reflexivity|]. simpl.
    rewrite length_fmap. repeat split; try lia.
    + intros ->. eexists. split; [reflexivity|]. rewrite length_fmap. lia.
Qed.
End KeyframeFacts.

(** C9. Constructing a DenseKeyframe with the default [pyrlevels = 0] raises
    (the pyramid lists are read before they were ever assigned); the
    constructor succeeds exactly when [pyrlevels >= 1], and it then yields a
    keyframe holding [pyrlevels] pyramid images. *)
Theorem DenseKeyframe_init_needs_a_level
    {F G : Type} `{Scalar F} `{LieGroup F G} `{OpenCV}
    (im_left im_right : list (list Z)) :
  DenseKeyframe.init_default (F:=F) (G:=G) im_left im_right
    = Raise UnboundLocalError
  ∧ ∀ pyrlevels (T : G) covar cd cj,
      (is_Ok (DenseKeyframe.init (F:=F) im_left im_right pyrlevels T covar cd cj)
         ↔ 1 <= pyrlevels)
      ∧ (∀ kf, DenseKeyframe.init (F:=F) im_left im_right pyrlevels T covar cd cj
                 = Ok kf →
               Z.of_nat (length (DenseKeyframe.image kf)) = pyrlevels).
Proof.
  split; [now apply init_nonpositive|].
  intros pyrlevels T covar cd cj.
  destruct (Z_lt_le_dec pyrlevels 1) as [Hlt|Hge].
  - rewrite (init_nonpositive im_left im_right pyrlevels T covar cd cj) by lia.
    split; [split|]; [intros [kf Hkf]; discriminate | lia | discriminate].
  - destruct (init_positive (F:=F) im_left im_right pyrlevels T covar cd cj Hge)
      as (kf & Hkf & Hlen & _).
    rewrite Hkf. split; [split|]; [lia | intros _; now exists kf |].
    now intros kf' [= <-].
Qed.

Lemma DenseKeyframe_init_needs_a_level_witness :
  DenseKeyframe.init (F:=Z) (G:=Z) Toy.image8 Toy.image8 0 0 [] false false
    = Raise UnboundLocalError
  ∧ is_Ok (DenseKeyframe.init (F:=Z) (G:=Z) Toy.image8 Toy.image8 3 0 []
                              false false).
Proof.
  destruct (DenseKeyframe_init_needs_a_level (F:=Z) (G:=Z) Toy.image8 Toy.image8)
    as [_ Hall].
  split; [reflexivity|].
  apply (Hall 3 0 [] false false). lia.
Defined.

(** ** The tracker *)

Lemma py_drop_last_snoc {A} (xs : list A) (x : A) :
  py_drop_last (xs ++ [x]) = xs.
Proof.
  unfold py_drop_last. rewrite length_app. simpl.
  replace (length xs + 1 - 1)%nat with (length xs) by lia.
  now rewrite take_app_length.
Qed.

(** The levels the loop of the tracker runs over: from the coarsest level
    down to level 1. *)
Lemma tracked_levels (pyrlevels : Z) :
  py_drop_last (reverse (py_range pyrlevels))
    = reverse (seq 1 (Z.to_nat pyrlevels - 1)).
Proof.
  unfold py_range. destruct (Z.to_nat pyrlevels) as [|n]; [reflexivity|].
  simpl. rewrite reverse_cons, py_drop_last_snoc.
  now replace (n - 0)%nat with n by lia.
Qed.

Arguments DenseStereoPipeline.level_step : simpl never.

Section TrackerFacts.
Context {F G : Type} `{Scalar F} `{LieGroup F G} `{OpenCV} `{Solver F G}.

Local Abbreviation SolveCall := (DenseStereoPipeline.SolveCall F G).

Lemma level_step_inv (self : DenseStereoPipeline.t F G) ref_frame track_frame
    params (calls : list SolveCall) pyrlevel params' calls' :
  DenseStereoPipeline.level_step self ref_frame track_frame (params, calls)
                                 pyrlevel = Ok (params', calls') →
  ∃ c, calls' = calls ++ [c]
       ∧ DenseStereoPipeline.call_level c = pyrlevel
       ∧ DenseStereoPipeline.call_result c = params'
       ∧ fresh_level_problem self params c.
Proof.
  unfold DenseStereoPipeline.level_step.
  destruct (py_getitem (DenseKeyframe.image ref_frame) pyrlevel)
    as [im_ref|]; simpl; [|discriminate].
  destruct (getattr (DenseKeyframe.disparity ref_frame)) as [d|];
    simpl; [|discriminate].
  destruct (py_getitem d pyrlevel) as [disp_ref|]; simpl; [|discriminate].
  destruct (getattr (DenseKeyframe.jacobian ref_frame)) as [j|];
    simpl; [|discriminate].
  destruct (py_getitem j pyrlevel) as [jac_ref|]; simpl; [|discriminate].
  destruct (py_getitem (DenseKeyframe.image track_frame) pyrlevel)
    as [im_track|]; simpl; [|discriminate].
  match goal with |- context [solve ?pb] => destruct (solve pb) as [m|] eqn:Hs end;
    simpl; [|discriminate].
  intros [= <- <-]. eexists. split; [reflexivity|]. simpl.
  repeat split; try reflexivity; [|exact Hs].
  eexists. split; [reflexivity|]. now simpl.
Qed.

Lemma level_loop_inv (self : DenseStereoPipeline.t F G) ref_frame track_frame
    levels params (calls : list SolveCall) params' calls' :
  for_each (DenseStereoPipeline.level_step self ref_frame track_frame)
           levels (params, calls) = Ok (params', calls') →
  ∃ new, calls' = calls ++ new
         ∧ DenseStereoPipeline.call_level <$> new = levels
         ∧ warm_started self params new params'.
Proof.
  revert params calls. induction levels as [|lvl levels IH]; intros params calls.
  - simpl. intros [= <- <-]. exists []. rewrite app_nil_r.
    repeat split. constructor.
  - simpl.
    destruct (DenseStereoPipeline.level_step self ref_frame track_frame
                (params, calls) lvl) as [[params1 calls1]|] eqn:Hstep;
      simpl; [|discriminate].
    intros Hrest.
    destruct (level_step_inv _ _ _ _ _ _ _ _ Hstep)
      as (c & -> & Hlvl & Hres & Hfresh).
    destruct (IH _ _ Hrest) as (new & -> & Hlvls & Hwarm).
    exists (c :: new). rewrite <- app_assoc. simpl.
    split; [reflexivity|]. split; [f_equal; [exact Hlvl | exact Hlvls]|].
    econstructor; [exact Hfresh | now rewrite Hres].
Qed.

Lemma compute_inv (self : DenseStereoPipeline.t F G) ref_frame track_frame T
    (calls : list SolveCall) :
  DenseStereoPipeline.compute_frame_to_frame_motion self ref_frame track_frame
    = Ok (T, calls) →
  ∃ final,
    DenseStereoPipeline.call_level <$> calls
      = reverse (seq 1 (Z.to_nat (DenseStereoPipeline.pyrlevels self) - 1))
    ∧ warm_started self {[ "T_1_0"%string := identity ]} calls final
    ∧ final !! "T_1_0"%string = Some T.
Proof.
  unfold DenseStereoPipeline.compute_frame_to_frame_motion.
  rewrite tracked_levels.
  destruct (for_each _ _ _) as [[params calls']|] eqn:Hloop; simpl; [|discriminate].
  unfold dict_getitem.
  destruct (params !! "T_1_0"%string) as [T'|] eqn:Hget; simpl; [|discriminate].
  intros [= <- <-].
  destruct (level_loop_inv _ _ _ _ _ _ _ _ Hloop) as (new & -> & Hlvls & Hwarm).
  exists params. simpl. now repeat split.
Qed.

Lemma warm_started_last (self : DenseStereoPipeline.t F G) params
    (calls : list SolveCall) final :
  warm_started self params calls final →
  final = from_option DenseStereoPipeline.call_result params (last calls).
Proof.
  induction 1 as [|params c calls final Hfresh Hwarm IH]; [reflexivity|].
  rewrite IH. destruct calls as [|c' calls]; [reflexivity|].
  rewrite last_cons_cons. destruct (last (c' :: calls)) eqn:E; [reflexivity|].
  apply last_None in E. discriminate.
Qed.

Lemma warm_started_lookup (self : DenseStereoPipeline.t F G) params
    (calls : list SolveCall) final :
  warm_started self params calls final →
  ∀ i c, calls !! i = Some c →
    fresh_level_problem self
      (match i with
       | O => params
       | S j => from_option DenseStereoPipeline.call_result params (calls !! j)
       end) c.
Proof.
  induction 1 as [|params c0 calls final Hfresh Hwarm IH]; intros i c Hi.
  - now rewrite lookup_nil in Hi.
  - destruct i as [|i]; simpl in Hi.
    + now injection Hi as <-.
    + specialize (IH i c Hi). destruct i as [|i]; simpl; [exact IH|].
      simpl in IH.
      destruct (calls !! i) eqn:Hprev; [exact IH|].
      apply lookup_ge_None in Hprev. apply lookup_lt_Some in Hi. lia.
Qed.

Lemma warm_started_all (self : DenseStereoPipeline.t F G) params
    (calls : list SolveCall) final :
  warm_started self params calls final →
  ∀ c, c ∈ calls → ∃ p, fresh_level_problem self p c.
Proof.
  induction 1 as [|params c0 calls final Hfresh Hwarm IH]; intros c Hc.
  - now apply elem_of_nil in Hc.
  - apply elem_of_cons in Hc as [->|Hc]; [now exists params | now apply IH].
Qed.

(** One level goes through when the frames carry it and the solver
    answers. *)
Lemma level_step_total (self : DenseStereoPipeline.t F G) ref_frame track_frame
    (n lvl : nat) params (calls : list SolveCall) :
  solver_returns_pose →
  has_levels ref_frame n →
  (n ≤ length (DenseKeyframe.image track_frame))%nat →
  (lvl < n)%nat →
  is_Some (params !! "T_1_0"%string) →
  ∃ params' calls',
    DenseStereoPipeline.level_step self ref_frame track_frame (params, calls) lvl
      = Ok (params', calls')
    ∧ is_Some (params' !! "T_1_0"%string).
Proof.
  intros Hsolver (Him & (d & Hd & Hdn) & (j & Hj & Hjn)) Htrack Hlvl Hkey.
  unfold DenseStereoPipeline.level_step, py_getitem. rewrite Hd, Hj. simpl.
  destruct (lookup_lt_is_Some_2 (DenseKeyframe.image ref_frame) lvl)
    as [im_ref ->]; [lia|].
  destruct (lookup_lt_is_Some_2 d lvl) as [disp_ref ->]; [lia|].
  destruct (lookup_lt_is_Some_2 j lvl) as [jac_ref ->]; [lia|].
  destruct (lookup_lt_is_Some_2 (DenseKeyframe.image track_frame) lvl)
    as [im_track ->]; [lia|].
  simpl.
  match goal with |- context [solve ?pb] =>
    destruct (Hsolver pb) as (m & -> & Hm) end.
  { simpl. now rewrite (right_id_L ∅ (∪)). }
  simpl. eauto.
Qed.

(** The loop runs to its end when the frames carry every level it visits and
    the solver answers. *)
Lemma level_loop_total (self : DenseStereoPipeline.t F G) ref_frame track_frame
    (n : nat) levels params (calls : list SolveCall) :
  solver_returns_pose →
  has_levels ref_frame n →
  (n ≤ length (DenseKeyframe.image track_frame))%nat →
  Forall (λ lvl, lvl < n)%nat levels →
  is_Some (params !! "T_1_0"%string) →
  ∃ params' calls',
    for_each (DenseStereoPipeline.level_step self ref_frame track_frame)
             levels (params, calls) = Ok (params', calls')
    ∧ is_Some (params' !! "T_1_0"%string).
Proof.
  intros Hsolver Href Htrack Hlevels.
  revert params calls.
  induction Hlevels as [|lvl levels Hlvl Hlevels IH]; intros params calls Hkey.
  - now exists params, calls.
  - simpl.
    destruct (level_step_total self ref_frame track_frame n lvl params calls)
      as (params1 & calls1 & -> & Hkey1); try assumption.
    simpl. now apply IH.
Qed.

(** The tracker returns when both frames carry the levels of the pipeline
    and the solver answers. *)
Lemma compute_total (self : DenseStereoPipeline.t F G) ref_frame track_frame :
  solver_returns_pose →
  has_levels ref_frame (Z.to_nat (DenseStereoPipeline.pyrlevels self)) →
  (Z.to_nat (DenseStereoPipeline.pyrlevels self)
     ≤ length (DenseKeyframe.image track_frame))%nat →
  is_Ok (DenseStereoPipeline.compute_frame_to_frame_motion
           self ref_frame track_frame).
Proof.
  intros Hsolver Href Htrack.
  unfold DenseStereoPipeline.compute_frame_to_frame_motion.
  rewrite tracked_levels.
  destruct (level_loop_total self ref_frame track_frame
              (Z.to_nat (DenseStereoPipeline.pyrlevels self))
              (reverse (seq 1 (Z.to_nat (DenseStereoPipeline.pyrlevels self) - 1)))
              {[ "T_1_0"%string := identity ]} [])
    as (params & calls & -> & [T HT]); try assumption.
  - apply Forall_forall. intros lvl Hin.
    apply elem_of_reverse, elem_of_seq in Hin. lia.
  - rewrite lookup_singleton_eq. eauto.
  - simpl. unfold dict_getitem. rewrite HT. simpl. now eexists.
Qed.
End TrackerFacts.

Section TrackFacts.
Context {F G : Type} `{Scalar F} `{LieGroup F G} `{OpenCV} `{Solver F G}.

(** [track] on a pipeline that already holds a keyframe. *)
Lemma track_next_frame (self : DenseStereoPipeline.t F G) im_left im_right
    prev self' calls :
  last (DenseStereoPipeline.keyframes self) = Some prev →
  DenseStereoPipeline.track self im_left im_right = Ok (self', calls)
  ↔ ∃ trackframe T_1_0,
      DenseKeyframe.init im_left im_right (DenseStereoPipeline.pyrlevels self)
                         identity (Np.identity 6) true true = Ok trackframe
      ∧ DenseStereoPipeline.compute_frame_to_frame_motion self prev trackframe
          = Ok (T_1_0, calls)
      ∧ self' = DenseStereoPipeline.mk
                  (DenseStereoPipeline.camera self)
                  (DenseStereoPipeline.first_pose self)
                  (DenseStereoPipeline.first_pose_covar self)
                  (DenseStereoPipeline.keyframes self
                     ++ [DenseKeyframe.set_T_c_w
                           (dot T_1_0 (DenseKeyframe.T_c_w prev)) trackframe])
                  (DenseStereoPipeline.problem_options self)
                  (DenseStereoPipeline.pyrlevels self).
Proof.
  intros Hlast. unfold DenseStereoPipeline.track.
  destruct (decide (length (DenseStereoPipeline.keyframes self) = 0%nat))
    as [Hempty|_].
  { apply nil_length_inv in Hempty. now rewrite Hempty in Hlast. }
  rewrite (py_last_Ok _ _ Hlast).
  destruct (DenseKeyframe.init _ _ _ _ _ _ _) as [kf|e]; simpl.
  - destruct (DenseStereoPipeline.compute_frame_to_frame_motion self prev kf)
      as [[T calls0]|e] eqn:Hmotion; simpl.
    + split.
      * intros [= <- <-]. now exists kf, T.
      * intros (kf' & T' & [= <-] & Hm & ->).
        rewrite Hmotion in Hm. now injection Hm as <- <-.
    + split; [discriminate|]. intros (kf' & T' & [= <-] & Hm & _).
      now rewrite Hmotion in Hm.
  - split; [discriminate|]. now intros (kf' & T' & [=] & _).
Qed.

(** [track] on a pipeline without keyframes makes no call to the solver. *)
Lemma track_first_frame (self : DenseStereoPipeline.t F G) im_left im_right
    self' calls :
  DenseStereoPipeline.keyframes self = [] →
  DenseStereoPipeline.track self im_left im_right = Ok (self', calls) →
  calls = []
  ∧ DenseStereoPipeline.problem_options self'
    = DenseStereoPipeline.problem_options self.
Proof.
  intros Hempty. unfold DenseStereoPipeline.track. rewrite Hempty. simpl.
  destruct (DenseKeyframe.init _ _ _ _ _ _ _) as [kf|e]; simpl; [|discriminate].
  now intros [= <- <-].
Qed.
End TrackFacts.

(** C7. When the pipeline already holds a keyframe and [track] succeeds on a
    new frame, the keyframe list grows by exactly the new keyframe, whose
    world pose [T_c_w] is the estimated frame-to-frame motion [T_1_0]
    composed on the left with the world pose of the previous keyframe. *)
Theorem track_composes_with_previous_pose
    {F G : Type} `{Scalar F} `{LieGroup F G} `{OpenCV} `{Solver F G}
    (self : DenseStereoPipeline.t F G) (im_left im_right : list (list Z))
    (prev : DenseKeyframe.t F G) self' calls :
  last (DenseStereoPipeline.keyframes self) = Some prev →
  DenseStereoPipeline.track self im_left im_right = Ok (self', calls) →
  ∃ trackframe T_1_0 new,
    DenseStereoPipeline.compute_frame_to_frame_motion self prev trackframe
      = Ok (T_1_0, calls)
    ∧ DenseStereoPipeline.keyframes self'
      = DenseStereoPipeline.keyframes self ++ [new]
    ∧ last (DenseStereoPipeline.keyframes self') = Some new
    ∧ DenseKeyframe.T_c_w new = dot T_1_0 (DenseKeyframe.T_c_w prev)
    ∧ DenseKeyframe.image new = DenseKeyframe.image trackframe.
Proof.
  intros Hlast Htrack.
  apply (track_next_frame self im_left im_right prev self' calls Hlast)
    in Htrack as (trackframe & T_1_0 & Hinit & Hmotion & ->).
  exists trackframe, T_1_0,
    (DenseKeyframe.set_T_c_w (dot T_1_0 (DenseKeyframe.T_c_w prev)) trackframe).
  simpl. rewrite last_snoc. now repeat split.
Qed.

Lemma track_composes_with_previous_pose_witness :
  ∃ self' calls new,
    DenseStereoPipeline.track Toy.pipeline1 Toy.image8 Toy.image8
      = Ok (self', calls)
    ∧ last (DenseStereoPipeline.keyframes self') = Some new
    ∧ DenseKeyframe.T_c_w new = 3.
Proof.
  destruct (DenseStereoPipeline.track Toy.pipeline1 Toy.image8 Toy.image8)
    as [[self' calls]|e] eqn:Htrack; [|vm_compute in Htrack; discriminate].
  destruct (track_composes_with_previous_pose
              Toy.pipeline1 Toy.image8 Toy.image8 Toy.keyframe self' calls
              eq_refl Htrack)
    as (trackframe & T_1_0 & new & Hmotion & Hkfs & Hlast & HT & Him).
  exists self', calls, new. split; [reflexivity|]. split; [exact Hlast|].
  vm_compute in Htrack. injection Htrack as <- <-.
  vm_compute in Hlast. injection Hlast as <-. reflexivity.
Defined.

(** C1 (as stated) fails: on the pipeline as constructed (four levels) the
    tracker solves levels 3, 2 and 1 only, so it is not the case that every
    level down to level 0 gets a solve. *)
Lemma tracker_skips_finest_level :
  ¬ solves_every_level Toy.pipeline Toy.keyframe Toy.keyframe.
Proof.
  intros Hall.
  destruct (Hall (fst Toy.tracked) (snd Toy.tracked)) as [Hlevels _].
  - vm_compute. reflexivity.
  - vm_compute in Hlevels. discriminate.
Qed.

(** C1 (amended). Whenever [_compute_frame_to_frame_motion] returns, it has
    run exactly one solve per pyramid level from the coarsest level
    [pyrlevels - 1] down to level 1, in that order, and none at level 0; the
    pose it returns is the 'T_1_0' of the last of these solves (level 1), or
    the identity when [pyrlevels <= 1] leaves no level to solve. It does
    return when both frames carry [pyrlevels] levels and the solver
    answers. *)
Theorem tracker_solves_levels_above_finest
    {F G : Type} `{Scalar F} `{LieGroup F G} `{OpenCV} `{Solver F G}
    (self : DenseStereoPipeline.t F G)
    (ref_frame track_frame : DenseKeyframe.t F G) :
  (∀ T calls,
     DenseStereoPipeline.compute_frame_to_frame_motion self ref_frame track_frame
       = Ok (T, calls) →
     DenseStereoPipeline.call_level <$> calls
       = reverse (seq 1 (Z.to_nat (DenseStereoPipeline.pyrlevels self) - 1))
     ∧ (0%nat ∉ (DenseStereoPipeline.call_level <$> calls))
     ∧ (∀ c, c ∈ calls →
          solve (DenseStereoPipeline.call_problem c)
            = Ok (DenseStereoPipeline.call_result c))
     ∧ match last calls with
       | Some c => DenseStereoPipeline.call_level c = 1%nat
                   ∧ DenseStereoPipeline.call_result c !! "T_1_0"%string = Some T
       | None => DenseStereoPipeline.pyrlevels self <= 1 ∧ T = identity
       end)
  ∧ (solver_returns_pose →
     has_levels ref_frame (Z.to_nat (DenseStereoPipeline.pyrlevels self)) →
     (Z.to_nat (DenseStereoPipeline.pyrlevels self)
        ≤ length (DenseKeyframe.image track_frame))%nat →
     is_Ok (DenseStereoPipeline.compute_frame_to_frame_motion
              self ref_frame track_frame)).
Proof.
  split; [|apply compute_total].
  intros T calls Hrun.
  destruct (compute_inv self ref_frame track_frame T calls Hrun)
    as (final & Hlevels & Hwarm & Hfinal).
  split; [exact Hlevels|]. split; [|split].
  - rewrite Hlevels. intros Hin.
    apply elem_of_reverse, elem_of_seq in Hin. lia.
  - intros c Hc.
    destruct (warm_started_all self _ calls final Hwarm c Hc) as (p & _ & Hs).
    exact Hs.
  - pose proof (warm_started_last self _ calls final Hwarm) as Hlast.
    pose proof (f_equal last Hlevels) as Hl.
    rewrite fmap_last, last_reverse in Hl.
    destruct (last calls) as [c|]; simpl in *.
    + destruct (Z.to_nat (DenseStereoPipeline.pyrlevels self) - 1)%nat;
        simpl in Hl; [discriminate|].
      injection Hl as Hl. split; [exact Hl|]. now rewrite <- Hlast.
    + destruct (Z.to_nat (DenseStereoPipeline.pyrlevels self) - 1)%nat eqn:Hn;
        simpl in Hl; [|discriminate].
      split; [lia|]. subst final.
      rewrite lookup_singleton_eq in Hfinal. now injection Hfinal.
Qed.

Lemma tracker_solves_levels_above_finest_witness :
  is_Ok (DenseStereoPipeline.compute_frame_to_frame_motion
           Toy.pipeline Toy.keyframe Toy.keyframe)
  ∧ DenseStereoPipeline.call_level <$> snd Toy.tracked = [3; 2; 1]%nat.
Proof.
  destruct (tracker_solves_levels_above_finest
              Toy.pipeline Toy.keyframe Toy.keyframe) as [Hinv Htotal].
  split.
  - apply Htotal.
    + intros pb [T HT]. eexists. split; [reflexivity|].
      rewrite lookup_fmap, HT. now eexists.
    + unfold has_levels. simpl. split; [lia|]. split; eexists; (split; [reflexivity|simpl; lia]).
    + simpl. lia.
  - apply (Hinv (fst Toy.tracked) (snd Toy.tracked)). vm_compute. reflexivity.
Defined.

(** C8. For every level the tracker processes, the problem it hands to the
    solver is a freshly constructed [Problem] over the pipeline's options
    holding exactly one residual block, the photometric residual over the
    single parameter 'T_1_0', and initialised with the solution of the level
    before it (the next coarser one), or with the group identity at the
    coarsest level. *)
Theorem tracker_fresh_problem_per_level
    {F G : Type} `{Scalar F} `{LieGroup F G} `{OpenCV} `{Solver F G}
    (self : DenseStereoPipeline.t F G)
    (ref_frame track_frame : DenseKeyframe.t F G) T calls :
  DenseStereoPipeline.compute_frame_to_frame_motion self ref_frame track_frame
    = Ok (T, calls) →
  ∀ i c, calls !! i = Some c →
    DenseStereoPipeline.call_level c
      = (Z.to_nat (DenseStereoPipeline.pyrlevels self) - 1 - i)%nat
    ∧ (∃ residual,
         DenseStereoPipeline.call_problem c
           = Problem.initialize_params
               (Problem.param_dict (DenseStereoPipeline.call_problem c))
               (Problem.add_residual_block residual ["T_1_0"%string]
                  (Problem.new (DenseStereoPipeline.problem_options self)))
         ∧ Problem.residual_blocks (DenseStereoPipeline.call_problem c)
           = [(residual, ["T_1_0"%string])]
         ∧ res_stiffness residual = Fone ∧ res_loss residual = L2Loss)
    ∧ match i with
      | O => Problem.param_dict (DenseStereoPipeline.call_problem c)
             = {[ "T_1_0"%string := identity ]}
      | S j => ∃ prev,
          calls !! j = Some prev
          ∧ DenseStereoPipeline.call_level prev
            = S (DenseStereoPipeline.call_level c)
          ∧ solve (DenseStereoPipeline.call_problem prev)
            = Ok (DenseStereoPipeline.call_result prev)
          ∧ Problem.param_dict (DenseStereoPipeline.call_problem c)
            = DenseStereoPipeline.call_result prev
      end.
Proof.
  intros Hrun i c Hi.
  destruct (compute_inv self ref_frame track_frame T calls Hrun)
    as (final & Hlevels & Hwarm & Hfinal).
  set (m := (Z.to_nat (DenseStereoPipeline.pyrlevels self) - 1)%nat) in *.
  assert (Hlen : length calls = m).
  { rewrite <- (length_fmap DenseStereoPipeline.call_level), Hlevels,
      length_reverse. apply length_seq. }
  assert (Hlevel : ∀ k d, calls !! k = Some d →
                     DenseStereoPipeline.call_level d = (m - k)%nat).
  { intros k d Hk. pose proof (lookup_lt_Some _ _ _ Hk) as Hlt.
    pose proof (f_equal (λ l, l !! k) Hlevels) as Hlk. simpl in Hlk.
    rewrite list_lookup_fmap, Hk in Hlk. simpl in Hlk.
    rewrite reverse_lookup in Hlk by (rewrite length_seq; lia).
    rewrite length_seq, lookup_seq_lt in Hlk by lia.
    injection Hlk as ->. lia. }
  pose proof (warm_started_lookup self _ calls final Hwarm i c Hi)
    as [(residual & Hpb & Hstiff & Hloss) Hsolved].
  split; [now apply Hlevel|]. split.
  - exists residual. rewrite Hpb. simpl.
    now rewrite !(right_id_L ∅ (∪)).
  - destruct i as [|j].
    + rewrite Hpb. simpl. now rewrite (right_id_L ∅ (∪)).
    + pose proof (lookup_lt_Some _ _ _ Hi) as Hlt.
      destruct (lookup_lt_is_Some_2 calls j) as [prev Hprev]; [lia|].
      rewrite Hprev in Hpb. simpl in Hpb.
      exists prev. split; [exact Hprev|].
      rewrite (Hlevel _ _ Hprev), (Hlevel _ _ Hi).
      split; [lia|]. split.
      * destruct (warm_started_all self _ calls final Hwarm prev) as (p & _ & Hs);
          [eapply list_elem_of_lookup_2; exact Hprev | exact Hs].
      * rewrite Hpb. simpl. now rewrite (right_id_L ∅ (∪)).
Qed.

Lemma tracker_fresh_problem_per_level_witness :
  ∃ c, snd Toy.tracked !! 1%nat = Some c
       ∧ DenseStereoPipeline.call_level c = 2%nat
       ∧ Problem.param_dict (DenseStereoPipeline.call_problem c)
         = {[ "T_1_0"%string := 1 ]}.
Proof.
  destruct (snd Toy.tracked !! 1%nat) as [c|] eqn:Hc; [|vm_compute in Hc; discriminate].
  assert (Hrun : DenseStereoPipeline.compute_frame_to_frame_motion
                   Toy.pipeline Toy.keyframe Toy.keyframe
                 = Ok (fst Toy.tracked, snd Toy.tracked))
    by (vm_compute; reflexivity).
  destruct (tracker_fresh_problem_per_level
              Toy.pipeline Toy.keyframe Toy.keyframe
              (fst Toy.tracked) (snd Toy.tracked) Hrun 1%nat c Hc)
    as (Hlevel & _ & prev & Hprev & _ & _ & Hdict).
  exists c. split; [reflexivity|]. split; [exact Hlevel|].
  rewrite Hdict. vm_compute in Hprev. injection Hprev as <-. reflexivity.
Defined.

(** C2 (as stated) fails: the constructor of the pipeline assigns to fields
    of the options object after constructing it, and the pipeline then holds
    a value that differs from [Options()] as constructed. *)
Lemma constructor_assigns_options :
  ¬ options_never_assigned (F:=Z) (G:=Z) Toy.camera 0 []
  ∧ DenseStereoPipeline.init_assignments (F:=Z) ≠ []
  ∧ DenseStereoPipeline.problem_options
      (DenseStereoPipeline.init (F:=Z) (G:=Z) Toy.camera 0 [])
    ≠ Options_new.
Proof.
  unfold options_never_assigned. repeat split.
  - intros [Hnone _]. discriminate Hnone.
  - discriminate.
  - discriminate.
Qed.

(** C2 (amended). The constructor of DenseStereoPipeline constructs the
    options object and then assigns three of its fields
    ([allow_nondecreasing_steps = True], [max_nondecreasing_steps = 3],
    [min_cost_decrease = 0.99]), leaving the others as constructed. After the
    constructor the pipeline no longer changes it: [track] leaves
    [problem_options] as it found it, and every problem the tracker builds is
    given exactly that value. *)
Theorem options_fixed_after_constructor
    {F G : Type} `{Scalar F} `{LieGroup F G} `{OpenCV} `{Solver F G} :
  (∀ (camera : Camera F) (first_pose : G) first_pose_covar,
     DenseStereoPipeline.problem_options
       (DenseStereoPipeline.init camera first_pose first_pose_covar)
     = mkOptions (max_iterations Options_new) (tolerance Options_new)
                 true 3 (Fdiv (Fof_Z 99) (Fof_Z 100)))
  ∧ (∀ (self : DenseStereoPipeline.t F G) im_left im_right self' calls,
       DenseStereoPipeline.track self im_left im_right = Ok (self', calls) →
       DenseStereoPipeline.problem_options self'
         = DenseStereoPipeline.problem_options self
       ∧ ∀ c, c ∈ calls →
           Problem.options (DenseStereoPipeline.call_problem c)
             = DenseStereoPipeline.problem_options self).
Proof.
  split; [reflexivity|].
  intros self im_left im_right self' calls Htrack.
  destruct (last (DenseStereoPipeline.keyframes self)) as [prev|] eqn:Hlast.
  - destruct (proj1 (track_next_frame self im_left im_right prev self' calls
                                     Hlast) Htrack)
      as (trackframe & T_1_0 & _ & Hmotion & Hself).
    split; [now rewrite Hself|]. intros c Hc.
    destruct (compute_inv self prev trackframe T_1_0 calls Hmotion)
      as (final & _ & Hwarm & _).
    destruct (warm_started_all self _ calls final Hwarm c Hc)
      as (p & (residual & Hpb & _) & _).
    now rewrite Hpb.
  - apply last_None in Hlast.
    destruct (track_first_frame self im_left im_right self' calls Hlast Htrack)
      as [-> Hopts].
    split; [exact Hopts|]. intros c Hc. now apply elem_of_nil in Hc.
Qed.

Lemma options_fixed_after_constructor_witness :
  ∃ self' calls,
    DenseStereoPipeline.track Toy.pipeline1 Toy.image8 Toy.image8
      = Ok (self', calls)
    ∧ DenseStereoPipeline.problem_options self'
      = mkOptions 100 0 true 3 0
    ∧ length calls = 3%nat.
Proof.
  destruct (DenseStereoPipeline.track Toy.pipeline1 Toy.image8 Toy.image8)
    as [[self' calls]|e] eqn:Htrack; [|vm_compute in Htrack; discriminate].
  destruct (options_fixed_after_constructor (F:=Z) (G:=Z)) as [Hinit Hkeep].
  destruct (Hkeep Toy.pipeline1 Toy.image8 Toy.image8 self' calls Htrack)
    as [Hsame _].
  exists self', calls. split; [reflexivity|]. split.
  - rewrite Hsame. reflexivity.
  - vm_compute in Htrack. injection Htrack as <- <-. reflexivity.
Defined.

(** ** Array arithmetic *)

Section ArrayFacts.
Context {F : Type} `{Scalar F}.

Lemma has_shape_rectangular (m : list (list F)) r c :
  Np.has_shape m r c → Np.rectangular m.
Proof.
  intros [Hr Hc]. unfold Np.rectangular, Np.has_shape. split; [reflexivity|].
  destruct m as [|row m]; [constructor|]. simpl.
  apply Forall_cons in Hc as [<- Hc]. now constructor.
Qed.

Lemma dot_mv_defined (m : list (list F)) (v : list F) r :
  Np.has_shape m r (length v) → is_Ok (Np.dot_mv m v).
Proof.
  intros [Hr Hc]. unfold Np.dot_mv.
  destruct (decide _) as [_|Hno]; [now eexists|].
  exfalso. apply Hno. now split.
Qed.

Lemma dot_mm_defined (a b : list (list F)) r n c :
  Np.has_shape a r n → Np.has_shape b n c → is_Ok (Np.dot_mm a b).
Proof.
  intros [Hr Hc] Hb. unfold Np.dot_mm.
  destruct (decide _) as [_|Hno]; [now eexists|].
  exfalso. apply Hno. split.
  - split; [reflexivity|]. destruct Hb as [-> _]. exact Hc.
  - eapply has_shape_rectangular, Hb.
Qed.

Lemma neg_mat_shape (m : list (list F)) r c :
  Np.has_shape m r c → Np.has_shape (Np.neg_mat m) r c.
Proof.
  intros [Hr Hc]. unfold Np.neg_mat. split; [now rewrite length_fmap|].
  apply Forall_fmap. eapply Forall_impl; [exact Hc|].
  intros row Hrow. simpl. now rewrite length_fmap.
Qed.

Lemma identity_shape (n : nat) : Np.has_shape (Np.identity (F:=F) n) n n.
Proof.
  unfold Np.identity. split; [now rewrite length_fmap, length_seq|].
  apply Forall_fmap, Forall_forall. intros i _. simpl.
  now rewrite length_fmap, length_seq.
Qed.

Lemma inner_zeros `{!ScalarLaws F} (row : list F) (n : nat) :
  Np.inner row (Np.zeros n) = Fzero.
Proof.
  unfold Np.inner, Np.zeros. revert n.
  induction row as [|x row IH]; intros [|n]; simpl; try reflexivity.
  now rewrite IH, Fmul_zero_r, Fadd_zero_l.
Qed.

Lemma dot_mv_zeros `{!ScalarLaws F} (m : list (list F)) r n :
  Np.has_shape m r n → Np.dot_mv m (Np.zeros n) = Ok (Np.zeros r).
Proof.
  intros [Hr Hc]. unfold Np.dot_mv.
  destruct (decide _) as [_|Hno].
  - f_equal. subst r. clear Hc. unfold Np.zeros at 2.
    induction m as [|row m IH]; simpl; [reflexivity|].
    f_equal; [apply inner_zeros | apply IH].
  - exfalso. apply Hno. unfold Np.zeros. rewrite length_replicate. now split.
Qed.
End ArrayFacts.

(** ** The flags protocol of [evaluate] *)

Lemma bind_Ok {A B} (m : result A) (f : A → result B) (b : B) :
  m ≫= f = Ok b → ∃ a, m = Ok a ∧ f a = Ok b.
Proof. destruct m as [a|e]; simpl; [eauto | discriminate]. Qed.

Lemma fmap_Ok {A B} (m : result A) (f : A → B) (b : B) :
  f <$> m = Ok b → ∃ a, m = Ok a ∧ b = f a.
Proof.
  destruct m as [a|e]; simpl; [|discriminate]. intros [= <-]. eauto.
Qed.

Lemma unrequested_start {J} (flags : list bool) (n : nat) :
  length flags = n → unrequested_are_None (J:=J) flags n (replicate n None).
Proof.
  intros Hlen. split; [apply length_replicate|].
  intros i Hi. apply lookup_replicate_2.
  apply lookup_lt_Some in Hi. lia.
Qed.

Lemma unrequested_step {J} (flags : list bool) (n i : nat) (value : result J)
    (jacobians jacobians' : list (option J)) :
  unrequested_are_None flags n jacobians →
  set_if_requested (Some flags) i value jacobians = Ok jacobians' →
  unrequested_are_None flags n jacobians'.
Proof.
  intros [Hlen Hnone]. unfold set_if_requested, flag, py_getitem.
  destruct (flags !! i) as [[|]|] eqn:Hflag; simpl; [|now intros [= <-]|discriminate].
  destruct value as [j|e]; simpl; [|discriminate].
  unfold py_setitem. destruct (decide _) as [Hlt|_]; [|discriminate].
  intros [= <-]. split; [now rewrite length_insert|].
  intros k Hk. rewrite list_lookup_insert_ne; [now apply Hnone|].
  intros ->. congruence.
Qed.

Lemma set_if_requested_false {J} (flags : list bool) (i : nat)
    (value : result J) (jacobians : list (option J)) :
  flags !! i = Some false →
  set_if_requested (Some flags) i value jacobians = Ok jacobians.
Proof.
  intros Hflag. unfold set_if_requested, flag, py_getitem. now rewrite Hflag.
Qed.

(** ** PoseToPoseCost *)

Section PoseToPoseFacts.
Context {F G : Type} `{Scalar F} `{LieGroup F G}.

(** [evaluate] on two poses, in terms of the three products it forms. *)
Lemma PoseToPoseCost_evaluate_two (self : PoseToPoseCost.t F G)
    (T_1_0_est T_2_0_est : G) residual :
  Np.dot_mv (PoseToPoseCost.stiffness self)
    (log (dot (dot T_2_0_est (inv T_1_0_est))
              (inv (PoseToPoseCost.T_2_1_obs self)))) = Ok residual →
  PoseToPoseCost.evaluate self [T_1_0_est; T_2_0_est] None
    = Ok (ResidualOnly residual)
  ∧ ∀ (f0 f1 : bool) J0 J1,
      (f0 = true →
       Np.dot_mm (PoseToPoseCost.stiffness self) (Np.neg_mat (adjoint T_2_0_est))
         = Ok J0) →
      (f1 = true →
       Np.dot_mm (PoseToPoseCost.stiffness self) (Np.identity dof) = Ok J1) →
      PoseToPoseCost.evaluate self [T_1_0_est; T_2_0_est] (Some [f0; f1])
        = Ok (WithJacobians residual
                [if f0 then Some J0 else None; if f1 then Some J1 else None]).
Proof.
  intros Hres. unfold PoseToPoseCost.evaluate. simpl. rewrite Hres. simpl.
  split; [reflexivity|]. intros f0 f1 J0 J1 H0' H1'.
  unfold set_if_requested. simpl.
  destruct f0, f1; simpl;
    rewrite ?(H0' eq_refl), ?(H1' eq_refl); reflexivity.
Qed.
End PoseToPoseFacts.

(** C4. For a PoseToPoseCost with any stiffness matrix (of as many columns as
    the group has degrees of freedom): the residual that [evaluate] returns is
    the stiffness times the logarithm of [T_2_0_est * T_1_0_est^-1 *
    T_2_1_obs^-1]; when Jacobians are requested, the one of the first pose is
    the stiffness times the negated adjoint of [T_2_0_est] and the one of the
    second pose is the stiffness times the identity matrix of size [dof]. *)
Theorem PoseToPoseCost_residual_and_jacobians
    {F G : Type} `{Scalar F} `{LieGroup F G} `{!LieGroupLaws F G}
    (self : PoseToPoseCost.t F G) (T_1_0_est T_2_0_est : G) (r : nat) :
  Np.has_shape (PoseToPoseCost.stiffness self) r dof →
  ∃ residual J0 J1,
    Np.dot_mv (PoseToPoseCost.stiffness self)
      (log (dot (dot T_2_0_est (inv T_1_0_est))
                (inv (PoseToPoseCost.T_2_1_obs self)))) = Ok residual
    ∧ Np.dot_mm (PoseToPoseCost.stiffness self) (Np.neg_mat (adjoint T_2_0_est))
      = Ok J0
    ∧ Np.dot_mm (PoseToPoseCost.stiffness self) (Np.identity dof) = Ok J1
    ∧ PoseToPoseCost.evaluate self [T_1_0_est; T_2_0_est] None
      = Ok (ResidualOnly residual)
    ∧ PoseToPoseCost.evaluate self [T_1_0_est; T_2_0_est] (Some [true; true])
      = Ok (WithJacobians residual [Some J0; Some J1])
    ∧ ∀ f0 f1 : bool,
        PoseToPoseCost.evaluate self [T_1_0_est; T_2_0_est] (Some [f0; f1])
        = Ok (WithJacobians residual
                [if f0 then Some J0 else None; if f1 then Some J1 else None]).
Proof.
  intros Hshape.
  destruct (dot_mv_defined (PoseToPoseCost.stiffness self)
              (log (dot (dot T_2_0_est (inv T_1_0_est))
                        (inv (PoseToPoseCost.T_2_1_obs self)))) r)
    as [residual Hres]; [now rewrite log_length|].
  destruct (dot_mm_defined (PoseToPoseCost.stiffness self)
              (Np.neg_mat (adjoint T_2_0_est)) r dof dof Hshape)
    as [J0 HJ0]; [apply neg_mat_shape, adjoint_shape|].
  destruct (dot_mm_defined (PoseToPoseCost.stiffness self)
              (Np.identity dof) r dof dof Hshape)
    as [J1 HJ1]; [apply identity_shape|].
  destruct (PoseToPoseCost_evaluate_two self T_1_0_est T_2_0_est residual Hres)
    as [Hnone Hflags].
  exists residual, J0, J1. repeat split; try assumption.
  - now apply (Hflags true true).
  - intros f0 f1. now apply Hflags.
Qed.

Lemma PoseToPoseCost_residual_and_jacobians_witness :
  PoseToPoseCost.evaluate (PoseToPoseCost.mk 2 [[3]]) [4; 7] (Some [true; true])
    = Ok (WithJacobians [3] [Some [[-3]]; Some [[3]]]).
Proof.
  destruct (PoseToPoseCost_residual_and_jacobians
              (PoseToPoseCost.mk 2 [[3]]) 4 7 1)
    as (residual & J0 & J1 & Hres & HJ0 & HJ1 & _ & Hboth & _).
  - split; [reflexivity|]. repeat constructor.
  - rewrite Hboth. vm_compute in Hres, HJ0, HJ1.
    injection Hres as <-. injection HJ0 as <-. injection HJ1 as <-.
    reflexivity.
Defined.

(** C5. For a PoseToPoseCost whose relative observation is the group
    identity, evaluated at two equal pose estimates, the residual is exactly
    the zero vector. *)
Theorem PoseToPoseCost_zero_residual
    {F G : Type} `{Scalar F} `{!ScalarLaws F} `{LieGroup F G}
    `{!LieGroupLaws F G}
    (self : PoseToPoseCost.t F G) (T : G) (r : nat) :
  PoseToPoseCost.T_2_1_obs self = identity →
  Np.has_shape (PoseToPoseCost.stiffness self) r dof →
  PoseToPoseCost.evaluate self [T; T] None = Ok (ResidualOnly (Np.zeros r))
  ∧ ∀ compute_jacobians out,
      PoseToPoseCost.evaluate self [T; T] compute_jacobians = Ok out →
      residual_of out = Np.zeros r.
Proof.
  intros Hobs Hshape.
  assert (Hres : Np.dot_mv (PoseToPoseCost.stiffness self)
                   (log (dot (dot T (inv T))
                             (inv (PoseToPoseCost.T_2_1_obs self))))
                 = Ok (Np.zeros r)).
  { rewrite Hobs, dot_inv_r, inv_identity, dot_identity_l, log_identity.
    now apply dot_mv_zeros. }
  split; [now apply PoseToPoseCost_evaluate_two|].
  intros cj out. unfold PoseToPoseCost.evaluate. simpl. rewrite Hres. simpl.
  destruct (truthy cj); [|now intros [= <-]].
  intros Hout.
  apply bind_Ok in Hout as (js0 & _ & Hout).
  apply bind_Ok in Hout as (js1 & _ & Hout).
  now injection Hout as <-.
Qed.

Lemma PoseToPoseCost_zero_residual_witness :
  PoseToPoseCost.evaluate (PoseToPoseCost.mk 0 [[3]; [5]]) [7; 7] None
    = Ok (ResidualOnly [0; 0]).
Proof.
  refine (proj1 (PoseToPoseCost_zero_residual
                   (PoseToPoseCost.mk 0 [[3]; [5]]) 7 2 _ _)).
  - reflexivity.
  - split; [reflexivity|]. repeat constructor.
Defined.

(** ** Boolean masks *)

Section MaskFacts.
Context {A B C : Type}.

Lemma mask_index_fmap (f : C → bool) (ys : list C) (xs : list A) :
  length xs = length ys →
  Np.mask_index xs (f <$> ys) = Ok (Np.select (f <$> ys) xs).
Proof.
  intros Hlen. unfold Np.mask_index. rewrite length_fmap.
  destruct (decide _) as [_|Hno]; [reflexivity | now symmetry in Hlen].
Qed.

Lemma select_same_length (mask : list bool) (xs : list A) (ys : list B) :
  length xs = length ys →
  length (Np.select mask xs) = length (Np.select mask ys).
Proof.
  revert xs ys. induction mask as [|b mask IH]; intros [|x xs] [|y ys];
    simpl; try discriminate; try reflexivity.
  intros [= Hlen]. destruct b; simpl; auto.
Qed.

End MaskFacts.

(** ** PhotometricCost *)

Section PhotometricFacts.
Context {F G : Type} `{Scalar F} `{LieGroup F G} `{CameraModel F}
        `{BilinearSampler F}.

Lemma masked_residual_omap (self : PhotometricCost.t F) (T : G)
    (ms : list (pixel F)) (ts : list F) :
  length ms = length ts →
  masked_residual self T ms ts
    = omap (λ z, measurement_residual self T z.1 z.2) (zip ms ts).
Proof.
  unfold masked_residual, measurement_residual, passes_filters, warp,
    bilinear_interpolate, Np.scale.
  revert ts. induction ms as [|m ms IH]; intros [|t ts]; simpl;
    try discriminate; try reflexivity.
  intros [= Hlen]. specialize (IH ts Hlen).
  destruct (is_valid_measurement (PhotometricCost.camera self) m); simpl;
    [|exact IH].
  destruct (is_valid_measurement (PhotometricCost.camera self)
              (project (PhotometricCost.camera self)
                 (act T (triangulate (PhotometricCost.camera self) m))));
    simpl; [|exact IH].
  f_equal. exact IH.
Qed.
End PhotometricFacts.

Section PhotometricRun.
Context {F G : Type} `{Scalar F} `{LieGroup F G} `{CameraModel F}
        `{BilinearSampler F}.

(** Without Jacobians [evaluate] returns the masked residual. *)
Lemma evaluate_residual_only (self : PhotometricCost.t F) (T : G) rest ms
    compute_jacobians :
  stacked self = Ok ms →
  length (Np.flatten (PhotometricCost.im_ref self)) = length ms →
  truthy compute_jacobians = false →
  PhotometricCost.evaluate self (T :: rest) compute_jacobians
    = Ok (ResidualOnly
            (masked_residual self T ms (Np.flatten (PhotometricCost.im_ref self)))).
Proof.
  unfold stacked. intros Hms Hts Hcj.
  unfold PhotometricCost.evaluate. rewrite Hcj. simpl. rewrite Hms. simpl.
  rewrite !mask_index_fmap by (rewrite ?length_fmap; auto). simpl.
  rewrite !mask_index_fmap
    by (rewrite ?length_fmap; auto using select_same_length).
  simpl. unfold Np.sub, bilinear_interpolate.
  destruct (decide _) as [_|Hno]; [reflexivity|].
  exfalso. apply Hno.
  rewrite length_zip_with, !length_fmap, Nat.min_id.
  apply select_same_length. rewrite !length_fmap.
  now apply select_same_length.
Qed.
Lemma mapM_result_length {A B} (f : A → result B) (xs : list A) (ys : list B) :
  mapM f xs = Ok ys → length ys = length xs.
Proof.
  revert ys. induction xs as [|x xs IH]; intros ys; simpl.
  - now intros [= <-].
  - intros Hrun. apply bind_Ok in Hrun as (y & _ & Hrun).
    apply bind_Ok in Hrun as (k & Hk & Hrun).
    injection Hrun as <-. simpl. now rewrite (IH k Hk).
Qed.

(** With flags [evaluate] returns the same masked residual, next to the
    Jacobians; the one of the pose is [value], which numpy refuses to build
    when no measurement is left and which otherwise has one row per entry
    of the residual. *)
Lemma evaluate_with_flags (self : PhotometricCost.t F) (T : G) rest ms gs
    (flags : list bool) :
  stacked self = Ok ms →
  length (Np.flatten (PhotometricCost.im_ref self)) = length ms →
  stacked_gradient self = Ok gs →
  length gs = length ms →
  flags ≠ [] →
  ∃ value : result (list (list F)),
    PhotometricCost.evaluate self (T :: rest) (Some flags)
      = (jacobians ← set_if_requested (Some flags) 0 value
                       (replicate (S (length rest)) None);
         Ok (WithJacobians
               (masked_residual self T ms
                  (Np.flatten (PhotometricCost.im_ref self)))
               jacobians))
    ∧ (masked_residual self T ms (Np.flatten (PhotometricCost.im_ref self)) = []
       → value = Raise ValueError)
    ∧ (∀ J, value = Ok J →
         length J = length (masked_residual self T ms
                              (Np.flatten (PhotometricCost.im_ref self)))).
Proof.
  unfold stacked, stacked_gradient. intros Hms Hts Hgs Hgl Hflags.
  assert (Hcj : truthy (Some flags) = true) by now destruct flags.
  unfold PhotometricCost.evaluate. rewrite Hcj. simpl. rewrite Hms. simpl.
  apply bind_Ok in Hgs as (gx & -> & Hgs). simpl.
  apply bind_Ok in Hgs as (gy & -> & Hgs). simpl.
  rewrite Hgs. simpl.
  rewrite !mask_index_fmap by (rewrite ?length_fmap; auto). simpl.
  rewrite !mask_index_fmap
    by (rewrite ?length_fmap; auto using select_same_length).
  simpl. unfold Np.sub, bilinear_interpolate.
  destruct (decide _) as [_|Hno].
  2:{ exfalso. apply Hno.
      rewrite length_zip_with, !length_fmap, Nat.min_id.
      apply select_same_length. rewrite !length_fmap.
      now apply select_same_length. }
  simpl. eexists. split; [reflexivity|]. split.
  - unfold masked_residual, bilinear_interpolate. intros ->. reflexivity.
  - unfold masked_residual, bilinear_interpolate. intros J HJ.
    apply bind_Ok in HJ as (blocks & Hblocks & HJ).
    apply fmap_Ok in HJ as (stacked_rows & Hstack & ->).
    apply mapM_result_length in Hblocks. rewrite length_seq in Hblocks.
    unfold Np.scale_mat. rewrite length_fmap, <- Hblocks.
    unfold Np.bmat_rows in Hstack.
    destruct blocks as [|first blocks]; [discriminate|].
    destruct (decide _); [|discriminate]. now injection Hstack as <-.
Qed.
End PhotometricRun.

(** ** From the flattened arrays to the pixels *)

Section GridFacts.
Context {F : Type} `{Scalar F}.

Lemma flatten_length (m : list (list F)) r c :
  Np.has_shape m r c → length (Np.flatten m) = (r * c)%nat.
Proof.
  intros [<- Hc]. unfold Np.flatten.
  induction Hc as [|row m Hrow Hm IH]; simpl; [reflexivity|].
  rewrite length_app, IH, Hrow. lia.
Qed.

Lemma meshgrid_shape (w h : nat) :
  Np.has_shape (Np.meshgrid (F:=F) w h).1 h w
  ∧ Np.has_shape (Np.meshgrid (F:=F) w h).2 h w.
Proof.
  unfold Np.meshgrid, Np.has_shape. simpl.
  rewrite !length_fmap, length_seq.
  repeat split; apply Forall_fmap, Forall_forall; intros i _; simpl;
    now rewrite length_fmap, length_seq.
Qed.

Lemma omap_Forall2 {A B C} (f : A → option C) (g : B → option C) xs ys :
  Forall2 (λ x y, f x = g y) xs ys → omap f xs = omap g ys.
Proof.
  induction 1 as [|x y xs ys Hxy _ IH]; simpl; [reflexivity|].
  rewrite Hxy. destruct (g y); [f_equal|]; exact IH.
Qed.

(** One row of the stacked arrays against the pixels of that row. *)
Lemma stacked_row (w i : nat) (drow irow : list F) :
  length drow = w → length irow = w →
  Forall2 (λ (z : pixel F * F) (ij : nat * nat),
             ij.1 = i
             ∧ z.1 = (Fof_Z (Z.of_nat ij.2), Fof_Z (Z.of_nat i), z.1.2)
             ∧ drow !! ij.2 = Some z.1.2 ∧ irow !! ij.2 = Some z.2)
    (zip (zip (zip ((λ j : nat, Fof_Z (Z.of_nat j)) <$> seq 0 w)
                   ((λ _ : nat, Fof_Z (Z.of_nat i)) <$> seq 0 w))
              drow)
         irow)
    ((λ j : nat, (i, j)) <$> seq 0 w).
Proof.
  intros Hd Hi. apply Forall2_same_length_lookup_2.
  - rewrite !length_zip_with, !length_fmap, length_seq. lia.
  - intros j [[[u v] d] t] [i' j'] Hz Hij.
    apply list_lookup_fmap_Some in Hij as (j0 & [= -> ->] & Hj0).
    apply lookup_seq in Hj0 as [-> Hlt]. simpl in *.
    apply lookup_zip_with_Some in Hz as (z1 & t' & [= <- <-] & Hz1 & Ht).
    apply lookup_zip_with_Some in Hz1 as (z2 & d' & [= <- <-] & Hz2 & Hd').
    apply lookup_zip_with_Some in Hz2 as (u' & v' & [= <- <-] & Hu & Hv).
    apply list_lookup_fmap_Some in Hu as (ju & -> & Hju).
    apply list_lookup_fmap_Some in Hv as (jv & -> & Hjv).
    apply lookup_seq in Hju as [-> _].
    now repeat split.
Qed.

(** The stacked arrays of an h x w grid against its pixels, rows [k],
    [k + 1], ... *)
Lemma stacked_rows (w k h : nat) (D I : list (list F)) :
  Np.has_shape D h w → Np.has_shape I h w →
  Forall2 (λ (z : pixel F * F) (ij : nat * nat),
             (k ≤ ij.1)%nat
             ∧ z.1 = (Fof_Z (Z.of_nat ij.2), Fof_Z (Z.of_nat ij.1), z.1.2)
             ∧ at_pixel D (ij.1 - k) ij.2 = Some z.1.2
             ∧ at_pixel I (ij.1 - k) ij.2 = Some z.2)
    (zip (zip (zip (concat ((λ _ : nat, (λ j : nat, Fof_Z (Z.of_nat j))
                                         <$> seq 0 w) <$> seq k h))
                   (concat ((λ i : nat, (λ _ : nat, Fof_Z (Z.of_nat i))
                                         <$> seq 0 w) <$> seq k h)))
              (concat D))
         (concat I))
    (concat ((λ i : nat, (λ j : nat, (i, j)) <$> seq 0 w) <$> seq k h)).
Proof.
  revert k D I. induction h as [|h IH]; intros k D I [HDl HDr] [HIl HIr].
  - destruct D; [|discriminate]. destruct I; [|discriminate]. constructor.
  - destruct D as [|drow D]; [discriminate|].
    destruct I as [|irow I]; [discriminate|].
    apply Forall_cons in HDr as [Hd HDr]. apply Forall_cons in HIr as [Hi HIr].
    injection HDl as HDl. injection HIl as HIl.
    simpl. rewrite !zip_with_app
      by (rewrite ?length_zip_with, ?length_fmap, ?length_seq; lia).
    apply Forall2_app.
    + eapply Forall2_impl; [apply (stacked_row w k drow irow Hd Hi)|].
      intros z ij (Hk & Hz & Hdz & Hiz). rewrite Hk.
      replace (k - k)%nat with 0%nat by lia.
      repeat split; [lia | exact Hz | exact Hdz | exact Hiz].
    + eapply Forall2_impl; [apply (IH (S k) D I); now split|].
      intros z ij (Hk & Hz & Hdz & Hiz).
      replace (ij.1 - k)%nat with (S (ij.1 - S k)) by lia.
      repeat split; [lia | exact Hz | exact Hdz | exact Hiz].
Qed.
End GridFacts.

Section PhotometricRefinement.
Context {F G : Type} `{Scalar F} `{LieGroup F G} `{CameraModel F}
        `{BilinearSampler F}.

Lemma init_constructed camera im_ref disp_ref jac_ref im_track stiffness :
  constructed
    (PhotometricCost.init camera im_ref disp_ref jac_ref im_track stiffness).
Proof. reflexivity. Qed.

(** The measurements stack, and the masked residual over them is the
    residual of the specification. *)
Lemma stacked_defined (self : PhotometricCost.t F) :
  constructed self → images_fit self →
  ∃ ms, stacked self = Ok ms
        ∧ length ms = (h (PhotometricCost.camera self)
                       * w (PhotometricCost.camera self))%nat
        ∧ length (Np.flatten (PhotometricCost.im_ref self)) = length ms
        ∧ ∀ T : G,
            masked_residual self T ms (Np.flatten (PhotometricCost.im_ref self))
              = photometric_residual self T.
Proof.
  intros Hgrid [Him Hdisp]. unfold constructed in Hgrid.
  pose proof (f_equal fst Hgrid) as Hu. pose proof (f_equal snd Hgrid) as Hv.
  simpl in Hu, Hv. clear Hgrid.
  destruct (meshgrid_shape (F:=F) (w (PhotometricCost.camera self))
              (h (PhotometricCost.camera self))) as [HU HV].
  pose proof (flatten_length _ _ _ HU) as HUl.
  pose proof (flatten_length _ _ _ HV) as HVl.
  pose proof (flatten_length _ _ _ Him) as Himl.
  pose proof (flatten_length _ _ _ Hdisp) as Hdl.
  unfold stacked, Np.columns3. rewrite Hu, Hv.
  destruct (decide _) as [_|Hno].
  2:{ exfalso. apply Hno.
      split; [exact (eq_trans HUl (eq_sym HVl)) | exact (eq_trans HVl (eq_sym Hdl))]. }
  unfold Np.meshgrid in HUl, HVl. simpl in HUl, HVl.
  eexists. split; [reflexivity|].
  split; [rewrite !length_zip_with; lia|].
  split; [rewrite !length_zip_with; lia|].
  intros T. rewrite masked_residual_omap by (rewrite !length_zip_with; lia).
  unfold photometric_residual, pixels. apply omap_Forall2.
  eapply Forall2_impl;
    [apply (stacked_rows (w (PhotometricCost.camera self)) 0
                         (h (PhotometricCost.camera self))
                         (PhotometricCost.disp_ref self)
                         (PhotometricCost.im_ref self) Hdisp Him)|].
  intros z ij (_ & Hz & Hd & Hi). unfold pixel_residual.
  rewrite Nat.sub_0_r in Hd, Hi. rewrite Hd, Hi. simpl. now rewrite <- Hz.
Qed.

Lemma gradient_defined (self : PhotometricCost.t F) :
  gradient_fits self →
  ∃ gs, stacked_gradient self = Ok gs
        ∧ length gs = (h (PhotometricCost.camera self)
                       * w (PhotometricCost.camera self))%nat.
Proof.
  intros (gx & gy & Hjac & Hgx & Hgy).
  pose proof (flatten_length _ _ _ Hgx) as Hxl.
  pose proof (flatten_length _ _ _ Hgy) as Hyl.
  unfold stacked_gradient. rewrite Hjac. simpl. unfold Np.columns2.
  destruct (decide _) as [_|Hno]; [|exfalso; apply Hno; congruence].
  eexists. split; [reflexivity|]. rewrite length_zip_with. lia.
Qed.

(** Whatever [evaluate] returns, its residual is the masked residual. *)
Lemma evaluate_residual_inv (self : PhotometricCost.t F) (T : G) rest ms
    compute_jacobians out :
  stacked self = Ok ms →
  length (Np.flatten (PhotometricCost.im_ref self)) = length ms →
  PhotometricCost.evaluate self (T :: rest) compute_jacobians = Ok out →
  residual_of out
    = masked_residual self T ms (Np.flatten (PhotometricCost.im_ref self)).
Proof.
  intros Hms Hts Hout.
  destruct (truthy compute_jacobians) eqn:Hcj.
  2:{ rewrite (evaluate_residual_only self T rest ms compute_jacobians
                 Hms Hts Hcj) in Hout. now injection Hout as <-. }
  unfold stacked in Hms. unfold PhotometricCost.evaluate in Hout.
  rewrite Hcj in Hout. simpl in Hout. rewrite Hms in Hout. simpl in Hout.
  apply bind_Ok in Hout as (im_jac & _ & Hout).
  rewrite !mask_index_fmap in Hout by (rewrite ?length_fmap; auto).
  simpl in Hout.
  apply bind_Ok in Hout as (im_jac1 & _ & Hout).
  rewrite !mask_index_fmap in Hout
    by (rewrite ?length_fmap; auto using select_same_length).
  simpl in Hout.
  apply bind_Ok in Hout as (im_jac2 & _ & Hout).
  unfold Np.sub, bilinear_interpolate in Hout.
  destruct (decide _) as [_|Hno]; [|discriminate]. simpl in Hout.
  apply bind_Ok in Hout as (jacobians & _ & Hout).
  now injection Hout as <-.
Qed.
End PhotometricRefinement.

(** C6. [PhotometricCost.evaluate] computes its residual by triangulating
    the valid reference pixels, transforming them by the candidate pose,
    projecting them into the tracking image, sampling the tracking image
    there and returning the stiffness-scaled difference between the sampled
    intensity and the true reference intensity at those pixels: for a cost
    built by its constructor over images of the camera's dimensions, the
    residual is [photometric_residual], without Jacobians and with them. *)
Theorem PhotometricCost_residual_is_warped_difference
    {F G : Type} `{Scalar F} `{LieGroup F G} `{CameraModel F}
    `{BilinearSampler F}
    (self : PhotometricCost.t F) (T_track_ref : G) (rest : list G) :
  constructed self → images_fit self →
  PhotometricCost.evaluate self (T_track_ref :: rest) None
    = Ok (ResidualOnly (photometric_residual self T_track_ref))
  ∧ ∀ compute_jacobians out,
      PhotometricCost.evaluate self (T_track_ref :: rest) compute_jacobians
        = Ok out →
      residual_of out = photometric_residual self T_track_ref.
Proof.
  intros Hgrid Hfit.
  destruct (stacked_defined (G:=G) self Hgrid Hfit)
    as (ms & Hms & _ & Hts & Hspec).
  split.
  - rewrite (evaluate_residual_only self T_track_ref rest ms None Hms Hts eq_refl).
    now rewrite Hspec.
  - intros cj out Hout. rewrite <- Hspec.
    now apply (evaluate_residual_inv self T_track_ref rest ms cj out).
Qed.

Lemma PhotometricCost_residual_is_warped_difference_witness :
  PhotometricCost.evaluate
    (PhotometricCost.init Toy.camera Toy.grid Toy.good_disparity
                          [Toy.grid; Toy.grid] Toy.grid 3)
    [1] None
  = Ok (ResidualOnly [3; 3]).
Proof.
  refine (eq_trans
            (proj1 (PhotometricCost_residual_is_warped_difference
                      (PhotometricCost.init Toy.camera Toy.grid
                         Toy.good_disparity [Toy.grid; Toy.grid] Toy.grid 3)
                      1 [] _ _)) _).
  - reflexivity.
  - split; (split; [reflexivity|]); repeat constructor.
  - vm_compute. reflexivity.
Defined.

(** ** The flags protocol, cost by cost *)

(** Inverts the chain of [set_if_requested] in a run that returned. *)
Ltac protocol_steps :=
  repeat match goal with
  | Hrun : _ ≫= _ = Ok _ |- _ =>
      let js := fresh "jacobians" in
      let Hset := fresh "Hset" in
      apply bind_Ok in Hrun as (js & Hset & Hrun)
  | Hinv : unrequested_are_None ?flags ?n ?js,
    Hset : set_if_requested (Some ?flags) _ _ ?js = Ok _ |- _ =>
      apply (unrequested_step _ _ _ _ _ _ Hinv) in Hset; clear Hinv
  end.

Lemma truthy_length (flags : list bool) (n : nat) :
  length flags = S n → truthy (Some flags) = true.
Proof. now destruct flags. Qed.

Section ProtocolFacts.
Context {F G : Type} `{Scalar F} `{LieGroup F G} `{CameraModel F}
        `{BilinearSampler F}.

Lemma QuadraticCost_keeps_protocol (self : QuadraticCost.t F) params :
  keeps_protocol (QuadraticCost.evaluate self params) (length params).
Proof.
  split.
  - intros out. unfold QuadraticCost.evaluate. simpl.
    intros Hrun. repeat (apply bind_Ok in Hrun as (? & _ & Hrun)).
    injection Hrun as <-. eauto.
  - intros flags out Hlen. unfold QuadraticCost.evaluate.
    intros Hrun.
    apply bind_Ok in Hrun as (p0 & Hp0 & Hrun).
    apply bind_Ok in Hrun as (p1 & _ & Hrun).
    apply bind_Ok in Hrun as (p2 & _ & Hrun).
    destruct params as [|p params]; [discriminate|].
    rewrite (truthy_length flags (length params) Hlen) in Hrun.
    pose proof (unrequested_start (J:=F) flags _ Hlen) as Hinv.
    simpl in Hrun. protocol_steps. injection Hrun as <-. eauto.
Qed.

Lemma QuadraticCost_answers (self : QuadraticCost.t F) params flags :
  length params = 3%nat → length flags = 3%nat →
  answers_flags (QuadraticCost.evaluate self params) 3 flags.
Proof.
  intros Hp Hf.
  destruct params as [|p0 [|p1 [|p2 [|]]]]; try discriminate.
  destruct flags as [|f0 [|f1 [|f2 [|]]]]; try discriminate.
  unfold answers_flags, QuadraticCost.evaluate, set_if_requested. simpl.
  destruct f0, f1, f2; simpl; eexists _, _;
    (split; [reflexivity|]); (split; [reflexivity|]);
    (split; [reflexivity|]); intros [|[|[|i]]] Hi; cbn in Hi |- *;
    try congruence; destruct i; discriminate.
Qed.

Lemma PoseCost_keeps_protocol (self : PoseCost.t F G) params :
  keeps_protocol (PoseCost.evaluate self params) (length params).
Proof.
  split.
  - intros out. unfold PoseCost.evaluate. simpl.
    intros Hrun. repeat (apply bind_Ok in Hrun as (? & _ & Hrun)).
    injection Hrun as <-. eauto.
  - intros flags out Hlen. unfold PoseCost.evaluate.
    intros Hrun.
    apply bind_Ok in Hrun as (T & HT & Hrun).
    apply bind_Ok in Hrun as (residual & _ & Hrun).
    destruct params as [|p params]; [discriminate|].
    rewrite (truthy_length flags (length params) Hlen) in Hrun.
    pose proof (unrequested_start (J:=list (list F)) flags _ Hlen) as Hinv.
    simpl in Hrun. protocol_steps. injection Hrun as <-. eauto.
Qed.

Lemma PoseToPoseCost_keeps_protocol (self : PoseToPoseCost.t F G) params :
  keeps_protocol (PoseToPoseCost.evaluate self params) (length params).
Proof.
  split.
  - intros out. unfold PoseToPoseCost.evaluate. simpl.
    intros Hrun. repeat (apply bind_Ok in Hrun as (? & _ & Hrun)).
    injection Hrun as <-. eauto.
  - intros flags out Hlen. unfold PoseToPoseCost.evaluate.
    intros Hrun.
    apply bind_Ok in Hrun as (T1 & HT1 & Hrun).
    apply bind_Ok in Hrun as (T2 & _ & Hrun).
    apply bind_Ok in Hrun as (residual & _ & Hrun).
    destruct params as [|p params]; [discriminate|].
    rewrite (truthy_length flags (length params) Hlen) in Hrun.
    pose proof (unrequested_start (J:=list (list F)) flags _ Hlen) as Hinv.
    simpl in Hrun. protocol_steps. injection Hrun as <-. eauto.
Qed.

Lemma ReprojectionCost_keeps_protocol (self : ReprojectionCost.t F)
    (params : list (ReprojectionCost.param F G)) :
  keeps_protocol (ReprojectionCost.evaluate self params) (length params).
Proof.
  split.
  - intros out. unfold ReprojectionCost.evaluate. simpl.
    intros Hrun. repeat (apply bind_Ok in Hrun as (? & _ & Hrun)).
    injection Hrun as <-. eauto.
  - intros flags out Hlen. unfold ReprojectionCost.evaluate.
    intros Hrun.
    apply bind_Ok in Hrun as (T & HT & Hrun).
    apply bind_Ok in Hrun as (pt_w & _ & Hrun).
    destruct params as [|p params]; [discriminate|].
    rewrite (truthy_length flags (length params) Hlen) in Hrun.
    pose proof (unrequested_start (J:=list (list F)) flags _ Hlen) as Hinv.
    simpl in Hrun.
    apply bind_Ok in Hrun as (residual & _ & Hrun).
    protocol_steps. injection Hrun as <-. eauto.
Qed.

Lemma PhotometricCost_keeps_protocol (self : PhotometricCost.t F)
    (params : list G) :
  keeps_protocol (PhotometricCost.evaluate self params) (length params).
Proof.
  split.
  - intros out. unfold PhotometricCost.evaluate. simpl.
    intros Hrun. repeat (apply bind_Ok in Hrun as (? & _ & Hrun)).
    injection Hrun as <-. eauto.
  - intros flags out Hlen. unfold PhotometricCost.evaluate.
    intros Hrun.
    apply bind_Ok in Hrun as (T & HT & Hrun).
    destruct params as [|p params]; [discriminate|].
    rewrite (truthy_length flags (length params) Hlen) in Hrun.
    pose proof (unrequested_start (J:=list (list F)) flags _ Hlen) as Hinv.
    simpl in Hrun.
    do 11 (apply bind_Ok in Hrun as (? & _ & Hrun)).
    protocol_steps. injection Hrun as <-. eauto.
Qed.
End ProtocolFacts.

Section AnswerFacts.
Context {F G : Type} `{Scalar F} `{LieGroup F G} `{CameraModel F}
        `{BilinearSampler F}.

Lemma unrequested_two {J} (f0 f1 : bool) (J0 J1 : J) :
  unrequested_are_None [f0; f1] 2
    [if f0 then Some J0 else None; if f1 then Some J1 else None].
Proof.
  split; [reflexivity|]. intros [|[|i]] Hi; cbn in Hi |- *.
  - now injection Hi as ->.
  - now injection Hi as ->.
  - destruct i; discriminate.
Qed.

Lemma PoseCost_answers `{!LieGroupLaws F G} (self : PoseCost.t F G) (T_est : G)
    (flags : list bool) (r : nat) :
  length flags = 1%nat →
  Np.has_shape (PoseCost.stiffness self) r dof →
  answers_flags (PoseCost.evaluate self [T_est]) 1 flags.
Proof.
  intros Hf Hshape. destruct flags as [|f0 [|]]; try discriminate.
  destruct (dot_mv_defined (PoseCost.stiffness self)
              (log (dot T_est (inv (PoseCost.T_obs self)))) r)
    as [residual Hres]; [now rewrite log_length|].
  destruct (dot_mm_defined (PoseCost.stiffness self) (Np.identity dof)
              r dof dof Hshape (identity_shape dof)) as [J0 HJ0].
  unfold answers_flags, PoseCost.evaluate, set_if_requested. simpl.
  rewrite Hres. simpl. destruct f0; simpl; rewrite ?HJ0; simpl;
    eexists _, _; (split; [reflexivity|]); (split; [reflexivity|]);
    (split; [reflexivity|]); intros [|i] Hi; cbn in Hi |- *;
    try congruence; destruct i; discriminate.
Qed.

Lemma PoseToPoseCost_answers `{!LieGroupLaws F G} (self : PoseToPoseCost.t F G)
    (T_1_0_est T_2_0_est : G) (flags : list bool) (r : nat) :
  length flags = 2%nat →
  Np.has_shape (PoseToPoseCost.stiffness self) r dof →
  answers_flags (PoseToPoseCost.evaluate self [T_1_0_est; T_2_0_est]) 2 flags.
Proof.
  intros Hf Hshape. destruct flags as [|f0 [|f1 [|]]]; try discriminate.
  destruct (dot_mv_defined (PoseToPoseCost.stiffness self)
              (log (dot (dot T_2_0_est (inv T_1_0_est))
                        (inv (PoseToPoseCost.T_2_1_obs self)))) r)
    as [residual Hres]; [now rewrite log_length|].
  destruct (dot_mm_defined (PoseToPoseCost.stiffness self)
              (Np.neg_mat (adjoint T_2_0_est)) r dof dof Hshape)
    as [J0 HJ0]; [apply neg_mat_shape, adjoint_shape|].
  destruct (dot_mm_defined (PoseToPoseCost.stiffness self)
              (Np.identity dof) r dof dof Hshape (identity_shape dof))
    as [J1 HJ1].
  destruct (PoseToPoseCost_evaluate_two self T_1_0_est T_2_0_est residual Hres)
    as [Hnone Hflags].
  exists residual, [if f0 then Some J0 else None; if f1 then Some J1 else None].
  split; [exact Hnone|]. split; [now apply Hflags|]. apply unrequested_two.
Qed.

Lemma ReprojectionCost_answers (self : ReprojectionCost.t F) (T_cam_w : G)
    (pt_w : point F) (flags : list bool) :
  let pt_cam := act T_cam_w pt_w in
  let cam_jacobian := project_jacobian (ReprojectionCost.camera self) pt_cam in
  length flags = 2%nat →
  is_Ok (Np.sub (row3 (project (ReprojectionCost.camera self) pt_cam))
                (ReprojectionCost.obs self)
           ≫= Np.dot_mv (ReprojectionCost.stiffness self)) →
  is_Ok (Np.dot_mm cam_jacobian (odot pt_cam)
           ≫= Np.dot_mm (ReprojectionCost.stiffness self)) →
  is_Ok (Np.dot_mm cam_jacobian (rot_as_matrix T_cam_w)
           ≫= Np.dot_mm (ReprojectionCost.stiffness self)) →
  answers_flags
    (ReprojectionCost.evaluate self
       [ReprojectionCost.Pose T_cam_w; ReprojectionCost.Point pt_w]) 2 flags.
Proof.
  intros pt_cam cam_jacobian Hf [residual Hres] [J0 HJ0] [J1 HJ1].
  destruct flags as [|f0 [|f1 [|]]]; try discriminate.
  exists residual, [if f0 then Some J0 else None; if f1 then Some J1 else None].
  unfold ReprojectionCost.evaluate, set_if_requested. simpl.
  fold pt_cam. fold cam_jacobian. rewrite Hres. simpl.
  split; [reflexivity|]. split; [|apply unrequested_two].
  destruct f0, f1; simpl; rewrite ?HJ0, ?HJ1; reflexivity.
Qed.

Lemma PhotometricCost_answers (self : PhotometricCost.t F) (T_track_ref : G) :
  constructed self → images_fit self → gradient_fits self →
  answers_flags (PhotometricCost.evaluate self [T_track_ref]) 1 [false].
Proof.
  intros Hgrid Hfit Hgrad.
  destruct (stacked_defined (G:=G) self Hgrid Hfit)
    as (ms & Hms & Hlen & Hts & Hspec).
  destruct (gradient_defined self Hgrad) as (gs & Hgs & Hgl).
  destruct (evaluate_with_flags self T_track_ref [] ms gs [false] Hms Hts Hgs)
    as (value & Hrun & _); [congruence | discriminate |].
  exists (masked_residual self T_track_ref ms
            (Np.flatten (PhotometricCost.im_ref self))), [None].
  split; [now apply evaluate_residual_only|].
  split; [rewrite Hrun; now rewrite set_if_requested_false|].
  split; [reflexivity|]. intros [|i] Hi; [reflexivity|].
  destruct i; discriminate.
Qed.

(** With the flag set and no measurement passing both filters, [evaluate]
    raises instead of returning an empty residual and Jacobian. *)
Lemma PhotometricCost_no_measurement_raises (self : PhotometricCost.t F)
    (T_track_ref : G) (flags : list bool) :
  constructed self → images_fit self → gradient_fits self →
  flags !! 0%nat = Some true →
  photometric_residual self T_track_ref = [] →
  PhotometricCost.evaluate self [T_track_ref] (Some flags) = Raise ValueError.
Proof.
  intros Hgrid Hfit Hgrad Hflag Hempty.
  destruct (stacked_defined (G:=G) self Hgrid Hfit)
    as (ms & Hms & Hlen & Hts & Hspec).
  destruct (gradient_defined self Hgrad) as (gs & Hgs & Hgl).
  destruct (evaluate_with_flags self T_track_ref [] ms gs flags Hms Hts Hgs)
    as (value & Hrun & Hnone & _); [congruence | now destruct flags |].
  rewrite Hrun, Hnone by now rewrite Hspec.
  unfold set_if_requested, flag, py_getitem. now rewrite Hflag.
Qed.

(** When [evaluate] does return a Jacobian for the pose, it has one row per
    entry of the residual, which has one entry per pixel passing both
    filters. *)
Lemma PhotometricCost_jacobian_rows (self : PhotometricCost.t F)
    (T_track_ref : G) (flags : list bool) residual jacobians J :
  constructed self → images_fit self → gradient_fits self →
  PhotometricCost.evaluate self [T_track_ref] (Some flags)
    = Ok (WithJacobians residual jacobians) →
  jacobians !! 0%nat = Some (Some J) →
  residual = photometric_residual self T_track_ref
  ∧ length J = length residual.
Proof.
  intros Hgrid Hfit Hgrad Hrun HJ.
  destruct (stacked_defined (G:=G) self Hgrid Hfit)
    as (ms & Hms & Hlen & Hts & Hspec).
  destruct (gradient_defined self Hgrad) as (gs & Hgs & Hgl).
  assert (Hflags : flags ≠ []).
  { intros ->.
    rewrite (evaluate_residual_only self T_track_ref [] ms (Some []) Hms Hts
               eq_refl) in Hrun. discriminate. }
  destruct (evaluate_with_flags self T_track_ref [] ms gs flags Hms Hts Hgs)
    as (value & Hrun' & _ & Hrows); [congruence | assumption |].
  rewrite Hrun' in Hrun. apply bind_Ok in Hrun as (js & Hset & [= <- <-]).
  split; [now rewrite Hspec|].
  unfold set_if_requested in Hset.
  apply bind_Ok in Hset as (f & _ & Hset). destruct f.
  - apply bind_Ok in Hset as (J' & Hvalue & Hset).
    unfold py_setitem in Hset. destruct (decide _); [|discriminate].
    injection Hset as <-. simpl in HJ. injection HJ as <-.
    now apply Hrows.
  - injection Hset as <-. discriminate.
Qed.
End AnswerFacts.

(** C3. The claim: [PhotometricCost.evaluate] never raises on invalid
    measurements, it returns a residual with one entry per pixel passing both
    filters and a Jacobian with as many rows. The code at a cost none of
    whose pixels has a valid disparity: no pixel passes ([photometric_residual]
    is empty), without Jacobians [evaluate] returns the empty residual, but
    with the Jacobian of the pose requested it raises [ValueError], because
    [np.bmat] is handed an empty list of blocks. *)
Theorem PhotometricCost_raises_without_valid_pixels :
  let cost :=
    PhotometricCost.init Toy.camera Toy.grid Toy.bad_disparity
                         [Toy.grid; Toy.grid] Toy.grid 3 in
  photometric_residual cost 0 = []
  ∧ PhotometricCost.evaluate cost [0] None = Ok (ResidualOnly [])
  ∧ PhotometricCost.evaluate cost [0] (Some [true]) = Raise ValueError.
Proof. vm_compute. repeat split; reflexivity. Qed.

(** C10. For every cost function, [evaluate] without [compute_jacobians]
    returns the residual alone, and with the flags supplied (one per
    parameter) it returns the pair of the residual and the Jacobians, in which
    the Jacobian is [None] at every index whose flag is false. First: whatever
    any of the five [evaluate] returns keeps to this. Then: each of them does
    return, for parameters of its arity and array operands that conform; for
    PhotometricCost this is stated for the flag being false. *)
Theorem evaluate_keeps_flags_protocol
    {F G : Type} `{Scalar F} `{LieGroup F G} `{!LieGroupLaws F G}
    `{CameraModel F} `{BilinearSampler F} :
  ((∀ (self : QuadraticCost.t F) params,
      keeps_protocol (QuadraticCost.evaluate self params) (length params))
   ∧ (∀ (self : PoseCost.t F G) params,
        keeps_protocol (PoseCost.evaluate self params) (length params))
   ∧ (∀ (self : PoseToPoseCost.t F G) params,
        keeps_protocol (PoseToPoseCost.evaluate self params) (length params))
   ∧ (∀ (self : ReprojectionCost.t F) (params : list (ReprojectionCost.param F G)),
        keeps_protocol (ReprojectionCost.evaluate self params) (length params))
   ∧ (∀ (self : PhotometricCost.t F) (params : list G),
        keeps_protocol (PhotometricCost.evaluate self params) (length params)))
  ∧ (∀ (self : QuadraticCost.t F) params flags,
       length params = 3%nat → length flags = 3%nat →
       answers_flags (QuadraticCost.evaluate self params) 3 flags)
  ∧ (∀ (self : PoseCost.t F G) (T_est : G) flags r,
       length flags = 1%nat →
       Np.has_shape (PoseCost.stiffness self) r dof →
       answers_flags (PoseCost.evaluate self [T_est]) 1 flags)
  ∧ (∀ (self : PoseToPoseCost.t F G) (T_1_0_est T_2_0_est : G) flags r,
       length flags = 2%nat →
       Np.has_shape (PoseToPoseCost.stiffness self) r dof →
       answers_flags (PoseToPoseCost.evaluate self [T_1_0_est; T_2_0_est])
                     2 flags)
  ∧ (∀ (self : ReprojectionCost.t F) (T_cam_w : G) (pt_w : point F) flags,
       length flags = 2%nat →
       is_Ok (Np.sub (row3 (project (ReprojectionCost.camera self)
                                    (act T_cam_w pt_w)))
                     (ReprojectionCost.obs self)
                ≫= Np.dot_mv (ReprojectionCost.stiffness self)) →
       is_Ok (Np.dot_mm (project_jacobian (ReprojectionCost.camera self)
                                          (act T_cam_w pt_w))
                        (odot (act T_cam_w pt_w))
                ≫= Np.dot_mm (ReprojectionCost.stiffness self)) →
       is_Ok (Np.dot_mm (project_jacobian (ReprojectionCost.camera self)
                                          (act T_cam_w pt_w))
                        (rot_as_matrix T_cam_w)
                ≫= Np.dot_mm (ReprojectionCost.stiffness self)) →
       answers_flags
         (ReprojectionCost.evaluate self
            [ReprojectionCost.Pose T_cam_w; ReprojectionCost.Point pt_w])
         2 flags)
  ∧ (∀ (self : PhotometricCost.t F) (T_track_ref : G),
       constructed self → images_fit self → gradient_fits self →
       answers_flags (PhotometricCost.evaluate self [T_track_ref]) 1 [false]).
Proof.
  split; [repeat split|repeat split].
  - apply QuadraticCost_keeps_protocol.
  - apply QuadraticCost_keeps_protocol.
  - apply PoseCost_keeps_protocol.
  - apply PoseCost_keeps_protocol.
  - apply PoseToPoseCost_keeps_protocol.
  - apply PoseToPoseCost_keeps_protocol.
  - apply ReprojectionCost_keeps_protocol.
  - apply ReprojectionCost_keeps_protocol.
  - apply PhotometricCost_keeps_protocol.
  - apply PhotometricCost_keeps_protocol.
  - apply QuadraticCost_answers.
  - intros. eapply PoseCost_answers; eassumption.
  - intros. eapply PoseToPoseCost_answers; eassumption.
  - intros. now apply ReprojectionCost_answers.
  - apply PhotometricCost_answers.
Qed.

Lemma evaluate_keeps_flags_protocol_witness :
  answers_flags (QuadraticCost.evaluate (QuadraticCost.mk 2 3 1) [1; 1; 1])
                3 [true; false; true]
  ∧ answers_flags (PoseCost.evaluate (PoseCost.mk 0 [[2]]) [5]) 1 [false]
  ∧ answers_flags (PoseToPoseCost.evaluate (PoseToPoseCost.mk 0 [[2]]) [5; 6])
                  2 [true; false]
  ∧ answers_flags
      (ReprojectionCost.evaluate
         (ReprojectionCost.mk Toy.camera [1; 1; 1]
                              [[1; 0; 0]; [0; 1; 0]; [0; 0; 1]])
         [ReprojectionCost.Pose 1; ReprojectionCost.Point (1, 1, 1)])
      2 [false; true]
  ∧ answers_flags
      (PhotometricCost.evaluate
         (PhotometricCost.init Toy.camera Toy.grid Toy.good_disparity
                               [Toy.grid; Toy.grid] Toy.grid 3) [0])
      1 [false].
Proof.
  destruct (evaluate_keeps_flags_protocol (F:=Z) (G:=Z))
    as (_ & HQ & HP & HPP & HR & HPh).
  split; [|split; [|split; [|split]]].
  - apply HQ; reflexivity.
  - apply (HP _ _ _ 1%nat); [reflexivity|].
    split; [reflexivity|]. repeat constructor.
  - apply (HPP _ _ _ _ 1%nat); [reflexivity|].
    split; [reflexivity|]. repeat constructor.
  - apply HR; [reflexivity| | |]; vm_compute; eexists; reflexivity.
  - apply HPh.
    + reflexivity.
    + split; (split; [reflexivity|]); repeat constructor.
    + exists Toy.grid, Toy.grid. split; [reflexivity|].
      split; (split; [reflexivity|]); repeat constructor.
Defined.


(** * Further properties of the code *)

(** ** QuadraticCost, PoseCost, PoseToPoseCost *)

Section RingFacts.
Context {F : Type} `{Scalar F} `{!ScalarRing F}.

Add Ring scalar_ring : Fring.

Lemma ring_mul_zero_r (x : F) : Fmul x Fzero = Fzero.
Proof. ring. Qed.

Lemma ring_add_zero_l (x : F) : Fadd Fzero x = x.
Proof. ring. Qed.

#[local] Instance ring_laws : ScalarLaws F :=
  {| Fmul_zero_r := ring_mul_zero_r; Fadd_zero_l := ring_add_zero_l |}.

(** The inner product of a row with a unit vector picks one entry. *)
Lemma inner_unit (row : list F) (k j : nat) :
  Np.inner row ((λ i : nat, if decide (i = j) then Fone else Fzero)
                  <$> seq k (length row))
    = if decide (k ≤ j < k + length row)%nat
      then default Fzero (row !! (j - k)%nat) else Fzero.
Proof.
  unfold Np.inner. revert k. induction row as [|x row IH]; intros k; simpl.
  - destruct (decide _); [lia | reflexivity].
  - rewrite IH. destruct (decide (k = j)) as [->|Hne].
    + replace (j - j)%nat with 0%nat by lia.
      destruct (decide (S j ≤ j < S j + length row)%nat); [lia|].
      destruct (decide _); [cbn; ring | lia].
    + destruct (decide (S k ≤ j < S k + length row)%nat) as [Hin|Hout].
      * destruct (decide _); [|lia].
        replace (j - k)%nat with (S (j - S k)) by lia. cbn.
        rewrite ring_mul_zero_r, ring_add_zero_l. reflexivity.
      * destruct (decide _); [lia | ring].
Qed.

Lemma identity_ncols (n : nat) : Np.ncols (Np.identity (F:=F) n) = n.
Proof.
  unfold Np.identity. destruct n; [reflexivity|]. simpl.
  now rewrite length_fmap, length_seq.
Qed.

Lemma identity_column (n j : nat) :
  (j < n)%nat →
  Np.column (Np.identity (F:=F) n) j
    = (λ i : nat, if decide (i = j) then Fone else Fzero) <$> seq 0 n.
Proof.
  intros Hj. unfold Np.column, Np.identity. rewrite <- list_fmap_compose.
  apply list_fmap_ext. intros k i Hi. simpl.
  rewrite list_lookup_fmap, lookup_seq_lt by lia. reflexivity.
Qed.

Lemma row_times_identity (row : list F) :
  (λ col, Np.inner row col) <$> Np.transpose (Np.identity (length row)) = row.
Proof.
  unfold Np.transpose. rewrite identity_ncols, <- list_fmap_compose.
  apply list_eq. intros j. rewrite list_lookup_fmap.
  destruct (decide (j < length row)%nat) as [Hj|Hj].
  - rewrite lookup_seq_lt by lia. simpl. rewrite identity_column by lia.
    rewrite (inner_unit row 0 j). destruct (decide _); [|lia].
    rewrite Nat.sub_0_r.
    destruct (lookup_lt_is_Some_2 row j Hj) as [x Hx]. now rewrite Hx.
  - rewrite lookup_seq_ge by lia. simpl. symmetry. apply lookup_ge_None. lia.
Qed.

(** [np.dot(m, np.identity(n))] is [m]. *)
Lemma dot_mm_identity (m : list (list F)) r n :
  Np.has_shape m r n → Np.dot_mm m (Np.identity n) = Ok m.
Proof.
  intros [Hr Hc]. unfold Np.dot_mm.
  destruct (decide _) as [_|Hno].
  - f_equal. clear Hr. induction Hc as [|row m Hrow _ IH]; [reflexivity|].
    simpl. f_equal; [|exact IH]. rewrite <- Hrow. apply row_times_identity.
  - exfalso. apply Hno. destruct (identity_shape (F:=F) n) as [Hl Hs]. split.
    + split; [reflexivity|]. eapply Forall_impl; [exact Hc|].
      intros row Hrow. simpl. now rewrite Hl.
    + exact (has_shape_rectangular _ _ _ (identity_shape n)).
Qed.
End RingFacts.

Section QuadraticExact.
Context {F : Type} `{Scalar F} `{!ScalarRing F}.

Add Ring quadratic_ring : Fring.

(** X1. The Jacobians of QuadraticCost are exact: the cost is linear in its
    three parameters, so the residual at the parameters moved by
    [d0], [d1], [d2] is the residual at the parameters plus the Jacobians
    times the moves. *)
Theorem QuadraticCost_jacobians_are_exact (self : QuadraticCost.t F)
    (p0 p1 p2 d0 d1 d2 : F) :
  ∃ r J0 J1 J2,
    QuadraticCost.evaluate self [p0; p1; p2] (Some [true; true; true])
      = Ok (WithJacobians [r] [Some J0; Some J1; Some J2])
    ∧ QuadraticCost.evaluate self [Fadd p0 d0; Fadd p1 d1; Fadd p2 d2] None
      = Ok (ResidualOnly
              [Fadd r (Fadd (Fadd (Fmul J0 d0) (Fmul J1 d1)) (Fmul J2 d2))]).
Proof.
  eexists _, _, _, _. split; [reflexivity|].
  unfold QuadraticCost.evaluate. simpl. do 3 f_equal. ring.
Qed.
End QuadraticExact.

Lemma QuadraticCost_jacobians_are_exact_witness :
  QuadraticCost.evaluate (QuadraticCost.mk 2 3 5) [1 + 7; 1 + 11; 1 + 13] None
    = Ok (ResidualOnly [20 + (20 * 7 + 10 * 11 + 5 * 13)]).
Proof.
  destruct (QuadraticCost_jacobians_are_exact (QuadraticCost.mk 2 3 5)
              1 1 1 7 11 13) as (r & J0 & J1 & J2 & Hjac & Hmoved).
  vm_compute in Hjac. injection Hjac as <- <- <- <-. exact Hmoved.
Defined.

(** X2. PoseCost at its own observation: when the estimate is the observed
    pose, the residual is the zero vector. *)
Theorem PoseCost_zero_at_observation
    {F G : Type} `{Scalar F} `{!ScalarLaws F} `{LieGroup F G}
    `{!LieGroupLaws F G} (self : PoseCost.t F G) (r : nat) :
  Np.has_shape (PoseCost.stiffness self) r dof →
  PoseCost.evaluate self [PoseCost.T_obs self] None
    = Ok (ResidualOnly (Np.zeros r)).
Proof.
  intros Hshape. unfold PoseCost.evaluate. simpl.
  rewrite dot_inv_r, log_identity, (dot_mv_zeros _ r dof Hshape).
  reflexivity.
Qed.

Lemma PoseCost_zero_at_observation_witness :
  PoseCost.evaluate (PoseCost.mk 4 [[3]; [5]]) [4] None
    = Ok (ResidualOnly [0; 0]).
Proof.
  assert (Hshape : Np.has_shape (F:=Z) [[3]; [5]] 2 1)
    by (split; [reflexivity|]; repeat constructor).
  exact (PoseCost_zero_at_observation (PoseCost.mk 4 [[3]; [5]]) 2 Hshape).
Defined.

(** X3. The Jacobian PoseCost returns for its pose, and the one
    PoseToPoseCost returns for its second pose, is the stiffness matrix
    itself (stiffness times the identity of size [dof]). *)
Theorem pose_jacobian_is_stiffness
    {F G : Type} `{Scalar F} `{!ScalarRing F} `{LieGroup F G}
    `{!LieGroupLaws F G} (stiffness : list (list F)) (r : nat) :
  Np.has_shape stiffness r dof →
  (∀ T_obs T_est : G,
     ∃ residual,
       PoseCost.evaluate (PoseCost.mk T_obs stiffness) [T_est] (Some [true])
         = Ok (WithJacobians residual [Some stiffness]))
  ∧ (∀ T_2_1_obs T_1_0_est T_2_0_est : G,
       ∃ residual,
         PoseToPoseCost.evaluate (PoseToPoseCost.mk T_2_1_obs stiffness)
                                 [T_1_0_est; T_2_0_est] (Some [false; true])
           = Ok (WithJacobians residual [None; Some stiffness])).
Proof.
  intros Hshape. pose proof (dot_mm_identity stiffness r dof Hshape) as HS.
  split.
  - intros T_obs T_est.
    destruct (dot_mv_defined stiffness (log (dot T_est (inv T_obs))) r)
      as [residual Hres]; [now rewrite log_length|].
    exists residual. unfold PoseCost.evaluate, set_if_requested. simpl.
    rewrite Hres. simpl. rewrite HS. reflexivity.
  - intros T_2_1_obs T_1_0_est T_2_0_est.
    destruct (dot_mv_defined stiffness
                (log (dot (dot T_2_0_est (inv T_1_0_est)) (inv T_2_1_obs))) r)
      as [residual Hres]; [now rewrite log_length|].
    exists residual.
    apply (proj2 (PoseToPoseCost_evaluate_two
                    (PoseToPoseCost.mk T_2_1_obs stiffness)
                    T_1_0_est T_2_0_est residual Hres)
             false true stiffness stiffness).
    + discriminate.
    + intros _. exact HS.
Qed.

Lemma pose_jacobian_is_stiffness_witness :
  PoseCost.evaluate (PoseCost.mk 4 [[3]; [5]]) [6] (Some [true])
    = Ok (WithJacobians [6; 10] [Some [[3]; [5]]]).
Proof.
  destruct (pose_jacobian_is_stiffness (F:=Z) (G:=Z) [[3]; [5]] 2) as [Hpose _].
  - split; [reflexivity|]. repeat constructor.
  - destruct (Hpose 4 6) as [residual Hrun]. rewrite Hrun.
    vm_compute in Hrun. injection Hrun as <-. reflexivity.
Defined.

(** X4. PoseToPoseCost on a consistent loop: when the second estimate is the
    observation composed with the first estimate, the residual is the zero
    vector. *)
Theorem PoseToPoseCost_zero_on_consistent_loop
    {F G : Type} `{Scalar F} `{!ScalarLaws F} `{LieGroup F G}
    `{!LieGroupLaws F G} `{!LieGroupAction F G}
    (self : PoseToPoseCost.t F G) (T_1_0_est : G) (r : nat) :
  Np.has_shape (PoseToPoseCost.stiffness self) r dof →
  PoseToPoseCost.evaluate self
    [T_1_0_est; dot (PoseToPoseCost.T_2_1_obs self) T_1_0_est] None
    = Ok (ResidualOnly (Np.zeros r)).
Proof.
  intros Hshape. apply (PoseToPoseCost_evaluate_two self).
  rewrite <- (dot_assoc (PoseToPoseCost.T_2_1_obs self)), dot_inv_r,
    dot_identity_r, dot_inv_r, log_identity.
  now apply dot_mv_zeros.
Qed.

Lemma PoseToPoseCost_zero_on_consistent_loop_witness :
  PoseToPoseCost.evaluate (PoseToPoseCost.mk 2 [[3]; [5]]) [7; 9] None
    = Ok (ResidualOnly [0; 0]).
Proof.
  assert (Hshape : Np.has_shape (F:=Z) [[3]; [5]] 2 1)
    by (split; [reflexivity|]; repeat constructor).
  exact (PoseToPoseCost_zero_on_consistent_loop
           (PoseToPoseCost.mk 2 [[3]; [5]]) 7 2 Hshape).
Defined.

(** ** Arity of the parameters and of the flags *)

(** X5. Each cost reads a fixed number of parameters: QuadraticCost three,
    PoseToPoseCost and ReprojectionCost two, PoseCost and PhotometricCost
    one. Called with fewer, [evaluate] raises [IndexError], with or without
    flags. *)
Theorem evaluate_too_few_parameters
    {F G : Type} `{Scalar F} `{LieGroup F G} `{CameraModel F}
    `{BilinearSampler F} (compute_jacobians : option (list bool)) :
  (∀ (self : QuadraticCost.t F) params,
     (length params < 3)%nat →
     QuadraticCost.evaluate self params compute_jacobians = Raise IndexError)
  ∧ (∀ (self : PoseCost.t F G),
       PoseCost.evaluate self [] compute_jacobians = Raise IndexError)
  ∧ (∀ (self : PoseToPoseCost.t F G) params,
       (length params < 2)%nat →
       PoseToPoseCost.evaluate self params compute_jacobians = Raise IndexError)
  ∧ (∀ (self : ReprojectionCost.t F) (T_cam_w : G),
       ReprojectionCost.evaluate self [] compute_jacobians = Raise IndexError
       ∧ ReprojectionCost.evaluate self [ReprojectionCost.Pose T_cam_w]
                                   compute_jacobians = Raise IndexError)
  ∧ (∀ (self : PhotometricCost.t F),
       PhotometricCost.evaluate (G:=G) self [] compute_jacobians
         = Raise IndexError).
Proof.
  repeat split.
  - intros self [|p0 [|p1 [|p2 params]]] Hlen; simpl in Hlen;
      try reflexivity; lia.
  - intros self [|p0 [|p1 params]] Hlen; simpl in Hlen; try reflexivity; lia.
Qed.

Lemma evaluate_too_few_parameters_witness :
  QuadraticCost.evaluate (QuadraticCost.mk 2 3 5) [1; 1] (Some [true; true; true])
    = Raise IndexError.
Proof.
  destruct (evaluate_too_few_parameters (F:=Z) (G:=Z) (Some [true; true; true]))
    as [Hquadratic _].
  apply Hquadratic. simpl. lia.
Defined.

(** X6. The flags are read by index, one per parameter the cost reads: a
    non-empty list of flags that is shorter than that makes [evaluate] raise
    [IndexError], although the residual was computed. Shown for
    QuadraticCost (one or two flags) and for PoseToPoseCost (one flag). *)
Theorem evaluate_too_few_flags
    {F G : Type} `{Scalar F} `{LieGroup F G} `{!LieGroupLaws F G} :
  (∀ (self : QuadraticCost.t F) params flags,
     length params = 3%nat → (0 < length flags < 3)%nat →
     QuadraticCost.evaluate self params (Some flags) = Raise IndexError)
  ∧ (∀ (self : PoseToPoseCost.t F G) (T_1_0_est T_2_0_est : G) (f0 : bool) r,
       Np.has_shape (PoseToPoseCost.stiffness self) r dof →
       PoseToPoseCost.evaluate self [T_1_0_est; T_2_0_est] (Some [f0])
         = Raise IndexError).
Proof.
  split.
  - intros self [|p0 [|p1 [|p2 [|]]]] flags Hp Hf; try discriminate.
    destruct flags as [|f0 [|f1 [|f2 flags]]]; simpl in Hf; try lia;
      unfold QuadraticCost.evaluate, set_if_requested; simpl.
    + now destruct f0.
    + now destruct f0, f1.
  - intros self T_1_0_est T_2_0_est f0 r Hshape.
    destruct (dot_mv_defined (PoseToPoseCost.stiffness self)
                (log (dot (dot T_2_0_est (inv T_1_0_est))
                          (inv (PoseToPoseCost.T_2_1_obs self)))) r)
      as [residual Hres]; [now rewrite log_length|].
    destruct (dot_mm_defined (PoseToPoseCost.stiffness self)
                (Np.neg_mat (adjoint T_2_0_est)) r dof dof Hshape)
      as [J0 HJ0]; [apply neg_mat_shape, adjoint_shape|].
    unfold PoseToPoseCost.evaluate, set_if_requested. simpl.
    rewrite Hres. simpl. destruct f0; simpl; rewrite ?HJ0; reflexivity.
Qed.

Lemma evaluate_too_few_flags_witness :
  QuadraticCost.evaluate (QuadraticCost.mk 2 3 5) [1; 1; 1] (Some [true; false])
    = Raise IndexError
  ∧ PoseToPoseCost.evaluate (PoseToPoseCost.mk 2 [[3]]) [4; 7] (Some [true])
    = Raise IndexError.
Proof.
  destruct (evaluate_too_few_flags (F:=Z) (G:=Z)) as [Hquadratic Hpose].
  split.
  - apply Hquadratic; simpl; lia.
  - apply (Hpose _ _ _ _ 1%nat). split; [reflexivity|]. repeat constructor.
Defined.

(** ** The residual does not depend on the flags *)

(** One step through a run that returned: the first bound computation
    returned too, here and in the run without flags. *)
Ltac same_prefix Hrun :=
  match type of Hrun with
  | ?m ≫= _ = Ok _ =>
      let Hm := fresh "Hm" in
      destruct m eqn:Hm; simpl in Hrun |- *; [|discriminate Hrun]
  end.

Section ResidualFacts.
Context {F G : Type} `{Scalar F} `{LieGroup F G} `{CameraModel F}
        `{BilinearSampler F}.

Lemma QuadraticCost_residual_without_flags (self : QuadraticCost.t F) params
    compute_jacobians out :
  QuadraticCost.evaluate self params compute_jacobians = Ok out →
  QuadraticCost.evaluate self params None = Ok (ResidualOnly (residual_of out)).
Proof.
  unfold QuadraticCost.evaluate. intros Hrun.
  do 3 same_prefix Hrun.
  destruct (truthy compute_jacobians); [|now injection Hrun as <-].
  do 3 (apply bind_Ok in Hrun as (? & _ & Hrun)). now injection Hrun as <-.
Qed.

Lemma PoseCost_residual_without_flags (self : PoseCost.t F G) params
    compute_jacobians out :
  PoseCost.evaluate self params compute_jacobians = Ok out →
  PoseCost.evaluate self params None = Ok (ResidualOnly (residual_of out)).
Proof.
  unfold PoseCost.evaluate. intros Hrun.
  do 2 same_prefix Hrun.
  destruct (truthy compute_jacobians); [|now injection Hrun as <-].
  apply bind_Ok in Hrun as (? & _ & Hrun). now injection Hrun as <-.
Qed.

Lemma PoseToPoseCost_residual_without_flags (self : PoseToPoseCost.t F G)
    params compute_jacobians out :
  PoseToPoseCost.evaluate self params compute_jacobians = Ok out →
  PoseToPoseCost.evaluate self params None
    = Ok (ResidualOnly (residual_of out)).
Proof.
  unfold PoseToPoseCost.evaluate. intros Hrun.
  do 3 same_prefix Hrun.
  destruct (truthy compute_jacobians); [|now injection Hrun as <-].
  do 2 (apply bind_Ok in Hrun as (? & _ & Hrun)). now injection Hrun as <-.
Qed.

Lemma ReprojectionCost_residual_without_flags (self : ReprojectionCost.t F)
    (params : list (ReprojectionCost.param F G)) compute_jacobians out :
  ReprojectionCost.evaluate self params compute_jacobians = Ok out →
  ReprojectionCost.evaluate self params None
    = Ok (ResidualOnly (residual_of out)).
Proof.
  unfold ReprojectionCost.evaluate. intros Hrun.
  do 2 same_prefix Hrun.
  destruct (truthy compute_jacobians); same_prefix Hrun;
    [|now injection Hrun as <-].
  do 2 (apply bind_Ok in Hrun as (? & _ & Hrun)). now injection Hrun as <-.
Qed.
Lemma PhotometricCost_residual_without_flags (self : PhotometricCost.t F)
    (params : list G) compute_jacobians out :
  PhotometricCost.evaluate self params compute_jacobians = Ok out →
  PhotometricCost.evaluate self params None
    = Ok (ResidualOnly (residual_of out)).
Proof.
  unfold PhotometricCost.evaluate. intros Hrun.
  do 2 same_prefix Hrun.
  destruct (truthy compute_jacobians); simpl in Hrun |- *.
  - do 10 same_prefix Hrun.
    apply bind_Ok in Hrun as (jacobians & _ & Hrun). now injection Hrun as <-.
  - do 6 same_prefix Hrun. now injection Hrun as <-.
Qed.
End ResidualFacts.

(** X7. The residual does not depend on the flags: whenever [evaluate]
    returns, with whatever flags, the call without flags on the same
    parameters returns too, and returns the same residual. This holds for
    all five costs. *)
Theorem residual_does_not_depend_on_flags
    {F G : Type} `{Scalar F} `{LieGroup F G} `{CameraModel F}
    `{BilinearSampler F} (compute_jacobians : option (list bool)) :
  (∀ (self : QuadraticCost.t F) params out,
     QuadraticCost.evaluate self params compute_jacobians = Ok out →
     QuadraticCost.evaluate self params None
       = Ok (ResidualOnly (residual_of out)))
  ∧ (∀ (self : PoseCost.t F G) params out,
       PoseCost.evaluate self params compute_jacobians = Ok out →
       PoseCost.evaluate self params None = Ok (ResidualOnly (residual_of out)))
  ∧ (∀ (self : PoseToPoseCost.t F G) params out,
       PoseToPoseCost.evaluate self params compute_jacobians = Ok out →
       PoseToPoseCost.evaluate self params None
         = Ok (ResidualOnly (residual_of out)))
  ∧ (∀ (self : ReprojectionCost.t F) (params : list (ReprojectionCost.param F G))
       out,
       ReprojectionCost.evaluate self params compute_jacobians = Ok out →
       ReprojectionCost.evaluate self params None
         = Ok (ResidualOnly (residual_of out)))
  ∧ (∀ (self : PhotometricCost.t F) (params : list G) out,
       PhotometricCost.evaluate self params compute_jacobians = Ok out →
       PhotometricCost.evaluate self params None
         = Ok (ResidualOnly (residual_of out))).
Proof.
  split; [|split; [|split; [|split]]]; intros self params out.
  - apply QuadraticCost_residual_without_flags.
  - apply PoseCost_residual_without_flags.
  - apply PoseToPoseCost_residual_without_flags.
  - apply ReprojectionCost_residual_without_flags.
  - apply PhotometricCost_residual_without_flags.
Qed.

Lemma residual_does_not_depend_on_flags_witness :
  PhotometricCost.evaluate
    (PhotometricCost.init Toy.camera Toy.grid Toy.good_disparity
                          [Toy.grid; Toy.grid] Toy.grid 3) [1] None
  = Ok (ResidualOnly [3; 3]).
Proof.
  destruct (residual_does_not_depend_on_flags (F:=Z) (G:=Z) (Some [true]))
    as (_ & _ & _ & _ & Hphoto).
  apply (Hphoto _ [1] (WithJacobians [3; 3] [Some [[3]; [9]]])).
  vm_compute. reflexivity.
Defined.

(** ** PhotometricCost: sizes and failures *)

Section PhotometricSizes.
Context {F G : Type} `{Scalar F} `{LieGroup F G} `{CameraModel F}
        `{BilinearSampler F}.

Lemma Forall2_Forall_right {A B} (P : A → B → Prop) (Q : B → Prop) xs ys :
  Forall2 P xs ys → (∀ x y, P x y → Q y) → Forall Q ys.
Proof. induction 1; intros HPQ; constructor; eauto. Qed.

Lemma pixels_length (w h : nat) : length (pixels w h) = (h * w)%nat.
Proof.
  unfold pixels.
  assert (Hrows : ∀ k,
            length (concat ((λ i : nat, (λ j : nat, (i, j)) <$> seq 0 w)
                              <$> seq k h)) = (h * w)%nat).
  { induction h as [|h IH]; intros k; simpl; [reflexivity|].
    now rewrite length_app, length_fmap, length_seq, IH. }
  apply Hrows.
Qed.

(** Over images of the camera's dimensions every pixel has a disparity and
    an intensity. *)
Lemma pixels_defined (self : PhotometricCost.t F) :
  images_fit self →
  Forall (λ ij, is_Some (at_pixel (PhotometricCost.disp_ref self) ij.1 ij.2)
                ∧ is_Some (at_pixel (PhotometricCost.im_ref self) ij.1 ij.2))
         (pixels (w (PhotometricCost.camera self))
                 (h (PhotometricCost.camera self))).
Proof.
  intros [Him Hdisp].
  eapply Forall2_Forall_right;
    [apply (stacked_rows (w (PhotometricCost.camera self)) 0
                         (h (PhotometricCost.camera self))
                         (PhotometricCost.disp_ref self)
                         (PhotometricCost.im_ref self) Hdisp Him)|].
  intros z ij (_ & _ & Hd & Hi). rewrite Nat.sub_0_r in Hd, Hi.
  rewrite Hd, Hi. split; eauto.
Qed.

Lemma omap_length_filter {A B} (f : A → option B) (g : A → bool) xs :
  Forall (λ x, is_Some (f x) ↔ g x = true) xs →
  length (omap f xs) = length (List.filter g xs).
Proof.
  induction 1 as [|x xs Hx _ IH]; simpl; [reflexivity|].
  destruct (f x) as [y|], (g x); simpl.
  - f_equal. exact IH.
  - destruct Hx as [Hx _]. assert (Hfalse : false = true)
      by (apply Hx; eexists; reflexivity).
    discriminate Hfalse.
  - destruct Hx as [_ Hx]. destruct (Hx eq_refl) as [y Hy]. discriminate.
  - exact IH.
Qed.

Lemma omap_length_le {A B} (f : A → option B) xs :
  (length (omap f xs) ≤ length xs)%nat.
Proof.
  induction xs as [|x xs IH]; [simpl; lia|].
  change (omap f (x :: xs))
    with (match f x with Some y => y :: omap f xs | None => omap f xs end).
  destruct (f x); simpl; lia.
Qed.

Lemma photometric_residual_length (self : PhotometricCost.t F) (T : G) :
  images_fit self →
  length (photometric_residual self T)
    = length (List.filter (pixel_passes self T)
                (pixels (w (PhotometricCost.camera self))
                        (h (PhotometricCost.camera self)))).
Proof.
  intros Hfit. unfold photometric_residual. apply omap_length_filter.
  eapply Forall_impl; [apply (pixels_defined self Hfit)|].
  intros ij [[d Hd] [t Ht]]. unfold pixel_residual, pixel_passes.
  rewrite Hd, Ht. simpl. unfold measurement_residual.
  destruct (passes_filters _ _ _); split; intros Hx; try reflexivity;
    try discriminate; eauto.
  now destruct Hx.
Qed.
Lemma PhotometricCost_returns_specified_residual (self : PhotometricCost.t F)
    (T : G) :
  constructed self → images_fit self →
  PhotometricCost.evaluate self [T] None
    = Ok (ResidualOnly (photometric_residual self T)).
Proof.
  intros Hgrid Hfit.
  destruct (stacked_defined (G:=G) self Hgrid Hfit)
    as (ms & Hms & _ & Hts & Hspec).
  rewrite (evaluate_residual_only self T [] ms None Hms Hts eq_refl).
  now rewrite Hspec.
Qed.
End PhotometricSizes.

(** X8. For a PhotometricCost built by its constructor over images of the
    camera's dimensions, [evaluate] without flags returns a residual with
    exactly one entry per reference pixel that has a valid disparity and
    whose projection into the tracking image is a valid measurement; it
    never has more entries than the image has pixels. *)
Theorem PhotometricCost_residual_entry_per_passing_pixel
    {F G : Type} `{Scalar F} `{LieGroup F G} `{CameraModel F}
    `{BilinearSampler F}
    (self : PhotometricCost.t F) (T_track_ref : G) (rest : list G) :
  constructed self → images_fit self →
  ∃ residual,
    PhotometricCost.evaluate self (T_track_ref :: rest) None
      = Ok (ResidualOnly residual)
    ∧ length residual
      = length (List.filter (pixel_passes self T_track_ref)
                  (pixels (w (PhotometricCost.camera self))
                          (h (PhotometricCost.camera self))))
    ∧ (length residual
         ≤ h (PhotometricCost.camera self) * w (PhotometricCost.camera self))%nat.
Proof.
  intros Hgrid Hfit.
  destruct (stacked_defined (G:=G) self Hgrid Hfit)
    as (ms & Hms & _ & Hts & Hspec).
  exists (photometric_residual self T_track_ref). split; [|split].
  - rewrite (evaluate_residual_only self T_track_ref rest ms None Hms Hts eq_refl).
    now rewrite Hspec.
  - now apply photometric_residual_length.
  - unfold photometric_residual.
    rewrite <- (pixels_length (w (PhotometricCost.camera self))
                              (h (PhotometricCost.camera self))).
    apply omap_length_le.
Qed.

Lemma PhotometricCost_residual_entry_per_passing_pixel_witness :
  ∃ residual,
    PhotometricCost.evaluate
      (PhotometricCost.init Toy.camera Toy.grid Toy.good_disparity
                            [Toy.grid; Toy.grid] Toy.grid 3) [1] None
      = Ok (ResidualOnly residual)
    ∧ length residual = 2%nat.
Proof.
  destruct (PhotometricCost_residual_entry_per_passing_pixel
              (PhotometricCost.init Toy.camera Toy.grid Toy.good_disparity
                                    [Toy.grid; Toy.grid] Toy.grid 3)
              1 [])
    as (residual & Hrun & Hcount & _).
  - reflexivity.
  - split; (split; [reflexivity|]); repeat constructor.
  - exists residual. split; [exact Hrun|]. rewrite Hcount. reflexivity.
Defined.

(** X9. When [PhotometricCost.evaluate] returns a Jacobian for the pose, the
    Jacobian has exactly one row per entry of the residual returned with
    it. *)
Theorem PhotometricCost_jacobian_row_per_entry
    {F G : Type} `{Scalar F} `{LieGroup F G} `{CameraModel F}
    `{BilinearSampler F}
    (self : PhotometricCost.t F) (T_track_ref : G) (flags : list bool)
    residual jacobians J :
  constructed self → images_fit self → gradient_fits self →
  PhotometricCost.evaluate self [T_track_ref] (Some flags)
    = Ok (WithJacobians residual jacobians) →
  jacobians !! 0%nat = Some (Some J) →
  length J = length residual ∧ (0 < length residual)%nat.
Proof.
  intros Hgrid Hfit Hgrad Hrun HJ.
  destruct (PhotometricCost_jacobian_rows self T_track_ref flags residual
              jacobians J Hgrid Hfit Hgrad Hrun HJ) as [Hres Hrows].
  split; [exact Hrows|].
  destruct residual as [|x residual]; [|simpl; lia].
  exfalso.
  destruct (PhotometricCost_keeps_protocol self [T_track_ref]) as [_ Hkeep].
  assert (Hflag : flags !! 0%nat = Some true).
  { destruct flags as [|[|] flags]; [| reflexivity |].
    - destruct (stacked_defined (G:=G) self Hgrid Hfit)
        as (ms & Hms & _ & Hts & _).
      rewrite (evaluate_residual_only self T_track_ref [] ms (Some []) Hms Hts
                 eq_refl) in Hrun. discriminate.
    - destruct (stacked_defined (G:=G) self Hgrid Hfit)
        as (ms & Hms & Hlen & Hts & _).
      destruct (gradient_defined self Hgrad) as (gs & Hgs & Hgl).
      destruct (evaluate_with_flags self T_track_ref [] ms gs (false :: flags)
                  Hms Hts Hgs) as (value & Hrun' & _);
        [congruence | discriminate |].
      rewrite Hrun' in Hrun. rewrite set_if_requested_false in Hrun
        by reflexivity.
      simpl in Hrun. injection Hrun as _ <-. discriminate. }
  rewrite (PhotometricCost_no_measurement_raises self T_track_ref flags
             Hgrid Hfit Hgrad Hflag (eq_sym Hres)) in Hrun.
  discriminate.
Qed.

Lemma PhotometricCost_jacobian_row_per_entry_witness :
  length [[3]; [9]] = length [3; 3].
Proof.
  refine (proj1 (PhotometricCost_jacobian_row_per_entry
                   (PhotometricCost.init Toy.camera Toy.grid Toy.good_disparity
                                         [Toy.grid; Toy.grid] Toy.grid 3)
                   1 [true] [3; 3] [Some [[3]; [9]]] [[3]; [9]] _ _ _ _ _)).
  - reflexivity.
  - split; (split; [reflexivity|]); repeat constructor.
  - exists Toy.grid, Toy.grid. split; [reflexivity|].
    split; (split; [reflexivity|]); repeat constructor.
  - vm_compute. reflexivity.
  - reflexivity.
Defined.

(** X10. When no reference pixel passes the two filters, [evaluate] without
    flags returns the empty residual, but with the Jacobian of the pose
    requested it raises [ValueError]: [np.bmat] is given no block. *)
Theorem PhotometricCost_raises_when_nothing_passes
    {F G : Type} `{Scalar F} `{LieGroup F G} `{CameraModel F}
    `{BilinearSampler F}
    (self : PhotometricCost.t F) (T_track_ref : G) (flags : list bool) :
  constructed self → images_fit self → gradient_fits self →
  Forall (λ ij, pixel_passes self T_track_ref ij = false)
         (pixels (w (PhotometricCost.camera self))
                 (h (PhotometricCost.camera self))) →
  PhotometricCost.evaluate self [T_track_ref] None = Ok (ResidualOnly [])
  ∧ (flags !! 0%nat = Some true →
     PhotometricCost.evaluate self [T_track_ref] (Some flags)
       = Raise ValueError).
Proof.
  intros Hgrid Hfit Hgrad Hnone.
  assert (Hempty : photometric_residual self T_track_ref = []).
  { apply nil_length_inv. rewrite photometric_residual_length by assumption.
    induction Hnone as [|ij ijs Hij _ IH]; simpl; [reflexivity|].
    now rewrite Hij. }
  split.
  - rewrite (PhotometricCost_returns_specified_residual self T_track_ref
               Hgrid Hfit).
    now rewrite Hempty.
  - intros Hflag.
    now apply PhotometricCost_no_measurement_raises.
Qed.

Lemma PhotometricCost_raises_when_nothing_passes_witness :
  PhotometricCost.evaluate
    (PhotometricCost.init Toy.camera Toy.grid Toy.good_disparity
                          [Toy.grid; Toy.grid] Toy.grid 3) [5] (Some [true])
  = Raise ValueError.
Proof.
  refine (proj2 (PhotometricCost_raises_when_nothing_passes
                   (PhotometricCost.init Toy.camera Toy.grid Toy.good_disparity
                                         [Toy.grid; Toy.grid] Toy.grid 3)
                   5 [true] _ _ _ _) _).
  - reflexivity.
  - split; (split; [reflexivity|]); repeat constructor.
  - exists Toy.grid, Toy.grid. split; [reflexivity|].
    split; (split; [reflexivity|]); repeat constructor.
  - repeat constructor.
  - reflexivity.
Defined.



Section SelfAlignment.
Context {F G : Type} `{Scalar F} `{!ScalarRing F} `{LieGroup F G}
        `{!LieGroupAction F G} `{CameraModel F} `{!CameraRoundTrip F}
        `{BilinearSampler F} `{!SamplerOnGrid F}.

Add Ring alignment_ring : Fring.

Lemma omap_Forall {A B} (f : A → option B) (Q : B → Prop) xs :
  (∀ x y, f x = Some y → Q y) → Forall Q (omap f xs).
Proof.
  intros HQ. induction xs as [|x xs IH]; [constructor|].
  change (omap f (x :: xs))
    with (match f x with Some y => y :: omap f xs | None => omap f xs end).
  destruct (f x) as [y|] eqn:Hy; [constructor; eauto | exact IH].
Qed.

(** X12. Aligning an image with itself: for a cost whose tracking image is
    its reference image, evaluated at the identity pose, every entry of the
    residual is zero (given that the identity pose leaves points in place,
    that projecting a triangulated measurement gives it back, and that the
    sampler returns the grid value at the centre of a pixel). *)
Theorem PhotometricCost_zero_against_itself (self : PhotometricCost.t F) :
  constructed self → images_fit self →
  PhotometricCost.im_track self = PhotometricCost.im_ref self →
  ∃ residual,
    PhotometricCost.evaluate self [identity : G] None
      = Ok (ResidualOnly residual)
    ∧ Forall (λ x, x = Fzero) residual.
Proof.
  intros Hgrid Hfit Hsame.
  exists (photometric_residual self (identity : G)).
  split; [now apply PhotometricCost_returns_specified_residual|].
  unfold photometric_residual. apply omap_Forall.
  intros [i j] y. unfold pixel_residual. simpl.
  destruct (at_pixel (PhotometricCost.disp_ref self) i j) as [d|];
    simpl; [|discriminate].
  destruct (at_pixel (PhotometricCost.im_ref self) i j) as [t|] eqn:Ht;
    simpl; [|discriminate].
  unfold measurement_residual, warp.
  rewrite act_identity, project_triangulate. simpl.
  destruct (passes_filters _ _ _); [|discriminate].
  rewrite Hsame, (sample_at_pixel _ i j t Ht).
  intros [= <-]. ring.
Qed.
End SelfAlignment.

Lemma PhotometricCost_zero_against_itself_witness :
  PhotometricCost.evaluate
    (PhotometricCost.init Toy.camera Toy.grid Toy.good_disparity
                          [Toy.grid; Toy.grid] Toy.grid 3) [0] None
  = Ok (ResidualOnly [0; 0; 0; 0]).
Proof.
  destruct (PhotometricCost_zero_against_itself (G:=Z)
              (PhotometricCost.init Toy.camera Toy.grid Toy.good_disparity
                                    [Toy.grid; Toy.grid] Toy.grid 3))
    as (residual & Hrun & Hzero).
  - reflexivity.
  - split; (split; [reflexivity|]); repeat constructor.
  - reflexivity.
  - transitivity (Ok (A:=EvalResult (list Z) (list (list Z)))
                     (ResidualOnly residual)); [exact Hrun|].
    vm_compute in Hrun. injection Hrun as <-. reflexivity.
Defined.

(** ** DenseKeyframe: what the pyramids hold *)

Section PyramidFacts.
Context {F G : Type} `{Scalar F} `{LieGroup F G} `{OpenCV}.

(** After [n + 1] rounds the pyramids hold the input images reduced
    0, 1, ..., n times. *)
Lemma pyramid_loop_levels (im_left im_right : list (list Z)) (n : nat) :
  for_each (DenseKeyframe.pyr_step im_left im_right) (seq 0 (S n)) (None, None)
    = Ok (Some ((λ k, Nat.iter k pyrDown im_left) <$> seq 0 (S n)),
          Some ((λ k, Nat.iter k pyrDown im_right) <$> seq 0 (S n))).
Proof.
  assert (Hlast : ∀ (im : list (list Z)) m,
            py_last ((λ k, Nat.iter k pyrDown im) <$> seq 0 (S m))
              = Ok (Nat.iter m pyrDown im)).
  { intros im m. rewrite seq_S, fmap_app. apply py_last_snoc. }
  induction n as [|n IH]; [reflexivity|].
  rewrite (seq_S (S n) 0), for_each_app, IH, !fmap_app.
  change (0 + S n)%nat with (S n).
  cbn [mbind result_bind for_each]. unfold DenseKeyframe.pyr_step.
  cbn [fst snd read_local mbind result_bind].
  destruct (decide (S n = 0%nat)) as [Hz|_]; [discriminate Hz|].
  rewrite !Hlast. reflexivity.
Qed.
End PyramidFacts.

(** X13. The pyramids of a keyframe: level [k] of [image] is the left input
    image reduced [k] times by [cv2.pyrDown] (as floats over 255); when
    requested, level [k] of [jacobian] is the gradient of that same reduced
    left image, and level [k] of [disparity] is the disparity map of the
    left and right images both reduced [k] times. *)
Theorem DenseKeyframe_levels_are_repeated_pyrDown
    {F G : Type} `{Scalar F} `{LieGroup F G} `{OpenCV}
    (im_left im_right : list (list Z)) (pyrlevels : Z) (T : G) covar
    (compute_disp compute_jac : bool) kf (k : nat) :
  DenseKeyframe.init (F:=F) im_left im_right pyrlevels T covar
                     compute_disp compute_jac = Ok kf →
  (Z.of_nat k < pyrlevels) →
  DenseKeyframe.image kf !! k
    = Some (DenseKeyframe.astype_float_div 255 (Nat.iter k pyrDown im_left))
  ∧ DenseKeyframe.jacobian kf
    = (if compute_jac
       then Some (DenseKeyframe.level_jacobian
                    <$> ((λ k, Nat.iter k pyrDown im_left)
                           <$> seq 0 (Z.to_nat pyrlevels)))
       else None)
  ∧ (compute_disp = true →
     ∃ d, DenseKeyframe.disparity kf = Some d
          ∧ d !! k = Some (DenseKeyframe.level_disparity k
                             (Nat.iter k pyrDown im_left)
                             (Nat.iter k pyrDown im_right))).
Proof.
  unfold DenseKeyframe.init, py_range. intros Hinit Hk.
  destruct (Z.to_nat pyrlevels) as [|n] eqn:Hn; [lia|].
  rewrite pyramid_loop_levels in Hinit.
  assert (Hlevel : seq 0 (S n) !! k = Some k) by (apply lookup_seq_lt; lia).
  revert Hinit Hlevel. generalize (seq 0 (S n)). intros levels Hinit Hlevel.
  cbn [mbind result_bind fst snd read_local] in Hinit.
  destruct compute_disp; cbn [mbind result_bind] in Hinit;
    injection Hinit as <-; cbn [DenseKeyframe.image DenseKeyframe.jacobian
                                 DenseKeyframe.disparity].
  - split; [|split; [reflexivity|]].
    + rewrite !list_lookup_fmap, Hlevel. reflexivity.
    + intros _. eexists. split; [reflexivity|].
      rewrite list_lookup_fmap.
      assert (Hz : zip (zip levels
                          ((λ k, Nat.iter k pyrDown im_left) <$> levels))
                       ((λ k, Nat.iter k pyrDown im_right) <$> levels) !! k
                   = Some (k, Nat.iter k pyrDown im_left,
                           Nat.iter k pyrDown im_right)).
      { apply lookup_zip_with_Some.
        exists (k, Nat.iter k pyrDown im_left), (Nat.iter k pyrDown im_right).
        split; [reflexivity|]. split.
        - apply lookup_zip_with_Some. exists k, (Nat.iter k pyrDown im_left).
          split; [reflexivity|]. split; [exact Hlevel|].
          rewrite list_lookup_fmap, Hlevel. reflexivity.
        - rewrite list_lookup_fmap, Hlevel. reflexivity. }
      rewrite Hz. reflexivity.
  - split; [|split; [reflexivity|discriminate]].
    rewrite !list_lookup_fmap, Hlevel. reflexivity.
Qed.

Lemma DenseKeyframe_levels_are_repeated_pyrDown_witness :
  DenseKeyframe.image Toy.keyframe !! 2%nat = Some [[0; 0]; [0; 0]].
Proof.
  refine (proj1 (DenseKeyframe_levels_are_repeated_pyrDown (F:=Z) (G:=Z)
                   Toy.image8 Toy.image8 4 0 [] true true Toy.keyframe 2 _ _)).
  - vm_compute. reflexivity.
  - lia.
Defined.

(** X14. Every entry of a disparity map of a keyframe is either the NaN
    sentinel or passes both thresholds: it is not below [min_disp + 1 = 2]
    and not above [max_disp], where [max_disp] is 65 at level 0, 33 at
    level 1 and 17 at every coarser level. *)
Theorem DenseKeyframe_disparity_is_thresholded
    {F G : Type} `{Scalar F} `{LieGroup F G} `{OpenCV}
    (level : nat) (imL imR : list (list Z)) (row : list F) (d : F) :
  row ∈ DenseKeyframe.level_disparity (F:=F) level imL imR → d ∈ row →
  let max_disp := Z.max 16 (64 / 2 ^ Z.of_nat level) + 1 in
  (d = Fnan ∨ (Fltb d (Fof_Z 2) = false ∧ Fltb (Fof_Z max_disp) d = false))
  ∧ max_disp = match level with
               | O => 65
               | S O => 33
               | _ => 17
               end.
Proof.
  unfold DenseKeyframe.level_disparity. intros Hrow Hd. split.
  - apply list_elem_of_fmap in Hrow as (row1 & -> & Hrow1).
    apply list_elem_of_fmap in Hd as (d1 & -> & Hd1).
    apply list_elem_of_fmap in Hrow1 as (row0 & -> & Hrow0).
    apply list_elem_of_fmap in Hd1 as (d0 & -> & Hd0).
    simpl. change (1 + 1) with 2. destruct (Fltb d0 (Fof_Z 2)) eqn:Hlow.
    + match goal with
      | |- context [Fltb ?a Fnan] => destruct (Fltb a Fnan)
      end; now left.
    + match goal with
      | |- context [Fltb ?a d0] => destruct (Fltb a d0) eqn:Hhigh
      end; [now left|]. right. now split.
  - destruct level as [|[|level]]; [reflexivity | reflexivity |].
    assert (Hpow : 4 <= 2 ^ Z.of_nat (S (S level))).
    { replace (Z.of_nat (S (S level))) with (2 + Z.of_nat level) by lia.
      rewrite Z.pow_add_r by lia. change (2 ^ 2) with 4.
      pose proof (Z.pow_pos_nonneg 2 (Z.of_nat level)). lia. }
    assert (Hdiv : 64 / 2 ^ Z.of_nat (S (S level)) <= 16).
    { apply Z.div_le_upper_bound; lia. }
    lia.
Qed.

Lemma DenseKeyframe_disparity_is_thresholded_witness :
  (3 = Fnan ∨ (Fltb 3 (Fof_Z 2) = false ∧ Fltb (Fof_Z 65) 3 = false)).
Proof.
  refine (proj1 (DenseKeyframe_disparity_is_thresholded (F:=Z) (G:=Z)
                   0 Toy.image8 Toy.image8 [3; 3] 3 _ _)).
  - vm_compute. repeat constructor.
  - repeat constructor.
Defined.

(** ** The pipeline, frame by frame *)

Section FrameFacts.
Context {F G : Type} `{Scalar F} `{LieGroup F G} `{OpenCV} `{Solver F G}.

Lemma init_fields im_left im_right pyrlevels (T : G) covar cd cj kf :
  DenseKeyframe.init (F:=F) im_left im_right pyrlevels T covar cd cj = Ok kf →
  DenseKeyframe.T_c_w kf = T
  ∧ DenseKeyframe.T_c_w_covar kf = covar
  ∧ DenseKeyframe.pyrlevels kf = pyrlevels
  ∧ 1 <= pyrlevels
  ∧ Z.of_nat (length (DenseKeyframe.image kf)) = pyrlevels
  ∧ (cd = true → cj = true → has_levels kf (Z.to_nat pyrlevels)).
Proof.
  intros Hinit.
  destruct (Z_lt_le_dec pyrlevels 1) as [Hlt|Hge].
  { rewrite init_nonpositive in Hinit by lia. discriminate. }
  destruct (init_positive (F:=F) im_left im_right pyrlevels T covar cd cj Hge)
    as (kf' & Hkf & Hlen & Hp & HT & Hd & Hj).
  rewrite Hkf in Hinit. injection Hinit as ->.
  split; [exact HT|]. split; [|split; [exact Hp|split; [exact Hge|]]].
  - unfold DenseKeyframe.init in Hkf.
    apply bind_Ok in Hkf as (locals & _ & Hkf).
    apply bind_Ok in Hkf as (pyr_left & _ & Hkf).
    apply bind_Ok in Hkf as (disparity & _ & Hkf).
    now injection Hkf as <-.
  - split; [exact Hlen|]. intros Hcd Hcj. split; [lia|]. split.
    + destruct (Hd Hcd) as (d & Hdd & Hdl). exists d. split; [exact Hdd | lia].
    + destruct (Hj Hcj) as (j & Hjj & Hjl). exists j. split; [exact Hjj | lia].
Qed.

(** The levels the tracker visits, the coarsest first. *)
Lemma tracked_levels_coarsest (pyrlevels : Z) :
  2 <= pyrlevels →
  ∃ rest, py_drop_last (reverse (py_range pyrlevels))
          = (Z.to_nat pyrlevels - 1)%nat :: rest.
Proof.
  intros Hp. rewrite tracked_levels.
  destruct (Z.to_nat pyrlevels - 1)%nat as [|m] eqn:Hm; [lia|].
  rewrite seq_S, reverse_app. simpl. eauto.
Qed.

(** When the coarsest level raises, so does the tracker. *)
Lemma compute_raises_at_coarsest (self : DenseStereoPipeline.t F G)
    ref_frame track_frame e :
  2 <= DenseStereoPipeline.pyrlevels self →
  DenseStereoPipeline.level_step self ref_frame track_frame
    ({[ "T_1_0"%string := identity ]}, [])
    (Z.to_nat (DenseStereoPipeline.pyrlevels self) - 1)%nat = Raise e →
  DenseStereoPipeline.compute_frame_to_frame_motion self ref_frame track_frame
    = Raise e.
Proof.
  intros Hp Hstep. unfold DenseStereoPipeline.compute_frame_to_frame_motion.
  destruct (tracked_levels_coarsest _ Hp) as [rest ->].
  simpl. now rewrite Hstep.
Qed.

Lemma level_step_data (self : DenseStereoPipeline.t F G) ref_frame track_frame
    params (calls : list (DenseStereoPipeline.SolveCall F G)) pyrlevel
    params' calls' :
  DenseStereoPipeline.level_step self ref_frame track_frame (params, calls)
                                 pyrlevel = Ok (params', calls') →
  ∃ c, calls' = calls ++ [c] ∧ uses_level_data self ref_frame track_frame c.
Proof.
  unfold DenseStereoPipeline.level_step, py_getitem, getattr.
  destruct (DenseKeyframe.image ref_frame !! pyrlevel) as [im_ref|] eqn:Him;
    simpl; [|discriminate].
  destruct (DenseKeyframe.disparity ref_frame) as [d|] eqn:Hd;
    simpl; [|discriminate].
  destruct (d !! pyrlevel) as [disp_ref|] eqn:Hdl; simpl; [|discriminate].
  destruct (DenseKeyframe.jacobian ref_frame) as [j|] eqn:Hj;
    simpl; [|discriminate].
  destruct (j !! pyrlevel) as [jac_ref|] eqn:Hjl; simpl; [|discriminate].
  destruct (DenseKeyframe.image track_frame !! pyrlevel) as [im_track|] eqn:Ht;
    simpl; [|discriminate].
  match goal with |- context [solve ?pb] => destruct (solve pb) as [m|] end;
    simpl; [|discriminate].
  intros [= <- <-]. eexists. split; [reflexivity|].
  unfold uses_level_data. simpl. eexists. split; [reflexivity|]. simpl.
  repeat split; eauto.
Qed.

Lemma level_loop_data (self : DenseStereoPipeline.t F G) ref_frame track_frame
    levels params (calls : list (DenseStereoPipeline.SolveCall F G))
    params' calls' :
  for_each (DenseStereoPipeline.level_step self ref_frame track_frame)
           levels (params, calls) = Ok (params', calls') →
  Forall (uses_level_data self ref_frame track_frame) calls →
  Forall (uses_level_data self ref_frame track_frame) calls'.
Proof.
  revert params calls. induction levels as [|lvl levels IH]; intros params calls.
  - simpl. now intros [= <- <-].
  - simpl. intros Hrun Hcalls.
    apply bind_Ok in Hrun as ([params1 calls1] & Hstep & Hrun).
    destruct (level_step_data _ _ _ _ _ _ _ _ Hstep) as (c & -> & Hc).
    apply (IH _ _ Hrun). apply Forall_app. split; [exact Hcalls|].
    now constructor.
Qed.
(** [track] on a pipeline without keyframes, once the keyframe is built. *)
Lemma track_on_empty (self : DenseStereoPipeline.t F G) im_left im_right kf :
  DenseStereoPipeline.keyframes self = [] →
  DenseKeyframe.init im_left im_right (DenseStereoPipeline.pyrlevels self)
    (DenseStereoPipeline.first_pose self)
    (DenseStereoPipeline.first_pose_covar self) true true = Ok kf →
  DenseStereoPipeline.track self im_left im_right
    = Ok (DenseStereoPipeline.mk
            (DenseStereoPipeline.camera self)
            (DenseStereoPipeline.first_pose self)
            (DenseStereoPipeline.first_pose_covar self)
            [kf]
            (DenseStereoPipeline.problem_options self)
            (DenseStereoPipeline.pyrlevels self), []).
Proof.
  intros Hempty Hkf. unfold DenseStereoPipeline.track.
  rewrite Hempty. simpl. rewrite Hkf. reflexivity.
Qed.

(** Moving a keyframe leaves its pyramids as they are. *)
Lemma set_T_c_w_levels (T : G) (kf : DenseKeyframe.t F G) n :
  has_levels kf n → has_levels (DenseKeyframe.set_T_c_w T kf) n.
Proof. intros Hkf. exact Hkf. Qed.

(** The number of calls a successful run of the tracker makes. *)
Lemma compute_calls_length (self : DenseStereoPipeline.t F G) ref_frame
    track_frame T (calls : list (DenseStereoPipeline.SolveCall F G)) :
  DenseStereoPipeline.compute_frame_to_frame_motion self ref_frame track_frame
    = Ok (T, calls) →
  length calls = (Z.to_nat (DenseStereoPipeline.pyrlevels self) - 1)%nat.
Proof.
  intros Hrun. destruct (compute_inv _ _ _ _ _ Hrun) as (final & Hlevels & _).
  rewrite <- (length_fmap DenseStereoPipeline.call_level), Hlevels,
    length_reverse.
  apply length_seq.
Qed.

(** The first call of the solver is the one at the coarsest level. *)
Lemma coarsest_step_refused (self : DenseStereoPipeline.t F G) ref_frame
    track_frame (n : nat) params
    (calls : list (DenseStereoPipeline.SolveCall F G)) lvl e :
  (∀ pb : Problem.t F G, solve pb = Raise e) →
  has_levels ref_frame n →
  (n ≤ length (DenseKeyframe.image track_frame))%nat →
  (lvl < n)%nat →
  DenseStereoPipeline.level_step self ref_frame track_frame (params, calls) lvl
    = Raise e.
Proof.
  intros Hsolver (Him & (d & Hd & Hdn) & (j & Hj & Hjn)) Htrack Hlvl.
  unfold DenseStereoPipeline.level_step, py_getitem. rewrite Hd, Hj. simpl.
  destruct (lookup_lt_is_Some_2 (DenseKeyframe.image ref_frame) lvl)
    as [im_ref ->]; [lia|].
  destruct (lookup_lt_is_Some_2 d lvl) as [disp_ref ->]; [lia|].
  destruct (lookup_lt_is_Some_2 j lvl) as [jac_ref ->]; [lia|].
  destruct (lookup_lt_is_Some_2 (DenseKeyframe.image track_frame) lvl)
    as [im_track ->]; [lia|].
  simpl. now rewrite Hsolver.
Qed.
End FrameFacts.

(** X15. The first frame: on a pipeline that holds no keyframe and has at
    least one pyramid level, [track] succeeds for any pair of images, makes
    no call to the solver, and stores one keyframe, placed at the pipeline's
    first pose with its covariance and carrying image, disparity and gradient
    for every level. *)
Theorem track_first_frame_is_stored
    {F G : Type} `{Scalar F} `{LieGroup F G} `{OpenCV} `{Solver F G}
    (self : DenseStereoPipeline.t F G) (im_left im_right : list (list Z)) :
  DenseStereoPipeline.keyframes self = [] →
  1 <= DenseStereoPipeline.pyrlevels self →
  ∃ kf,
    DenseStereoPipeline.track self im_left im_right
      = Ok (DenseStereoPipeline.mk
              (DenseStereoPipeline.camera self)
              (DenseStereoPipeline.first_pose self)
              (DenseStereoPipeline.first_pose_covar self)
              [kf]
              (DenseStereoPipeline.problem_options self)
              (DenseStereoPipeline.pyrlevels self), [])
    ∧ DenseKeyframe.T_c_w kf = DenseStereoPipeline.first_pose self
    ∧ DenseKeyframe.T_c_w_covar kf = DenseStereoPipeline.first_pose_covar self
    ∧ has_levels kf (Z.to_nat (DenseStereoPipeline.pyrlevels self)).
Proof.
  intros Hempty Hp.
  destruct (init_positive (F:=F) im_left im_right
              (DenseStereoPipeline.pyrlevels self)
              (DenseStereoPipeline.first_pose self)
              (DenseStereoPipeline.first_pose_covar self) true true Hp)
    as (kf & Hkf & _).
  exists kf. split; [now apply track_on_empty|].
  destruct (init_fields _ _ _ _ _ _ _ _ Hkf) as (HT & Hc & _ & _ & _ & Hlv).
  split; [exact HT|]. split; [exact Hc|]. now apply Hlv.
Qed.

Lemma track_first_frame_is_stored_witness :
  DenseStereoPipeline.track Toy.pipeline Toy.image8 Toy.image8
    = Ok (Toy.pipeline1, []).
Proof.
  destruct (track_first_frame_is_stored Toy.pipeline Toy.image8 Toy.image8)
    as (kf & Hrun & _).
  - reflexivity.
  - simpl. lia.
  - rewrite Hrun. vm_compute in Hrun. injection Hrun as <-. reflexivity.
Defined.

(** X16. The second frame of a new pipeline: after the first frame, [track]
    on a second pair of images succeeds whenever the solver answers, makes
    exactly three calls to the solver, at levels 3, 2 and 1 in that order,
    and leaves the pipeline with two keyframes. *)
Theorem track_second_frame_solves_three_levels
    {F G : Type} `{Scalar F} `{LieGroup F G} `{OpenCV} `{Solver F G}
    (camera : Camera F) (first_pose : G) (first_pose_covar : list (list F))
    (im_left1 im_right1 im_left2 im_right2 : list (list Z)) :
  solver_returns_pose →
  ∃ after_first after_second calls,
    DenseStereoPipeline.track
      (DenseStereoPipeline.init camera first_pose first_pose_covar)
      im_left1 im_right1 = Ok (after_first, [])
    ∧ DenseStereoPipeline.track after_first im_left2 im_right2
      = Ok (after_second, calls)
    ∧ DenseStereoPipeline.call_level <$> calls = [3; 2; 1]%nat
    ∧ length (DenseStereoPipeline.keyframes after_second) = 2%nat.
Proof.
  intros Hsolver.
  set (fresh := DenseStereoPipeline.init camera first_pose first_pose_covar).
  destruct (init_positive (F:=F) im_left1 im_right1 4 first_pose
              first_pose_covar true true) as (kf1 & Hkf1 & _); [lia|].
  pose proof (track_on_empty fresh im_left1 im_right1 kf1 eq_refl Hkf1)
    as Hfirst.
  destruct (init_fields _ _ _ _ _ _ _ _ Hkf1) as (_ & _ & _ & _ & _ & Hlevels).
  specialize (Hlevels eq_refl eq_refl).
  simpl in Hfirst, Hlevels.
  set (after_first := DenseStereoPipeline.mk camera first_pose first_pose_covar
                        [kf1] (DenseStereoPipeline.problem_options fresh) 4)
    in *.
  destruct (init_positive (F:=F) (G:=G) im_left2 im_right2 4 identity
              (Np.identity 6) true true) as (kf2 & Hkf2 & Hlen2 & _);
    [lia|].
  destruct (compute_total after_first kf1 kf2 Hsolver) as [[T calls] Hmotion].
  { exact Hlevels. }
  { simpl. lia. }
  destruct (compute_inv after_first kf1 kf2 T calls Hmotion)
    as (final & Hcalls & _).
  eexists after_first, _, calls. split; [exact Hfirst|]. split; [|split].
  - apply (track_next_frame after_first im_left2 im_right2 kf1 _ calls
             eq_refl).
    exists kf2, T. split; [exact Hkf2|]. split; [exact Hmotion | reflexivity].
  - exact Hcalls.
  - reflexivity.
Qed.

Lemma track_second_frame_solves_three_levels_witness :
  ∃ after_second calls,
    DenseStereoPipeline.track Toy.pipeline1 Toy.image8 Toy.image8
      = Ok (after_second, calls)
    ∧ DenseStereoPipeline.call_level <$> calls = [3; 2; 1]%nat.
Proof.
  destruct (track_second_frame_solves_three_levels (F:=Z) (G:=Z)
              Toy.camera 0 [] Toy.image8 Toy.image8 Toy.image8 Toy.image8)
    as (after_first & after_second & calls & Hfirst & Hsecond & Hlevels & _).
  - intros pb [T HT]. eexists. split; [reflexivity|].
    rewrite lookup_fmap, HT. now eexists.
  - exists after_second, calls. split; [|exact Hlevels].
    vm_compute in Hfirst. injection Hfirst as <-. exact Hsecond.
Defined.

(** X17. A pipeline whose number of pyramid levels is zero or negative cannot
    take a frame: [track] raises UnboundLocalError, on the first frame and on
    every later one, before it reaches the solver. *)
Theorem track_without_levels_raises
    {F G : Type} `{Scalar F} `{LieGroup F G} `{OpenCV} `{Solver F G}
    (self : DenseStereoPipeline.t F G) (im_left im_right : list (list Z)) :
  DenseStereoPipeline.pyrlevels self <= 0 →
  DenseStereoPipeline.track self im_left im_right = Raise UnboundLocalError.
Proof.
  intros Hp. unfold DenseStereoPipeline.track.
  destruct (decide (length (DenseStereoPipeline.keyframes self) = 0%nat));
    now rewrite init_nonpositive.
Qed.

Lemma track_without_levels_raises_witness :
  DenseStereoPipeline.track
    (DenseStereoPipeline.mk Toy.camera 0 [] [Toy.keyframe] Options_new 0)
    Toy.image8 Toy.image8 = Raise UnboundLocalError.
Proof.
  apply (track_without_levels_raises
           (DenseStereoPipeline.mk Toy.camera 0 [] [Toy.keyframe] Options_new 0)).
  simpl. lia.
Defined.

(** X18. With at most one pyramid level the tracker never calls the solver
    and never reads the frames: it returns the identity pose. So on a
    pipeline with exactly one level, [track] on a later frame gives the new
    keyframe the identity composed with the pose of the previous one. *)
Theorem single_level_tracker_returns_identity
    {F G : Type} `{Scalar F} `{LieGroup F G} `{OpenCV} `{Solver F G}
    (self : DenseStereoPipeline.t F G) :
  DenseStereoPipeline.pyrlevels self <= 1 →
  (∀ ref_frame track_frame,
     DenseStereoPipeline.compute_frame_to_frame_motion self ref_frame track_frame
       = Ok (identity, []))
  ∧ (DenseStereoPipeline.pyrlevels self = 1 →
     ∀ im_left im_right prev,
       last (DenseStereoPipeline.keyframes self) = Some prev →
       ∃ kf,
         DenseStereoPipeline.track self im_left im_right
           = Ok (DenseStereoPipeline.mk
                   (DenseStereoPipeline.camera self)
                   (DenseStereoPipeline.first_pose self)
                   (DenseStereoPipeline.first_pose_covar self)
                   (DenseStereoPipeline.keyframes self ++ [kf])
                   (DenseStereoPipeline.problem_options self)
                   (DenseStereoPipeline.pyrlevels self), [])
         ∧ DenseKeyframe.T_c_w kf = dot identity (DenseKeyframe.T_c_w prev)).
Proof.
  intros Hp.
  assert (Hmotion : ∀ ref_frame track_frame,
            DenseStereoPipeline.compute_frame_to_frame_motion
              self ref_frame track_frame = Ok (identity, [])).
  { intros ref_frame track_frame.
    unfold DenseStereoPipeline.compute_frame_to_frame_motion.
    rewrite tracked_levels.
    replace (Z.to_nat (DenseStereoPipeline.pyrlevels self) - 1)%nat
      with 0%nat by lia.
    simpl. unfold dict_getitem. now rewrite lookup_singleton_eq. }
  split; [exact Hmotion|].
  intros Hone im_left im_right prev Hlast.
  destruct (init_positive (F:=F) (G:=G) im_left im_right
              (DenseStereoPipeline.pyrlevels self) identity (Np.identity 6)
              true true) as (kf & Hkf & _); [lia|].
  exists (DenseKeyframe.set_T_c_w (dot identity (DenseKeyframe.T_c_w prev)) kf).
  split; [|reflexivity].
  apply (track_next_frame self im_left im_right prev _ [] Hlast).
  exists kf, identity. split; [exact Hkf|]. split; [apply Hmotion|reflexivity].
Qed.

Lemma single_level_tracker_returns_identity_witness :
  DenseStereoPipeline.compute_frame_to_frame_motion
    (DenseStereoPipeline.mk Toy.camera 0 [] [Toy.keyframe] Options_new 1)
    Toy.keyframe keyframe_without_disparity = Ok (0, []).
Proof.
  refine (proj1 (single_level_tracker_returns_identity
                   (DenseStereoPipeline.mk Toy.camera 0 [] [Toy.keyframe]
                                           Options_new 1) _) _ _).
  simpl. lia.
Defined.

(** X19. With two or more pyramid levels the tracker starts at the coarsest
    level and needs the reference keyframe to carry it: a reference keyframe
    with fewer images than the pipeline has levels makes it raise IndexError;
    one with the images but built without disparity maps, or with disparity
    maps but without gradients, makes it raise AttributeError. *)
Theorem tracker_needs_reference_pyramids
    {F G : Type} `{Scalar F} `{LieGroup F G} `{OpenCV} `{Solver F G}
    (self : DenseStereoPipeline.t F G)
    (ref_frame track_frame : DenseKeyframe.t F G) :
  2 <= DenseStereoPipeline.pyrlevels self →
  let n := Z.to_nat (DenseStereoPipeline.pyrlevels self) in
  ((length (DenseKeyframe.image ref_frame) < n)%nat →
   DenseStereoPipeline.compute_frame_to_frame_motion self ref_frame track_frame
     = Raise IndexError)
  ∧ ((n ≤ length (DenseKeyframe.image ref_frame))%nat →
     DenseKeyframe.disparity ref_frame = None →
     DenseStereoPipeline.compute_frame_to_frame_motion self ref_frame track_frame
       = Raise AttributeError)
  ∧ ((n ≤ length (DenseKeyframe.image ref_frame))%nat →
     (∃ d, DenseKeyframe.disparity ref_frame = Some d ∧ (n ≤ length d)%nat) →
     DenseKeyframe.jacobian ref_frame = None →
     DenseStereoPipeline.compute_frame_to_frame_motion self ref_frame track_frame
       = Raise AttributeError).
Proof.
  intros Hp n. subst n. split; [|split].
  - intros Hshort. apply compute_raises_at_coarsest; [exact Hp|].
    unfold DenseStereoPipeline.level_step, py_getitem.
    rewrite (lookup_ge_None_2 (DenseKeyframe.image ref_frame)
               (Z.to_nat (DenseStereoPipeline.pyrlevels self) - 1)) by lia.
    reflexivity.
  - intros Hlong Hnone. apply compute_raises_at_coarsest; [exact Hp|].
    unfold DenseStereoPipeline.level_step, py_getitem.
    destruct (lookup_lt_is_Some_2 (DenseKeyframe.image ref_frame)
                (Z.to_nat (DenseStereoPipeline.pyrlevels self) - 1))
      as [im_ref ->]; [lia|].
    rewrite Hnone. reflexivity.
  - intros Hlong (d & Hd & Hdn) Hnone.
    apply compute_raises_at_coarsest; [exact Hp|].
    unfold DenseStereoPipeline.level_step, py_getitem.
    destruct (lookup_lt_is_Some_2 (DenseKeyframe.image ref_frame)
                (Z.to_nat (DenseStereoPipeline.pyrlevels self) - 1))
      as [im_ref ->]; [lia|].
    rewrite Hd. simpl.
    destruct (lookup_lt_is_Some_2 d
                (Z.to_nat (DenseStereoPipeline.pyrlevels self) - 1))
      as [disp_ref ->]; [lia|].
    rewrite Hnone. reflexivity.
Qed.

Lemma tracker_needs_reference_pyramids_witness :
  DenseStereoPipeline.compute_frame_to_frame_motion
    Toy.pipeline keyframe_without_disparity Toy.keyframe
    = Raise AttributeError.
Proof.
  refine (proj1 (proj2 (tracker_needs_reference_pyramids
                          Toy.pipeline keyframe_without_disparity Toy.keyframe
                          _)) _ _).
  - simpl. lia.
  - simpl. lia.
  - reflexivity.
Defined.

(** X20. An exception of the solver passes through the tracker: when the
    solver raises [e], the pipeline has two or more levels and both frames
    carry them, [_compute_frame_to_frame_motion] raises [e]; and so does
    [track] on a pipeline whose last keyframe carries the levels. *)
Theorem solver_exception_leaves_track
    {F G : Type} `{Scalar F} `{LieGroup F G} `{OpenCV} `{Solver F G}
    (self : DenseStereoPipeline.t F G) (e : PyExc) :
  (∀ pb : Problem.t F G, solve pb = Raise e) →
  2 <= DenseStereoPipeline.pyrlevels self →
  let n := Z.to_nat (DenseStereoPipeline.pyrlevels self) in
  (∀ ref_frame track_frame,
     has_levels ref_frame n →
     (n ≤ length (DenseKeyframe.image track_frame))%nat →
     DenseStereoPipeline.compute_frame_to_frame_motion self ref_frame track_frame
       = Raise e)
  ∧ (∀ im_left im_right prev,
       last (DenseStereoPipeline.keyframes self) = Some prev →
       has_levels prev n →
       DenseStereoPipeline.track self im_left im_right = Raise e).
Proof.
  intros Hsolver Hp n. subst n.
  assert (Hmotion : ∀ ref_frame track_frame,
     has_levels ref_frame (Z.to_nat (DenseStereoPipeline.pyrlevels self)) →
     (Z.to_nat (DenseStereoPipeline.pyrlevels self)
        ≤ length (DenseKeyframe.image track_frame))%nat →
     DenseStereoPipeline.compute_frame_to_frame_motion self ref_frame track_frame
       = Raise e).
  { intros ref_frame track_frame Href Htrack.
    apply compute_raises_at_coarsest; [exact Hp|].
    apply (coarsest_step_refused self ref_frame track_frame
             (Z.to_nat (DenseStereoPipeline.pyrlevels self)));
      [exact Hsolver | exact Href | exact Htrack | lia]. }
  split; [exact Hmotion|].
  intros im_left im_right prev Hlast Hprev.
  unfold DenseStereoPipeline.track.
  destruct (decide (length (DenseStereoPipeline.keyframes self) = 0%nat))
    as [Hempty|_].
  { apply nil_length_inv in Hempty. now rewrite Hempty in Hlast. }
  destruct (init_positive (F:=F) (G:=G) im_left im_right
              (DenseStereoPipeline.pyrlevels self) identity (Np.identity 6)
              true true) as (kf & Hkf & Hlen & _); [lia|].
  rewrite Hkf, (py_last_Ok _ _ Hlast). simpl.
  rewrite (Hmotion prev kf Hprev) by lia. reflexivity.
Qed.

Lemma solver_exception_leaves_track_witness :
  @DenseStereoPipeline.track Z Z Z_Scalar Toy.group Toy.cv2
    (refusing_solver ValueError) Toy.pipeline1 Toy.image8 Toy.image8
  = Raise ValueError.
Proof.
  refine (proj2 (@solver_exception_leaves_track Z Z Z_Scalar Toy.group Toy.cv2
                   (refusing_solver ValueError) Toy.pipeline1 ValueError _ _)
                Toy.image8 Toy.image8 Toy.keyframe _ _).
  - intros pb. reflexivity.
  - simpl. lia.
  - reflexivity.
  - vm_compute. repeat split; try lia; eexists; split; try reflexivity; lia.
Defined.

(** X21. Readiness is an invariant of [track]: on a pipeline that is ready
    (one level or more, every keyframe carrying all the levels) and with a
    solver that answers, [track] succeeds on any pair of images; the pipeline
    it leaves is ready again, holds one keyframe more, has the same camera,
    first pose, covariance and number of levels, and the call made no solve
    on the first frame and one solve less than there are levels on a later
    one. *)
Theorem track_keeps_pipeline_ready
    {F G : Type} `{Scalar F} `{LieGroup F G} `{OpenCV} `{Solver F G}
    (self : DenseStereoPipeline.t F G) (im_left im_right : list (list Z)) :
  solver_returns_pose →
  ready self →
  ∃ self' calls,
    DenseStereoPipeline.track self im_left im_right = Ok (self', calls)
    ∧ ready self'
    ∧ length (DenseStereoPipeline.keyframes self')
      = S (length (DenseStereoPipeline.keyframes self))
    ∧ DenseStereoPipeline.camera self' = DenseStereoPipeline.camera self
    ∧ DenseStereoPipeline.first_pose self' = DenseStereoPipeline.first_pose self
    ∧ DenseStereoPipeline.first_pose_covar self'
      = DenseStereoPipeline.first_pose_covar self
    ∧ DenseStereoPipeline.pyrlevels self' = DenseStereoPipeline.pyrlevels self
    ∧ length calls
      = match DenseStereoPipeline.keyframes self with
        | [] => 0%nat
        | _ :: _ => (Z.to_nat (DenseStereoPipeline.pyrlevels self) - 1)%nat
        end.
Proof.
  intros Hsolver [Hp Hall].
  destruct (DenseStereoPipeline.keyframes self) as [|k0 ks] eqn:Hks.
  - destruct (init_positive (F:=F) im_left im_right
                (DenseStereoPipeline.pyrlevels self)
                (DenseStereoPipeline.first_pose self)
                (DenseStereoPipeline.first_pose_covar self) true true Hp)
      as (kf & Hkf & _).
    destruct (init_fields _ _ _ _ _ _ _ _ Hkf) as (_ & _ & _ & _ & _ & Hlv).
    eexists _, []. split; [exact (track_on_empty _ _ _ _ Hks Hkf)|].
    split; [|now repeat split].
    split; [exact Hp|]. simpl. constructor; [now apply Hlv | constructor].
  - destruct (last (k0 :: ks)) as [prev|] eqn:Hlast;
      [|apply last_None in Hlast; discriminate].
    assert (Hprev : has_levels prev
                      (Z.to_nat (DenseStereoPipeline.pyrlevels self))).
    { rewrite Forall_forall in Hall. apply Hall.
      apply last_Some in Hlast as [l' ->]. set_solver. }
    destruct (init_positive (F:=F) (G:=G) im_left im_right
                (DenseStereoPipeline.pyrlevels self) identity (Np.identity 6)
                true true Hp) as (kf & Hkf & Hlen & _).
    destruct (init_fields _ _ _ _ _ _ _ _ Hkf) as (_ & _ & _ & _ & _ & Hlv).
    destruct (compute_total self prev kf Hsolver Hprev) as [[T calls] Hmotion];
      [lia|].
    eexists _, calls. split.
    { apply (track_next_frame self im_left im_right prev _ calls);
        [now rewrite Hks|].
      exists kf, T. split; [exact Hkf|]. split; [exact Hmotion|reflexivity]. }
    simpl. rewrite Hks. split; [|split; [|now repeat split;
                                            apply (compute_calls_length _ _ _ _ _ Hmotion)]].
    + split; [exact Hp|]. simpl.
      change (k0 :: ks ++ ?l) with ((k0 :: ks) ++ l).
      apply Forall_app. split; [exact Hall|].
      constructor; [|constructor]. apply set_T_c_w_levels. now apply Hlv.
    + rewrite length_app. simpl. lia.
Qed.

Lemma track_keeps_pipeline_ready_witness :
  ∃ self' calls,
    DenseStereoPipeline.track Toy.pipeline1 Toy.image8 Toy.image8
      = Ok (self', calls)
    ∧ ready self'
    ∧ length (DenseStereoPipeline.keyframes self') = 2%nat.
Proof.
  destruct (track_keeps_pipeline_ready Toy.pipeline1 Toy.image8 Toy.image8)
    as (self' & calls & Hrun & Hready & Hlen & _).
  - intros pb [T HT]. eexists. split; [reflexivity|].
    rewrite lookup_fmap, HT. now eexists.
  - split; [simpl; lia|]. constructor; [|constructor].
    vm_compute. repeat split; try lia; eexists; split; try reflexivity; lia.
  - exists self', calls. split; [exact Hrun|]. split; [exact Hready|exact Hlen].
Defined.

(** X22. Every call the tracker makes to the solver works on the data of its
    own pyramid level: the one residual of the problem holds the reference
    image, disparity and gradient and the tracking image of that level,
    together with a camera whose intrinsics are those of the pipeline's camera
    multiplied by [1 / 2^level] and whose width and height are those of the
    reference image of the level. *)
Theorem tracker_calls_use_level_data
    {F G : Type} `{Scalar F} `{LieGroup F G} `{OpenCV} `{Solver F G}
    (self : DenseStereoPipeline.t F G)
    (ref_frame track_frame : DenseKeyframe.t F G) T calls :
  DenseStereoPipeline.compute_frame_to_frame_motion self ref_frame track_frame
    = Ok (T, calls) →
  Forall (uses_level_data self ref_frame track_frame) calls.
Proof.
  unfold DenseStereoPipeline.compute_frame_to_frame_motion.
  intros Hrun. apply bind_Ok in Hrun as ([params calls'] & Hloop & Hrun).
  apply bind_Ok in Hrun as (T' & _ & Hrun). injection Hrun as <- <-.
  apply (level_loop_data _ _ _ _ _ _ _ _ Hloop). constructor.
Qed.

Lemma tracker_calls_use_level_data_witness :
  Forall (uses_level_data Toy.pipeline Toy.keyframe Toy.keyframe)
         (snd Toy.tracked).
Proof.
  assert (Hrun : DenseStereoPipeline.compute_frame_to_frame_motion
                   Toy.pipeline Toy.keyframe Toy.keyframe
                 = Ok (fst Toy.tracked, snd Toy.tracked))
    by (vm_compute; reflexivity).
  exact (tracker_calls_use_level_data Toy.pipeline Toy.keyframe Toy.keyframe
           (fst Toy.tracked) (snd Toy.tracked) Hrun).
Defined.

(** ** The reprojection cost at its own prediction *)

Section ReprojectionZero.
Context {F G : Type} `{Scalar F} `{!ScalarRing F} `{LieGroup F G}
        `{CameraModel F}.

Add Ring reprojection_ring : Fring.

Lemma sub_row3_self (m : pixel F) :
  Np.sub (row3 m) (row3 m) = Ok (Np.zeros 3).
Proof.
  destruct m as [[a b] c]. unfold Np.sub. simpl.
  unfold Np.zeros. simpl. do 2 f_equal; [ring|]. f_equal; [ring|].
  f_equal. ring.
Qed.

Lemma ReprojectionCost_zero_run (self : ReprojectionCost.t F) (T : G)
    (pt : point F) (r : nat) :
  Np.has_shape (ReprojectionCost.stiffness self) r 3 →
  ReprojectionCost.obs self
    = row3 (project (ReprojectionCost.camera self) (act T pt)) →
  ReprojectionCost.evaluate self
    [ReprojectionCost.Pose T; ReprojectionCost.Point pt] None
    = Ok (ResidualOnly (Np.zeros r)).
Proof.
  intros Hshape Hobs.
  pose (laws := {| Fmul_zero_r := ring_mul_zero_r;
                   Fadd_zero_l := ring_add_zero_l |} : ScalarLaws F).
  unfold ReprojectionCost.evaluate. simpl.
  rewrite Hobs, sub_row3_self. simpl.
  rewrite (dot_mv_zeros _ r 3 Hshape). reflexivity.
Qed.
End ReprojectionZero.

(** X23. ReprojectionCost at its own prediction: when the observation is the
    projection of the point moved by the pose, the residual is the zero
    vector. In particular, with a camera whose projection undoes its
    triangulation and poses whose identity leaves points in place, the
    triangulated observation seen from the identity pose has residual zero. *)
Theorem ReprojectionCost_zero_at_prediction
    {F G : Type} `{Scalar F} `{!ScalarRing F} `{LieGroup F G}
    `{!LieGroupAction F G} `{CameraModel F} `{!CameraRoundTrip F}
    (camera : Camera F) (stiffness : list (list F)) (r : nat) :
  Np.has_shape stiffness r 3 →
  (∀ (T : G) (pt : point F),
     ReprojectionCost.evaluate
       (ReprojectionCost.mk camera (row3 (project camera (act T pt))) stiffness)
       [ReprojectionCost.Pose T; ReprojectionCost.Point pt] None
     = Ok (ResidualOnly (Np.zeros r)))
  ∧ (∀ m : pixel F,
       ReprojectionCost.evaluate
         (ReprojectionCost.mk camera (row3 m) stiffness)
         [ReprojectionCost.Pose (identity : G);
          ReprojectionCost.Point (triangulate camera m)] None
       = Ok (ResidualOnly (Np.zeros r))).
Proof.
  intros Hshape. split.
  - intros T pt. now apply ReprojectionCost_zero_run.
  - intros m. apply ReprojectionCost_zero_run; [exact Hshape|]. simpl.
    now rewrite act_identity, project_triangulate.
Qed.

Lemma ReprojectionCost_zero_at_prediction_witness :
  ReprojectionCost.evaluate (G:=Z)
    (ReprojectionCost.mk Toy.camera [6; 2; 3] [[1; 0; 0]; [0; 1; 0]])
    [ReprojectionCost.Pose 5; ReprojectionCost.Point (1, 2, 3)] None
  = Ok (ResidualOnly [0; 0]).
Proof.
  assert (Hshape : Np.has_shape (F:=Z) [[1; 0; 0]; [0; 1; 0]] 2 3)
    by (split; [reflexivity|]; repeat constructor).
  exact (proj1 (ReprojectionCost_zero_at_prediction (G:=Z) Toy.camera
                  [[1; 0; 0]; [0; 1; 0]] 2 Hshape) 5 (1, 2, 3)).
Defined.
